(** * Verification of the retrieval-and-answer engine of the document
      search service

    The development embeds the retained logic of
    [backend/services/llmService] (response cache, keyword scorer, snippet
    window extractor, context packer, two-stage pipeline) and of
    [backend/routes/searchRoutes.js] (admission controller, search route)
    and proves the properties the specification states about them.

    Modelling conventions.
    - A JavaScript string is a list of 8-bit characters: the Latin-1 range
      of UTF-16 code units, on which [toLowerCase], [trim] and the regular
      expression classes [\s], [\W] are closed and are written out below.
    - A JavaScript number that holds a count, an offset or a time stamp is
      an integer [Z]; the relevance score, the one fractional number of the
      program, is an IEEE-754 binary64 value ([spec_float], precision 53).
    - A JavaScript [Map] that is iterated in insertion order (the cache) is
      an association list; a [Map] used as a plain dictionary (the
      rate-limit store) is a [gmap].
    - The LLM backend is an oracle: a function from the history of requests
      and the current request to a reply.  Code that calls it runs in a
      state-and-exception monad whose state is the log of requests made. *)

From Stdlib Require Import ZArith List Ascii String Bool Lia.
From Stdlib Require Import Sorting.Sorted Sorting.Permutation.
From Stdlib Require Import Floats.SpecFloat.
From stdpp Require Import base decidable countable list strings pretty gmap.

Import ListNotations.
Local Open Scope Z_scope.

(* ================================================================== *)
(** * JavaScript built-ins used by the program *)
(* ================================================================== *)

Module JS.

(** ** Strings *)

Definition jsstring : Type := list ascii.

Definition lit (s : string) : jsstring := list_ascii_of_string s.

Definition code (c : ascii) : Z := Z.of_nat (nat_of_ascii c).

Definition chr (z : Z) : ascii := ascii_of_nat (Z.to_nat z).

Definition str_length (s : jsstring) : Z := Z.of_nat (length s).

(** [String.prototype.toLowerCase] on Latin-1: A-Z and the accented
    capitals U+00C0-U+00DE (without the multiplication sign U+00D7) move
    up by 32; every other character is unchanged.  A string of the model
    holds code units below 256 only; on these the lowered text has the
    length of the text.  Beyond them it can be longer, so what is said of
    offsets into a lowered text is said against the lowered text. *)
Definition lower_char (c : ascii) : ascii :=
  let n := code c in
  if ((65 <=? n) && (n <=? 90))
     || ((192 <=? n) && (n <=? 222) && negb (n =? 215))
  then chr (n + 32) else c.

Definition toLowerCase (s : jsstring) : jsstring := map lower_char s.

(** The class [\s] (and the characters [trim] strips): TAB, LF, VT, FF, CR,
    SPACE and NO-BREAK SPACE. *)
Definition is_space (c : ascii) : bool :=
  let n := code c in
  ((9 <=? n) && (n <=? 13)) || (n =? 32) || (n =? 160).

(** The class [\w] without the underscore: [A-Za-z0-9]. *)
Definition is_alnum (c : ascii) : bool :=
  let n := code c in
  ((48 <=? n) && (n <=? 57)) || ((65 <=? n) && (n <=? 90))
  || ((97 <=? n) && (n <=? 122)).

(** The class [[\s\W_]]: everything that is not a letter or a digit. *)
Definition is_separator (c : ascii) : bool :=
  is_space c || negb (is_alnum c || (code c =? 95)) || (code c =? 95).

Fixpoint dropWhile {A} (p : A -> bool) (l : list A) : list A :=
  match l with
  | [] => []
  | x :: r => if p x then dropWhile p r else l
  end.

Definition trimStart (s : jsstring) : jsstring := dropWhile is_space s.

Definition trimEnd (s : jsstring) : jsstring :=
  rev (dropWhile is_space (rev s)).

Definition trim (s : jsstring) : jsstring := trimEnd (trimStart s).

(** [s.replace(/\s+/g, ' ')]: every maximal run of white space becomes one
    space.  [in_run] tells that the previous character belonged to the run
    that is being replaced. *)
Fixpoint collapse_ws (in_run : bool) (s : jsstring) : jsstring :=
  match s with
  | [] => []
  | c :: r =>
      if is_space c
      then (if in_run then collapse_ws true r
            else " "%char :: collapse_ws true r)
      else c :: collapse_ws false r
  end.

Definition replace_ws_runs (s : jsstring) : jsstring := collapse_ws false s.

Definition clamp (lo hi x : Z) : Z := Z.max lo (Z.min hi x).

(** [s.substring(a, b)]: both indices are clamped to [0, length] and
    swapped when [a > b]. *)
Definition substring (s : jsstring) (a b : Z) : jsstring :=
  let a' := clamp 0 (str_length s) a in
  let b' := clamp 0 (str_length s) b in
  let lo := Z.min a' b' in
  let hi := Z.max a' b' in
  firstn (Z.to_nat (hi - lo)) (skipn (Z.to_nat lo) s).

(** [l.slice(0, n)]: a negative [n] counts from the end. *)
Definition slice0 {A} (l : list A) (n : Z) : list A :=
  let len := Z.of_nat (length l) in
  let e := if n <? 0 then Z.max (len + n) 0 else Z.min n len in
  firstn (Z.to_nat e) l.

Fixpoint is_prefix (p s : jsstring) : bool :=
  match p, s with
  | [], _ => true
  | _ :: _, [] => false
  | a :: p', b :: s' => if ascii_dec a b then is_prefix p' s' else false
  end.

(** [s.includes(p)]. *)
Fixpoint includes (s p : jsstring) : bool :=
  is_prefix p s ||
  match s with
  | [] => false
  | _ :: r => includes r p
  end.

Definition str_eqb (a b : jsstring) : bool := bool_decide (a = b).

(** [arr.includes(x)] on an array of strings. *)
Definition arr_includes (l : list jsstring) (x : jsstring) : bool :=
  existsb (str_eqb x) l.

(** ** Numbers *)

Definition float : Type := spec_float.

Definition prec : Z := 53.
Definition emax : Z := 1024.

(** The double that holds the integer [z]. *)
Definition of_int (z : Z) : float := binary_normalize prec emax z 0 false.

Definition fzero : float := S754_zero false.

Definition fsub : float -> float -> float := SFsub prec emax.
Definition fdiv : float -> float -> float := SFdiv prec emax.
Definition fsqrt : float -> float := SFsqrt prec emax.

(** [x > 0]. *)
Definition is_positive (x : float) : bool := SFltb fzero x.

(** [Math.ceil(a / b)] for integers [a] and a positive integer [b]. *)
Definition ceil_div (a b : Z) : Z := - ((- a) / b).

(** ** Arrays: [Array.prototype.sort] *)

(** [arr.sort(cmp)] is stable; the element [x] stays in front of [y]
    unless the comparator's result [cmp x y] is positive.  [gt x y] is that
    test.  The model is the stable insertion sort. *)
Section Sort.
Context {A : Type} (gt : A -> A -> bool).

Fixpoint sort_insert (x : A) (l : list A) : list A :=
  match l with
  | [] => [x]
  | y :: r => if gt x y then y :: sort_insert x r else x :: l
  end.

Fixpoint sort (l : list A) : list A :=
  match l with
  | [] => []
  | x :: r => sort_insert x (sort r)
  end.
End Sort.

(** ** Insertion-ordered [Map] with string keys *)

Section OrderedMap.
Context {V : Type}.

Definition omap : Type := list (jsstring * V).

Fixpoint omap_get (m : omap) (k : jsstring) : option V :=
  match m with
  | [] => None
  | (k', v) :: r => if str_eqb k' k then Some v else omap_get r k
  end.

Definition omap_has (m : omap) (k : jsstring) : bool :=
  match omap_get m k with Some _ => true | None => false end.

Fixpoint omap_delete (m : omap) (k : jsstring) : omap :=
  match m with
  | [] => []
  | (k', v) :: r => if str_eqb k' k then r else (k', v) :: omap_delete r k
  end.

(** [m.set(k, v)]: an existing key keeps its position and takes the new
    value, a new key goes to the end. *)
Fixpoint omap_set (m : omap) (k : jsstring) (v : V) : omap :=
  match m with
  | [] => [(k, v)]
  | (k', v') :: r =>
      if str_eqb k' k then (k', v) :: r else (k', v') :: omap_set r k v
  end.

Definition omap_size (m : omap) : Z := Z.of_nat (length m).

(** [m.keys().next().value]: [None] stands for [undefined]. *)
Definition omap_first_key (m : omap) : option jsstring :=
  match m with
  | [] => None
  | (k, _) :: _ => Some k
  end.

Definition omap_keys (m : omap) : list jsstring := map fst m.
End OrderedMap.

Arguments omap : clear implicits.

End JS.

Import JS.

(* ================================================================== *)
(** * The LLM service: cache, scorer, window extractor, pipeline *)
(* ================================================================== *)

Module LlmService.

(** ** Data model *)

Record Document := {
  id : Z;
  filename : jsstring;
  filetype : jsstring;
  content : jsstring;
  (** [None] is [undefined]: only documents of the in-memory index and the
      copies made by [searchDocuments] carry a preview. *)
  contentPreview : option jsstring
}.

Record ScoredDocument := {
  doc : Document;
  relevanceScore : float;
  (** [None] is [undefined]: the scorer's early exit sets no positions. *)
  matchPositions : option (list Z)
}.

Record Source := {
  src_filename : jsstring;
  src_filetype : jsstring
}.

Record CacheEntry := {
  answer : jsstring;
  sources : list Source;
  documentsSelected : Z
}.

(** ** [class SearchCache] *)

Module SearchCache.

(** The constructor also sets a field [corpusVersion] to [null]; no method
    reads or writes it, and the record leaves it out. *)
Record t := {
  cache : omap CacheEntry;
  maxSize : Z
}.

Definition new (maxSize : Z) : t := {| cache := []; maxSize := maxSize |}.

Definition normalizeQuery (query : jsstring) : jsstring :=
  replace_ws_runs (trim (toLowerCase query)).

Definition getKey (query corpusVersion : jsstring) : jsstring :=
  normalizeQuery query ++ lit "::" ++ corpusVersion.

(** [get] returns the entry ([None] for [null]) and the cache after the
    call.  A stored entry is an object, hence truthy: the test
    [if (entry)] only separates a hit from [undefined]. *)
Definition get (query corpusVersion : jsstring) (c : t)
  : option CacheEntry * t :=
  let key := getKey query corpusVersion in
  match omap_get (cache c) key with
  | Some entry =>
      (Some entry,
       {| cache := omap_set (omap_delete (cache c) key) key entry;
          maxSize := maxSize c |})
  | None => (None, c)
  end.

Definition set (query corpusVersion : jsstring) (value : CacheEntry)
  (c : t) : t :=
  let key := getKey query corpusVersion in
  let m :=
    if (omap_size (cache c) >=? maxSize c) && negb (omap_has (cache c) key)
    then match omap_first_key (cache c) with
         | Some firstKey => omap_delete (cache c) firstKey
         | None => cache c
         end
    else cache c in
  {| cache := omap_set m key value; maxSize := maxSize c |}.

Definition clear (c : t) : t := {| cache := []; maxSize := maxSize c |}.

Definition getStats (c : t) : Z * Z := (omap_size (cache c), maxSize c).

Definition keys (c : t) : list jsstring := omap_keys (cache c).

End SearchCache.

(** The global instance [searchCache = new SearchCache(100)]. *)
Definition searchCache : SearchCache.t := SearchCache.new 100.

(** ** [scoreDocumentsByKeywords] *)

(** [s.split(/[\s\W_]+/)].  [cur] is the piece being read, reversed;
    [prev_sep] tells that the previous character was a separator. *)
Fixpoint split_aux (s : jsstring) (cur : jsstring) (prev_sep : bool)
  : list jsstring :=
  match s with
  | [] => [rev cur]
  | c :: r =>
      if is_separator c
      then (if prev_sep then split_aux r cur true
            else rev cur :: split_aux r [] true)
      else split_aux r (c :: cur) false
  end.

Definition split_separators (s : jsstring) : list jsstring :=
  split_aux s [] false.

Definition queryTokens (query : jsstring) : list jsstring :=
  List.filter (fun token => str_length token >? 2)
    (split_separators (toLowerCase query)).

(** [(s.match(new RegExp(token, 'g')) || []).length] for a token made of
    letters and digits, which the pattern reads as literal text: the
    matches are found left to right and do not overlap.  [skip] counts the
    characters of the last match that are still to be passed. *)
Fixpoint count_matches (token : jsstring) (skip : nat) (s : jsstring) : Z :=
  match s with
  | [] => 0
  | _ :: r =>
      match skip with
      | S k => count_matches token k r
      | O => if is_prefix token s
             then 1 + count_matches token (length token - 1) r
             else count_matches token 0 r
      end
  end.

Definition match_count (s token : jsstring) : Z :=
  match token with
  | [] => str_length s + 1
  | _ :: _ => count_matches token 0 s
  end.

(** [s.indexOf(token, from)], [-1] when there is no occurrence. *)
Fixpoint indexOf_aux (token s : jsstring) (i from : Z) : Z :=
  match s with
  | [] => if (from <=? i) && is_prefix token s then i else -1
  | _ :: r =>
      if (from <=? i) && is_prefix token s then i
      else indexOf_aux token r (i + 1) from
  end.

Definition indexOf (s token : jsstring) (from : Z) : Z :=
  indexOf_aux token s 0 (Z.min from (str_length s)).

(** The loop [while (pos !== -1) { push(pos); pos = indexOf(token, pos + 1) }].
    Every round moves [pos] forward, so [length s + 1] rounds are enough. *)
Fixpoint positions_loop (fuel : nat) (s token : jsstring) (pos : Z)
  (acc : list Z) : list Z :=
  match fuel with
  | O => acc
  | S f =>
      if pos =? -1 then acc
      else positions_loop f s token (indexOf s token (pos + 1)) (acc ++ [pos])
  end.

Definition push_positions (s token : jsstring) (acc : list Z) : list Z :=
  positions_loop (S (length s)) s token (indexOf s token 0) acc.

(** The body of [for (const token of queryTokens)]: the state is the pair
    of [score] and [matchPositions]. *)
Definition score_token (contentLower filenameLower : jsstring)
  (st : Z * list Z) (token : jsstring) : Z * list Z :=
  let '(score, positions) := st in
  let contentMatches := match_count contentLower token in
  let score := score + contentMatches * 2 in
  let filenameMatches := match_count filenameLower token in
  let score := score + filenameMatches * 5 in
  (score, push_positions contentLower token positions).

Definition normalize_score (score : Z) (d : Document) : float :=
  let len := str_length (content d) in
  fdiv (of_int score) (fsqrt (of_int (if len =? 0 then 1 else len))).

Definition score_document (tokens : list jsstring) (d : Document)
  : ScoredDocument :=
  let contentLower := toLowerCase (content d) in
  let filenameLower := toLowerCase (filename d) in
  let '(score, positions) :=
    fold_left (score_token contentLower filenameLower) tokens (0, []) in
  {| doc := d;
     relevanceScore := normalize_score score d;
     matchPositions := Some (sort (fun a b => a - b >? 0) positions) |}.

(** The comparator [(a, b) => b.relevanceScore - a.relevanceScore] and the
    test that its result is positive. *)
Definition compare_scores (a b : ScoredDocument) : float :=
  fsub (relevanceScore b) (relevanceScore a).

Definition score_gt (a b : ScoredDocument) : bool :=
  is_positive (compare_scores a b).

Definition scoreDocumentsByKeywords (query : jsstring)
  (documents : list Document) : list ScoredDocument :=
  let tokens := queryTokens query in
  if Z.of_nat (length tokens) =? 0
  then map (fun d => {| doc := d; relevanceScore := of_int 0;
                        matchPositions := None |}) documents
  else sort score_gt (map (score_document tokens) documents).

(** ** [extractBestWindow] *)

(** The inner loop [for (j = i + 1; j < n && positions[j] <= end; j++)]:
    [rest] holds [positions[i+1..]]. *)
Fixpoint matchesInWindow (rest : list Z) (end_ : Z) (count : Z) : Z :=
  match rest with
  | [] => count
  | p :: r => if p <=? end_ then matchesInWindow r end_ (count + 1) else count
  end.

(** The outer loop over [i]: [ps] holds [positions[i..]]. *)
Fixpoint bestStart_loop (ps : list Z) (windowSize : Z)
  (bestStart maxMatchesInWindow : Z) : Z :=
  match ps with
  | [] => bestStart
  | start :: rest =>
      let m := matchesInWindow rest (start + windowSize) 1 in
      if m >? maxMatchesInWindow
      then bestStart_loop rest windowSize start m
      else bestStart_loop rest windowSize bestStart maxMatchesInWindow
  end.

Definition ellipsis : jsstring := lit "...".

Definition extractBestWindow (d : ScoredDocument) (windowSize : Z)
  : jsstring :=
  let text := content (doc d) in
  match matchPositions d with
  | None | Some [] => substring text 0 windowSize
  | Some ((p0 :: _) as positions) =>
      let bestStart := bestStart_loop positions windowSize p0 1 in
      let padding := windowSize / 4 in
      let startPos := Z.max 0 (bestStart - padding) in
      let endPos := Z.min (str_length text) (startPos + windowSize) in
      let finalStart :=
        if endPos - startPos <? windowSize
        then Z.max 0 (endPos - windowSize) else startPos in
      let window := substring text finalStart endPos in
      let window := if finalStart >? 0 then ellipsis ++ window else window in
      if endPos <? str_length text then window ++ ellipsis else window
  end.

(** ** [formatDocumentsForContext] *)

Definition nl : jsstring := ["010"%char].
Definition dq : jsstring := [chr 34].

Record SelectedDoc := {
  sel_filename : jsstring;
  sel_filetype : jsstring;
  sel_relevanceScore : float
}.

Definition omitted_marker : jsstring :=
  nl ++ lit "[More documents available but omitted due to context limit]"
     ++ nl.

(** The loop [for (const doc of topDocs)] with its [break]. *)
Fixpoint pack_loop (topDocs : list ScoredDocument) (maxChars : Z)
  (context : jsstring) (charCount : Z) (selectedDocs : list SelectedDoc)
  : jsstring * list SelectedDoc :=
  match topDocs with
  | [] => (context, selectedDocs)
  | d :: rest =>
      let docHeader := lit "[" ++ filename (doc d) ++ lit "]" ++ nl in
      let docContent := extractBestWindow d 1000 in
      let docBlock := docHeader ++ docContent ++ nl ++ nl in
      if charCount + str_length docBlock >? maxChars
      then (context ++ omitted_marker, selectedDocs)
      else pack_loop rest maxChars (context ++ docBlock)
             (charCount + str_length docBlock)
             (selectedDocs ++
                [{| sel_filename := filename (doc d);
                    sel_filetype := filetype (doc d);
                    sel_relevanceScore := relevanceScore d |}])
  end.

Definition formatDocumentsForContext (documents : list Document)
  (query : jsstring) (maxDocs maxChars : Z) : jsstring * list SelectedDoc :=
  let scoredDocs := scoreDocumentsByKeywords query documents in
  let topDocs := slice0 scoredDocs maxDocs in
  let context := lit "=== DOCUMENTS ===" ++ nl ++ nl in
  pack_loop topDocs maxChars context (str_length context) [].

(** ** The backend and the monad of the pipeline *)

Record Request := {
  model : jsstring;
  system_message : jsstring;
  user_message : jsstring;
  temperature_tenths : Z;
  max_tokens : Z;
  json_object : bool;
  (** the call carries an abort signal armed for [GROQ_TIMEOUT_MS] *)
  abort_signal : bool
}.

Record JSError := {
  name : jsstring;
  message : jsstring
}.

(** What [groq.chat.completions.create] does: it resolves with a response
    whose [choices[0]?.message?.content] is a string or is missing, or it
    rejects; an expired abort signal rejects with the name [AbortError]. *)
Inductive Reply :=
| Resolved (content : option jsstring)
| Rejected (e : JSError).

Inductive Outcome (A : Type) :=
| Ok (a : A)
| Throw (e : JSError).
Arguments Ok {A} a.
Arguments Throw {A} e.

(** A computation reads and extends the log of the requests sent. *)
Definition M (A : Type) : Type := list Request -> Outcome A * list Request.

Definition ret {A} (a : A) : M A := fun log => (Ok a, log).

Definition throw {A} (e : JSError) : M A := fun log => (Throw e, log).

Definition bind {A B} (m : M A) (f : A -> M B) : M B :=
  fun log =>
    match m log with
    | (Ok a, log') => f a log'
    | (Throw e, log') => (Throw e, log')
    end.

Definition try_catch {A} (body : M A) (handler : JSError -> M A) : M A :=
  fun log =>
    match body log with
    | (Ok a, log') => (Ok a, log')
    | (Throw e, log') => handler e log'
    end.

Notation "'let*' x ':=' m 'in' k" := (bind m (fun x => k))
  (at level 10, x name, m at level 100, k at level 200).

Definition Error (msg : jsstring) : JSError :=
  {| name := lit "Error"; message := msg |}.

Definition TypeError (msg : jsstring) : JSError :=
  {| name := lit "TypeError"; message := msg |}.

(** ** JSON values *)

#[warnings="-register-all"]
Inductive JSValue :=
| JNull
| JBool (b : bool)
| JNum (x : float)
| JStr (s : jsstring)
| JArr (items : list JSValue)
| JObj (fields : list (jsstring * JSValue)).

Definition truthy (v : JSValue) : bool :=
  match v with
  | JNull => false
  | JBool b => b
  | JNum x => match x with S754_zero _ | S754_nan => false | _ => true end
  | JStr s => negb (str_length s =? 0)
  | JArr _ | JObj _ => true
  end.

Definition isArray (v : JSValue) : bool :=
  match v with JArr _ => true | _ => false end.

(** [v.key] for a parsed JSON value other than [null]: own properties of an
    object; [None] is [undefined]. *)
Definition get_property (v : JSValue) (key : jsstring) : option JSValue :=
  match v with
  | JObj fields => omap_get fields key
  | _ => None
  end.

(** [a || b]. *)
Definition or_else (a : option JSValue) (b : JSValue) : JSValue :=
  match a with
  | Some v => if truthy v then v else b
  | None => b
  end.

(** ** The pattern of the regular-expression fallback

    The pattern reads: a quote character (double or single), one or more
    characters that are not quotes, a dot, one of the extensions txt, pdf,
    csv, pptx, and a quote character; its flags are g and i. *)

Inductive regex :=
| RClass (p : ascii -> bool)
| RPlus (p : ascii -> bool)
| RSeq (r1 r2 : regex)
| RAlt (r1 r2 : regex).

(** Greedy [class+] with backtracking: the longest run first. *)
Fixpoint plus_match (p : ascii -> bool) (s : jsstring)
  (k : jsstring -> option jsstring) : option jsstring :=
  match s with
  | [] => None
  | c :: r =>
      if p c
      then match plus_match p r k with
           | Some rest => Some rest
           | None => k r
           end
      else None
  end.

(** [rmatch r s k]: match [r] at the head of [s], then [k] on what is
    left; the result is the text left after the whole match. *)
Fixpoint rmatch (r : regex) (s : jsstring)
  (k : jsstring -> option jsstring) : option jsstring :=
  match r with
  | RClass p =>
      match s with
      | c :: s' => if p c then k s' else None
      | [] => None
      end
  | RPlus p => plus_match p s k
  | RSeq r1 r2 => rmatch r1 s (fun s' => rmatch r2 s' k)
  | RAlt r1 r2 =>
      match rmatch r1 s k with
      | Some rest => Some rest
      | None => rmatch r2 s k
      end
  end.

(** [s.match(re)] with the flag [g] for a pattern that matches no empty
    text: all matches, left to right, each search resuming where the last
    match ended.  [skip] counts the characters of the last match still to
    be passed. *)
Fixpoint match_all (re : regex) (skip : nat) (s : jsstring)
  : list jsstring :=
  match s with
  | [] => []
  | _ :: r =>
      match skip with
      | S n => match_all re n r
      | O =>
          match rmatch re s Some with
          | Some rest =>
              let len := (length s - length rest)%nat in
              firstn len s :: match_all re (len - 1) r
          | None => match_all re 0 r
          end
      end
  end.

Definition is_quote (c : ascii) : bool :=
  (code c =? 34) || (code c =? 39).

(** One letter under the flag [i]. *)
Definition ci (c : ascii) : regex :=
  RClass (fun x => bool_decide (lower_char x = c)).

Definition ext_txt : regex := RSeq (ci "t") (RSeq (ci "x") (ci "t")).
Definition ext_pdf : regex := RSeq (ci "p") (RSeq (ci "d") (ci "f")).
Definition ext_csv : regex := RSeq (ci "c") (RSeq (ci "s") (ci "v")).
Definition ext_pptx : regex :=
  RSeq (ci "p") (RSeq (ci "p") (RSeq (ci "t") (ci "x"))).

Definition filename_pattern : regex :=
  RSeq (RClass is_quote)
    (RSeq (RPlus (fun c => negb (is_quote c)))
       (RSeq (RClass (fun c => bool_decide (c = "."%char)))
          (RSeq (RAlt ext_txt (RAlt ext_pdf (RAlt ext_csv ext_pptx)))
             (RClass is_quote)))).

(** The matches with every quote character removed ([m.replace] under
    [matches.map]); no match gives the empty array. *)
Definition extract_filenames (text : jsstring) : list jsstring :=
  map (List.filter (fun c => negb (is_quote c)))
    (match_all filename_pattern 0 text).

(** ** Prompts and models *)

Definition lines (ls : list jsstring) : jsstring :=
  match ls with
  | [] => []
  | l :: r => l ++ concat (map (fun x => nl ++ x) r)
  end.

Definition GROQ_TIMEOUT_MS : Z := 30000.

Definition SELECTOR_SYSTEM_PROMPT : jsstring :=
  lines [
    lit "You are a document relevance selector. Your task is to analyze a list of documents and select the most relevant ones for a given query.";
    [];
    lit "Instructions:";
    lit "1. Review the filename, filetype, and content preview for each document";
    lit "2. Select the top N most relevant documents that would help answer the query";
    lit "3. Return ONLY a JSON array of filenames, like: [" ++ dq
      ++ lit "file1.txt" ++ dq ++ lit ", " ++ dq ++ lit "file2.pdf" ++ dq
      ++ lit "]";
    lit "4. If no documents are relevant, return an empty array: []";
    lit "5. Be selective - only include documents that are clearly relevant to the query"
  ].

Definition ANSWER_SYSTEM_PROMPT : jsstring :=
  lines [
    lit "You are an AI document search assistant. Answer the user's query based ONLY on the provided documents.";
    [];
    lit "Rules:";
    lit "1. Answer ONLY using information from the provided documents";
    lit "2. If the answer is not found in the documents, say " ++ dq
      ++ lit "Not found in documents" ++ dq;
    lit "3. Add citations like ([filename]) next to each claim or fact";
    lit "4. Be concise and accurate";
    lit "5. Do not make up information or hallucinate"
  ].

Definition SELECTOR_MODEL : jsstring := lit "llama-3.1-8b-instant".
Definition ANSWER_MODEL : jsstring := lit "llama-3.3-70b-versatile".
Definition SMALL_MODEL : jsstring := lit "llama-3.1-8b-instant".

Definition of_Z (z : Z) : jsstring := lit (pretty z).

Definition NO_DOCUMENTS_ANSWER : jsstring :=
  lit "No documents have been ingested yet. Please add documents to the generated_documents folder.".

Definition NO_RELEVANT_ANSWER : jsstring :=
  lit "No relevant documents found for this query.".

Record Answer := {
  ans_answer : jsstring;
  ans_sources : list Source
}.

Definition source_of (d : Document) : Source :=
  {| src_filename := filename d; src_filetype := filetype d |}.

(** ** The two-stage pipeline *)

Section Pipeline.

(** [process.env.GROQ_API_KEY]; [None] is [undefined]. *)
Variable GROQ_API_KEY : option jsstring.

(** [groq.chat.completions.create]: the reply to a request, given the
    requests sent before it. *)
Variable groq_create : list Request -> Request -> Reply.

(** [JSON.parse]; [None] stands for the [SyntaxError] it throws. *)
Variable JSON_parse : jsstring -> option JSValue.

Definition api_key_missing : bool :=
  match GROQ_API_KEY with
  | None => true
  | Some k =>
      (str_length k =? 0) || str_eqb k (lit "your_groq_api_key_here")
  end.

Definition create (req : Request) : M (option jsstring) :=
  fun log =>
    match groq_create log req with
    | Resolved c => (Ok c, log ++ [req])
    | Rejected e => (Throw e, log ++ [req])
    end.

(** [content || dflt] for [response.choices[0]?.message?.content]. *)
Definition content_or (c : option jsstring) (dflt : jsstring) : jsstring :=
  match c with
  | Some t => if str_length t =? 0 then dflt else t
  | None => dflt
  end.

(** *** Stage A: [selectRelevantDocuments] *)

Definition preview_block (d : Document) : jsstring :=
  let preview :=
    match contentPreview d with
    | Some p => if str_length p =? 0 then substring (content d) 0 300
                else p
    | None => substring (content d) 0 300
    end in
  lit "File: " ++ filename d ++ nl
  ++ lit "Type: " ++ filetype d ++ nl
  ++ lit "Preview: " ++ preview
  ++ (if str_length (content d) >? 300 then lit "..." else []) ++ nl ++ nl.

Definition previewContext (documents : list Document) : jsstring :=
  fold_left (fun acc d => acc ++ preview_block d) documents
    (lit "=== AVAILABLE DOCUMENTS ===" ++ nl ++ nl).

Definition selector_message (query : jsstring) (documents : list Document)
  (topN : Z) : jsstring :=
  lines [
    previewContext documents;
    lit "Query: " ++ dq ++ query ++ dq;
    [];
    lit "Select the top " ++ of_Z topN
      ++ lit " most relevant documents for this query.";
    lit "Return ONLY a JSON array of filenames, e.g.: [" ++ dq
      ++ lit "doc1.txt" ++ dq ++ lit ", " ++ dq ++ lit "doc2.pdf" ++ dq
      ++ lit "]";
    lit "If no documents are relevant, return: []"
  ].

Definition selector_request (query : jsstring) (documents : list Document)
  (topN : Z) : Request :=
  {| model := SELECTOR_MODEL;
     system_message := SELECTOR_SYSTEM_PROMPT;
     user_message := selector_message query documents topN;
     temperature_tenths := 1;
     max_tokens := 256;
     json_object := true;
     abort_signal := true |}.

(** The inner [try { JSON.parse ... } catch { regular expression }].  The
    property reads on [null] throw a [TypeError], which the same [catch]
    receives. *)
Definition parse_selection (text : jsstring) : JSValue :=
  let by_pattern := JArr (map JStr (extract_filenames text)) in
  match JSON_parse text with
  | None => by_pattern
  | Some parsed =>
      if isArray parsed then parsed
      else match parsed with
           | JNull => by_pattern
           | _ => or_else (get_property parsed (lit "files"))
                    (or_else (get_property parsed (lit "documents"))
                       (JArr []))
           end
  end.

(** [items.filter(f => validFiles.includes(f))]: [includes] compares with
    SameValueZero, so only a string equal to a file name passes. *)
Fixpoint filter_valid (items : list JSValue) (validFiles : list jsstring)
  : list jsstring :=
  match items with
  | [] => []
  | JStr f :: r =>
      if arr_includes validFiles f then f :: filter_valid r validFiles
      else filter_valid r validFiles
  | _ :: r => filter_valid r validFiles
  end.

(** The [catch] of Stage A. *)
Definition keyword_fallback (query : jsstring) (documents : list Document)
  (topN : Z) : list jsstring :=
  let scored := scoreDocumentsByKeywords query documents in
  map (fun d => filename (doc d)) (slice0 scored topN).

Definition selectRelevantDocuments (query : jsstring)
  (documents : list Document) (topN : Z) : M (list jsstring) :=
  if api_key_missing then throw (Error (lit "GROQ_API_KEY not configured"))
  else if Z.of_nat (length documents) =? 0 then ret []
  else
    try_catch
      (let* response := create (selector_request query documents topN) in
       let text := content_or response (lit "[]") in
       let selectedFiles := parse_selection text in
       let validFiles := map filename documents in
       match selectedFiles with
       | JArr items => ret (slice0 (filter_valid items validFiles) topN)
       | _ => throw (TypeError (lit "selectedFiles.filter is not a function"))
       end)
      (fun error => ret (keyword_fallback query documents topN)).

(** *** Stage B: [generateAnswer] and [generateAnswerSmall] *)

Definition answer_message (context query : jsstring) : jsstring :=
  lines [
    context;
    [];
    lit "Query: " ++ query;
    [];
    lit "Provide a comprehensive answer based on the documents above.";
    lit "Remember to:";
    lit "1. Only use information from the provided documents";
    lit "2. Say " ++ dq ++ lit "Not found in documents" ++ dq
      ++ lit " if the answer isn't available";
    lit "3. Add citations like ([filename]) next to claims"
  ].

Definition small_request (query : jsstring) (selectedDocs : list Document)
  : Request :=
  let context := fst (formatDocumentsForContext selectedDocs query 3 5000) in
  {| model := SMALL_MODEL;
     system_message := ANSWER_SYSTEM_PROMPT;
     user_message := context ++ nl ++ nl ++ lit "Query: " ++ query;
     temperature_tenths := 3;
     max_tokens := 512;
     json_object := false;
     abort_signal := false |}.

Definition generateAnswerSmall (query : jsstring)
  (selectedDocs : list Document) : M Answer :=
  let* response := create (small_request query selectedDocs) in
  let answer := content_or response [] in
  let sources := map source_of (slice0 selectedDocs 3) in
  ret {| ans_answer := answer; ans_sources := sources |}.

Definition answer_request (query : jsstring) (selectedDocs : list Document)
  : Request :=
  let context :=
    fst (formatDocumentsForContext selectedDocs query
           (Z.of_nat (length selectedDocs)) 12000) in
  {| model := ANSWER_MODEL;
     system_message := ANSWER_SYSTEM_PROMPT;
     user_message := answer_message context query;
     temperature_tenths := 3;
     max_tokens := 1024;
     json_object := false;
     abort_signal := true |}.

Definition generateAnswer (query : jsstring) (selectedDocs : list Document)
  : M Answer :=
  if api_key_missing
  then throw (Error (lit "GROQ_API_KEY not configured. Get your free key at console.groq.com"))
  else if Z.of_nat (length selectedDocs) =? 0
  then ret {| ans_answer := NO_RELEVANT_ANSWER; ans_sources := [] |}
  else
    try_catch
      (let* response := create (answer_request query selectedDocs) in
       let answer := content_or response [] in
       let sources := map source_of selectedDocs in
       ret {| ans_answer := answer; ans_sources := sources |})
      (fun error =>
         if str_eqb (name error) (lit "AbortError")
         then throw (Error (lit "Request timeout - the LLM took too long to respond"))
         else if includes (message error) (lit "rate_limit")
                 || includes (message error) (lit "413")
         then generateAnswerSmall query selectedDocs
         else throw (Error (lit "Failed to get response from AI: "
                              ++ message error))).

(** *** Pipeline entry: [searchDocuments] *)

Definition with_preview (d : Document) : Document :=
  {| id := id d; filename := filename d; filetype := filetype d;
     content := content d;
     contentPreview := Some (substring (content d) 0 350) |}.

Definition searchDocuments (query : jsstring) (documents : list Document)
  : M CacheEntry :=
  if api_key_missing
  then throw (Error (lit "GROQ_API_KEY not configured. Get your free key at console.groq.com"))
  else if Z.of_nat (length documents) =? 0
  then ret {| answer := NO_DOCUMENTS_ANSWER; sources := [];
              documentsSelected := 0 |}
  else
    let docsWithPreviews := map with_preview documents in
    let* selectedFilenames :=
      selectRelevantDocuments query docsWithPreviews 5 in
    let selectedDocs :=
      List.filter (fun d => arr_includes selectedFilenames (filename d))
        documents in
    let* r := generateAnswer query selectedDocs in
    ret {| answer := ans_answer r; sources := ans_sources r;
           documentsSelected := Z.of_nat (length selectedDocs) |}.

End Pipeline.

End LlmService.

(* ================================================================== *)
(** * The search routes: admission control and the search endpoint *)
(* ================================================================== *)

Module SearchRoutes.

Import LlmService.

Definition MAX_QUERY_LENGTH : Z := 2000.
Definition RATE_LIMIT_WINDOW_MS : Z := 60000.
Definition RATE_LIMIT_MAX_REQUESTS : Z := 10.

(** ** [checkRateLimit] *)

Record RateEntry := {
  requests : list Z;
  blocked : bool;
  blockedUntil : Z
}.

Inductive RateDecision :=
| Allowed (remaining : Z)
| Denied (retryAfter : Z) (reason : jsstring).

Definition allowed (r : RateDecision) : bool :=
  match r with Allowed _ => true | Denied _ _ => false end.

Definition new_entry : RateEntry :=
  {| requests := []; blocked := false; blockedUntil := 0 |}.

(** [now] is the value of [Date.now()].  The entry is a mutable object held
    by the store; every exit writes the entry as it then is. *)
Definition checkRateLimit (now : Z) (ip : jsstring)
  (rateLimitStore : gmap jsstring RateEntry)
  : RateDecision * gmap jsstring RateEntry :=
  let windowStart := now - RATE_LIMIT_WINDOW_MS in
  let entry :=
    match rateLimitStore !! ip with
    | Some e => e
    | None => new_entry
    end in
  if blocked entry && (now <? blockedUntil entry)
  then
    let retryAfter := ceil_div (blockedUntil entry - now) 1000 in
    (Denied retryAfter (lit "blocked"), <[ip := entry]> rateLimitStore)
  else
    let entry :=
      if blocked entry && (now >=? blockedUntil entry)
      then {| requests := []; blocked := false;
              blockedUntil := blockedUntil entry |}
      else entry in
    let entry :=
      {| requests := List.filter (fun time => time >? windowStart)
                       (requests entry);
         blocked := blocked entry;
         blockedUntil := blockedUntil entry |} in
    if Z.of_nat (length (requests entry)) >=? RATE_LIMIT_MAX_REQUESTS
    then
      (Denied (RATE_LIMIT_WINDOW_MS / 1000) (lit "rate_limit"),
       <[ip := {| requests := requests entry; blocked := true;
                  blockedUntil := now + RATE_LIMIT_WINDOW_MS |}]>
         rateLimitStore)
    else
      let entry :=
        {| requests := requests entry ++ [now];
           blocked := blocked entry;
           blockedUntil := blockedUntil entry |} in
      (Allowed (RATE_LIMIT_MAX_REQUESTS - Z.of_nat (length (requests entry))),
       <[ip := entry]> rateLimitStore).

(** A client's successive requests, at the times [times]. *)
Fixpoint check_all (times : list Z) (ip : jsstring)
  (store : gmap jsstring RateEntry)
  : list RateDecision * gmap jsstring RateEntry :=
  match times with
  | [] => ([], store)
  | now :: rest =>
      let '(r, store') := checkRateLimit now ip store in
      let '(rs, store'') := check_all rest ip store' in
      (r :: rs, store'')
  end.

(** ** [router.post('/search')] *)

Record Metadata := {
  documentsSearched : Z;
  meta_documentsSelected : Z;
  processingTimeMs : Z;
  cached : bool
}.

Inductive Body :=
| ErrorBody (error message : jsstring) (retryAfter : option Z)
| SearchBody (query response : jsstring) (sources : list Source)
    (metadata : Metadata).

Record HttpResponse := {
  status : Z;
  body : Body
}.

Definition NO_DOCUMENTS_RESPONSE : jsstring :=
  lit "No documents found. Please add documents to the `generated_documents` folder and try again.".

(** The module state the handler reads and writes, with the log of the
    requests sent to the backend. *)
Record State := {
  rateLimitStore : gmap jsstring RateEntry;
  cache : SearchCache.t;
  corpusVersion : option jsstring;
  backend_log : list Request
}.

(** The readings of [Date.now()]: on entry, inside [checkRateLimit], and
    when the response is built. *)
Record Clock := {
  startTime : Z;
  rateLimitNow : Z;
  endTime : Z
}.

(** [!query || typeof query !== 'string' || query.trim().length === 0]. *)
Definition valid_query (query : option JSValue) : option jsstring :=
  match query with
  | Some (JStr s) =>
      if (str_length s =? 0) || (str_length (trim s) =? 0) then None
      else Some s
  | _ => None
  end.

Section Route.

Variable GROQ_API_KEY : option jsstring.
Variable groq_create : list Request -> Request -> Reply.
Variable JSON_parse : jsstring -> option JSValue.

(** What [getDocumentsWithFallback()] yields: the documents and the
    module variable [corpusVersion] as the call leaves it. *)
Variable getDocumentsWithFallback :
  option jsstring -> list Document * option jsstring.

(** What [generateCorpusVersion()] yields. *)
Variable generateCorpusVersion : jsstring.

Definition search_error (error : JSError) : HttpResponse :=
  if includes (message error) (lit "timeout")
  then {| status := 504;
          body := ErrorBody (lit "Request timeout")
                    (lit "The search took too long to complete. Please try again.")
                    None |}
  else if includes (message error) (lit "GROQ_API_KEY")
  then {| status := 503;
          body := ErrorBody (lit "Service unavailable") (message error)
                    None |}
  else {| status := 500;
          body := ErrorBody (lit "Search failed") (message error) None |}.

Definition post_search (clock : Clock) (clientIp : jsstring)
  (query : option JSValue) (st : State) : HttpResponse * State :=
  let '(rateLimit, store) :=
    checkRateLimit (rateLimitNow clock) clientIp (rateLimitStore st) in
  let st := {| rateLimitStore := store; cache := cache st;
               corpusVersion := corpusVersion st;
               backend_log := backend_log st |} in
  match rateLimit with
  | Denied retryAfter _ =>
      ({| status := 429;
          body := ErrorBody (lit "Rate limit exceeded")
                    (lit "Too many requests. Please try again in "
                       ++ of_Z retryAfter ++ lit " seconds.")
                    (Some retryAfter) |}, st)
  | Allowed _ =>
      match valid_query query with
      | None =>
          ({| status := 400;
              body := ErrorBody (lit "Invalid query")
                        (lit "Please provide a non-empty query string")
                        None |}, st)
      | Some query =>
          if str_length query >? MAX_QUERY_LENGTH
          then ({| status := 400;
                   body := ErrorBody (lit "Query too long")
                             (lit "Query must be less than "
                                ++ of_Z MAX_QUERY_LENGTH
                                ++ lit " characters")
                             None |}, st)
          else
            let trimmedQuery := trim query in
            let '(documents, version) :=
              getDocumentsWithFallback (corpusVersion st) in
            let st := {| rateLimitStore := store; cache := cache st;
                         corpusVersion := version;
                         backend_log := backend_log st |} in
            if Z.of_nat (length documents) =? 0
            then
              ({| status := 200;
                  body := SearchBody trimmedQuery NO_DOCUMENTS_RESPONSE []
                            {| documentsSearched := 0;
                               meta_documentsSelected := 0;
                               processingTimeMs :=
                                 endTime clock - startTime clock;
                               cached := false |} |}, st)
            else
              let currentCorpusVersion :=
                match version with
                | Some v => if str_length v =? 0
                            then generateCorpusVersion else v
                | None => generateCorpusVersion
                end in
              match SearchCache.get trimmedQuery currentCorpusVersion
                      (cache st) with
              | (Some cachedResult, cache') =>
                  ({| status := 200;
                      body := SearchBody trimmedQuery
                                (answer cachedResult)
                                (sources cachedResult)
                                {| documentsSearched :=
                                     Z.of_nat (length documents);
                                   meta_documentsSelected :=
                                     documentsSelected cachedResult;
                                   processingTimeMs :=
                                     endTime clock - startTime clock;
                                   cached := true |} |},
                   {| rateLimitStore := store; cache := cache';
                      corpusVersion := version;
                      backend_log := backend_log st |})
              | (None, cache') =>
                  match searchDocuments GROQ_API_KEY groq_create
                          JSON_parse trimmedQuery documents
                          (backend_log st) with
                  | (Throw error, log') =>
                      (search_error error,
                       {| rateLimitStore := store; cache := cache';
                          corpusVersion := version;
                          backend_log := log' |})
                  | (Ok result, log') =>
                      ({| status := 200;
                          body := SearchBody trimmedQuery (answer result)
                                    (sources result)
                                    {| documentsSearched :=
                                         Z.of_nat (length documents);
                                       meta_documentsSelected :=
                                         documentsSelected result;
                                       processingTimeMs :=
                                         endTime clock - startTime clock;
                                       cached := false |} |},
                       {| rateLimitStore := store;
                          cache := SearchCache.set trimmedQuery
                                     currentCorpusVersion result cache';
                          corpusVersion := version;
                          backend_log := log' |})
                  end
              end
      end
  end.

End Route.

End SearchRoutes.

(* ================================================================== *)
(** * Vocabulary of the specification *)
(* ================================================================== *)

Module Spec.

Import LlmService.

(** ** Cache histories *)

(** The cache key of a (query, corpus version) pair. *)
Definition key_of (x : jsstring * jsstring) : jsstring :=
  SearchCache.getKey (fst x) (snd x).

Definition entry_key (x : jsstring * jsstring * CacheEntry) : jsstring :=
  key_of (fst x).

(** Filling the cache: one [set] per entry, in order. *)
Definition fill (es : list (jsstring * jsstring * CacheEntry))
  (c : SearchCache.t) : SearchCache.t :=
  fold_left (fun c x => SearchCache.set (fst (fst x)) (snd (fst x)) (snd x) c)
    es c.

(** A series of [get] calls, in order. *)
Definition touch_all (gs : list (jsstring * jsstring)) (c : SearchCache.t)
  : SearchCache.t :=
  fold_left (fun c x => snd (SearchCache.get (fst x) (snd x) c)) gs c.

(** The time (counted from 1) of the last touch of [k] in a history of
    touched keys; 0 when [k] was never touched. *)
Fixpoint last_touch (k : jsstring) (history : list jsstring) : nat :=
  match history with
  | [] => 0
  | x :: r =>
      match last_touch k r with
      | O => if str_eqb x k then 1 else 0
      | S n => S (S n)
      end
  end.

(** [a] was last touched before [b]. *)
Definition older (history : list jsstring) (a b : jsstring) : Prop :=
  (last_touch a history < last_touch b history)%nat.

(** The state of a full cache of capacity [N] whose keys are those of
    [ks0], after the touches of [history]: the entries stand in the order
    of their last touch. *)
Definition lru_inv (N : nat) (ks0 history : list jsstring)
  (c : SearchCache.t) : Prop :=
  SearchCache.maxSize c = Z.of_nat N
  ∧ length (SearchCache.cache c) = N
  ∧ NoDup (SearchCache.keys c)
  ∧ (∀ k, k ∈ SearchCache.keys c ↔ k ∈ ks0)
  ∧ StronglySorted (older history) (SearchCache.keys c).

(** ** Tokens *)

(** A lower-case letter or a digit: a character that a regular expression
    reads as itself. *)
Definition is_lower_alnum (c : ascii) : bool :=
  let n := code c in
  ((48 <=? n) && (n <=? 57)) || ((97 <=? n) && (n <=? 122)).

(** The offsets, counted from [i], at which [token] occurs in [s],
    overlaps included. *)
Fixpoint occurrences (token s : jsstring) (i : Z) : list Z :=
  match s with
  | [] => []
  | _ :: r =>
      (if is_prefix token s then [i] else []) ++ occurrences token r (i + 1)
  end.

(** The first element of a list of offsets, [-1] for the empty list. *)
Definition first_or_none (l : list Z) : Z :=
  match l with
  | [] => -1
  | p :: _ => p
  end.

(** ** Sorted output *)

(** [x] may stand in front of [y] in the output of [sort]: the comparator
    does not ask for the exchange ([gt x y] is the test that the
    comparator's result on [x], [y] is positive). *)
Definition in_order {A} (gt : A -> A -> bool) (x y : A) : Prop :=
  gt x y = false.

(** ** The reference score *)















(** ** Match density *)

(** The number of recorded offsets in the forward window of the offset
    [p]: the offsets from [p] up to [p + windowSize], an offset exactly
    [windowSize] ahead included. *)
Definition density (positions : list Z) (windowSize : Z) (p : Z) : Z :=
  Z.of_nat
    (length
       (List.filter (fun q => (p <=? q) && (q <=? p + windowSize))
          positions)).

(** ** Admission histories *)

(** The decisions on [n] admitted requests of a client that has [used]
    requests in its window. *)
Fixpoint admitted (used : Z) (n : nat) : list SearchRoutes.RateDecision :=
  match n with
  | O => []
  | S n' =>
      SearchRoutes.Allowed (SearchRoutes.RATE_LIMIT_MAX_REQUESTS - (used + 1))
        :: admitted (used + 1) n'
  end.

(** The entry the store holds for a client; a client never seen has the
    entry [checkRateLimit] would create. *)
Definition entry_of (store : gmap jsstring SearchRoutes.RateEntry)
  (ip : jsstring) : SearchRoutes.RateEntry :=
  match store !! ip with
  | Some e => e
  | None => SearchRoutes.new_entry
  end.

End Spec.

(** ** Sample data for the worked examples *)

Module Samples.

Import LlmService.

Definition entry1 : CacheEntry :=
  {| answer := lit "The budget is 42."; sources := [];
     documentsSelected := 1 |}.

Definition entry2 : CacheEntry :=
  {| answer := lit "See report.pdf."; sources := [];
     documentsSelected := 2 |}.

Definition version1 : jsstring := lit "3-1700000000000".

(** Two stored answers, then a read of the first. *)
Definition stored : list (jsstring * jsstring * CacheEntry) :=
  [ (lit "what is the budget", version1, entry1);
    (lit "where is the report", version1, entry2) ].

Definition reads : list (jsstring * jsstring) :=
  [ (lit "What is the  budget", version1) ].

(** A document of 2000 characters with matches at 50, 60 and 1800. *)
Definition long_document : ScoredDocument :=
  {| doc := {| id := 1; filename := lit "notes.txt"; filetype := lit "txt";
               content := repeat "x"%char 2000; contentPreview := None |};
     relevanceScore := of_int 0;
     matchPositions := Some [50; 60; 1800] |}.


(** Two documents that match the query invoice, by name and by body. *)
Definition invoice_by_name : Document :=
  {| id := 1; filename := lit "invoice.txt"; filetype := lit "txt";
     content := lit "nothing here"; contentPreview := None |}.

Definition invoice_by_body : Document :=
  {| id := 2; filename := lit "b.txt"; filetype := lit "txt";
     content := lit "invoice and invoice"; contentPreview := None |}.




(** Offsets whose dense cluster comes last. *)
Definition late_cluster : ScoredDocument :=
  {| doc := {| id := 1; filename := lit "notes.txt"; filetype := lit "txt";
               content := repeat "x"%char 2000; contentPreview := None |};
     relevanceScore := of_int 0;
     matchPositions := Some [10; 1800; 1810; 1820] |}.

(** A configured key, a reply that names one real and one invented file,
    and a parser that reads this reply. *)
Definition api_key : option jsstring := Some (lit "gsk_live_key").

Definition selection_reply : jsstring :=
  lit "[" ++ dq ++ lit "invoice.txt" ++ dq ++ lit ", " ++ dq
    ++ lit "ghost.pdf" ++ dq ++ lit "]".

Definition parse_reply (text : jsstring) : option JSValue :=
  if str_eqb text selection_reply
  then Some (JArr [JStr (lit "invoice.txt"); JStr (lit "ghost.pdf")])
  else None.

Definition selecting_backend (log : list Request) (req : Request) : Reply :=
  Resolved (Some selection_reply).

(** A backend that is down. *)
Definition failing_backend (log : list Request) (req : Request) : Reply :=
  Rejected {| name := lit "AbortError";
              message := lit "The operation was aborted" |}.

(** Four selected documents; only the fourth matches the query invoice.
    The backend rejects the first call with a rate-limit error and answers
    the second. *)
Definition plain_doc (n : Z) (file text : string) : Document :=
  {| id := n; filename := lit file; filetype := lit "txt";
     content := lit text; contentPreview := None |}.

Definition four_selected : list Document :=
  [ plain_doc 1 "a.txt" "alpha notes";
    plain_doc 2 "b.txt" "beta notes";
    plain_doc 3 "c.txt" "gamma notes";
    plain_doc 4 "d.txt" "invoice 17 and invoice 18" ].

Definition rate_limited_backend (log : list Request) (req : Request)
  : Reply :=
  match log with
  | [] => Rejected {| name := lit "Error";
                      message := lit "429 rate_limit_exceeded" |}
  | _ :: _ => Resolved (Some (lit "Invoices 17 and 18 (d.txt)."))
  end.

(** The route: an empty corpus. *)
Definition no_documents (version : option jsstring)
  : list Document * option jsstring := ([], Some (lit "empty")).

Definition initial_state : SearchRoutes.State :=
  {| SearchRoutes.rateLimitStore := ∅;
     SearchRoutes.cache := searchCache;
     SearchRoutes.corpusVersion := None;
     SearchRoutes.backend_log := [] |}.

Definition clock : SearchRoutes.Clock :=
  {| SearchRoutes.startTime := 1000; SearchRoutes.rateLimitNow := 1001;
     SearchRoutes.endTime := 1004 |}.

(** Ten requests of one client, one second apart. *)
Definition client : jsstring := lit "203.0.113.7".

Definition ten_requests : list Z :=
  [0; 1000; 2000; 3000; 4000; 5000; 6000; 7000; 8000; 9000].

End Samples.

(* ================================================================== *)
(** * Further vocabulary: runs of operations *)
(* ================================================================== *)

Module Runs.

Import LlmService.

(** ** Runs of the cache *)

Inductive CacheOp :=
| OpGet (query corpusVersion : jsstring)
| OpSet (query corpusVersion : jsstring) (value : CacheEntry)
| OpClear.

Definition apply_op (c : SearchCache.t) (op : CacheOp) : SearchCache.t :=
  match op with
  | OpGet q v => snd (SearchCache.get q v c)
  | OpSet q v e => SearchCache.set q v e c
  | OpClear => SearchCache.clear c
  end.

Definition run_ops (ops : list CacheOp) (c : SearchCache.t) : SearchCache.t :=
  fold_left apply_op ops c.

(** ** Runs of the admission controller *)

(** The store after the requests [events], each a time and a client. *)
Definition check_run (events : list (Z * jsstring))
  (store : gmap jsstring SearchRoutes.RateEntry)
  : gmap jsstring SearchRoutes.RateEntry :=
  fold_left (fun s ev => snd (SearchRoutes.checkRateLimit (fst ev) (snd ev) s))
    events store.

(** Every client of the store holds at most the maximum of time stamps. *)
Definition store_bounded (store : gmap jsstring SearchRoutes.RateEntry)
  : Prop :=
  ∀ ip e, store !! ip = Some e →
    Z.of_nat (length (SearchRoutes.requests e))
    ≤ SearchRoutes.RATE_LIMIT_MAX_REQUESTS.

(** [b] comes at least [gap] milliseconds after [a]. *)
Definition spaced (gap : Z) (a b : Z) : Prop := a + gap ≤ b.

(** ** The packed context *)

(** The block [formatDocumentsForContext] writes for one document and the
    record it keeps of it. *)
Definition doc_block (d : ScoredDocument) : jsstring :=
  (lit "[" ++ filename (doc d) ++ lit "]" ++ nl)
  ++ extractBestWindow d 1000 ++ nl ++ nl.

Definition doc_meta (d : ScoredDocument) : SelectedDoc :=
  {| sel_filename := filename (doc d);
     sel_filetype := filetype (doc d);
     sel_relevanceScore := relevanceScore d |}.

Definition context_header : jsstring := lit "=== DOCUMENTS ===" ++ nl ++ nl.

(** ** The search route *)

(** The corpus version the route uses for the cache: the module variable
    when it is set, a freshly generated version otherwise. *)
Definition current_version (version : option jsstring)
  (generated : jsstring) : jsstring :=
  match version with
  | Some v => if str_length v =? 0 then generated else v
  | None => generated
  end.

(** The body of a successful search response. *)
Definition search_body (query : jsstring) (result : CacheEntry)
  (searched : Z) (clock : SearchRoutes.Clock) (cached : bool)
  : SearchRoutes.Body :=
  SearchRoutes.SearchBody query (answer result) (sources result)
    {| SearchRoutes.documentsSearched := searched;
       SearchRoutes.meta_documentsSelected := documentsSelected result;
       SearchRoutes.processingTimeMs :=
         SearchRoutes.endTime clock - SearchRoutes.startTime clock;
       SearchRoutes.cached := cached |}.

(** ** The pattern of the fallback, read as a set of texts *)

Fixpoint matches (r : regex) (m : jsstring) : Prop :=
  match r with
  | RClass p => ∃ c, m = [c] ∧ p c = true
  | RPlus p => m ≠ [] ∧ Forall (fun c => p c = true) m
  | RSeq r1 r2 => ∃ m1 m2, m = m1 ++ m2 ∧ matches r1 m1 ∧ matches r2 m2
  | RAlt r1 r2 => matches r1 m ∨ matches r2 m
  end.

(** A name with a supported extension in any letter case, a text in front
    of the dot, and no quote character. *)
Definition supported_name (name : jsstring) : Prop :=
  ∃ body ext,
    name = body ++ lit "." ++ ext
    ∧ body ≠ []
    ∧ toLowerCase ext ∈ [lit "txt"; lit "pdf"; lit "csv"; lit "pptx"]
    ∧ Forall (fun c => is_quote c = false) name.

(** The block of Stage A for a document of the pipeline. *)
Definition pipeline_preview (d : Document) : jsstring :=
  lit "File: " ++ filename d ++ nl
  ++ lit "Type: " ++ filetype d ++ nl
  ++ lit "Preview: " ++ substring (content d) 0 350
  ++ (if str_length (content d) >? 300 then lit "..." else []) ++ nl ++ nl.

(** The search endpoint serving one client's successive requests. *)
Fixpoint post_all (key : option jsstring)
  (groq : list Request → Request → Reply)
  (JSON_parse : jsstring → option JSValue)
  (getDocuments : option jsstring → list Document * option jsstring)
  (generated : jsstring) (clientIp : jsstring)
  (reqs : list (SearchRoutes.Clock * option JSValue))
  (st : SearchRoutes.State)
  : list SearchRoutes.HttpResponse * SearchRoutes.State :=
  match reqs with
  | [] => ([], st)
  | r :: rest =>
      let '(resp, st') :=
        SearchRoutes.post_search key groq JSON_parse getDocuments generated
          (fst r) clientIp (snd r) st in
      let '(resps, st'') :=
        post_all key groq JSON_parse getDocuments generated clientIp rest
          st' in
      (resp :: resps, st'')
  end.

(** A request body the endpoint turns down before it looks at the
    documents: no usable query, or one longer than the maximum. *)
Definition turned_down (body_query : option JSValue) : bool :=
  match SearchRoutes.valid_query body_query with
  | None => true
  | Some q => str_length q >? SearchRoutes.MAX_QUERY_LENGTH
  end.

End Runs.


(* ================================================================== *)
(** * The extractors *)
(* ================================================================== *)

Module Extractors.

Import LlmService.

(** [arr.join(sep)] on an array of strings. *)
Fixpoint join (sep : jsstring) (parts : list jsstring) : jsstring :=
  match parts with
  | [] => []
  | p :: rest =>
      match rest with
      | [] => p
      | _ :: _ => p ++ sep ++ join sep rest
      end
  end.

(** ** [extractCsv]: the text built when the stream has ended *)

(** A row is the list of its entries, as [Object.entries] yields them. *)
Definition Row : Type := list (jsstring * jsstring).

Definition row_parts (row : Row) : jsstring :=
  join (lit ", ") (map (fun kv => fst kv ++ lit ": " ++ snd kv) row).

(** The lines that [rows.forEach] appends, [index] counting from 0. *)
Fixpoint rows_text (index : Z) (rows : list Row) : jsstring :=
  match rows with
  | [] => []
  | row :: rest =>
      (lit "Row " ++ of_Z (index + 1) ++ lit ": " ++ row_parts row ++ nl)
      ++ rows_text (index + 1) rest
  end.

Definition csv_text (headers : list jsstring) (rows : list Row) : jsstring :=
  let textContent :=
    if Z.of_nat (length headers) >? 0
    then lit "Columns: " ++ join (lit ", ") headers ++ nl ++ nl
    else [] in
  let textContent :=
    textContent ++ lit "Data (" ++ of_Z (Z.of_nat (length rows))
    ++ lit " rows):" ++ nl in
  let textContent := textContent ++ rows_text 0 rows in
  trim textContent.

(** ** The table of extractors *)

Inductive Extractor :=
| extractText
| extractPdf
| extractCsv
| extractPptx.

(** The own properties of [EXTRACTORS].  The keys looked up are lowered
    results of [path.extname], which are empty or begin with a dot, so no
    property of the prototype is ever named. *)
Definition EXTRACTORS (ext : jsstring) : option Extractor :=
  if str_eqb ext (lit ".txt") then Some extractText
  else if str_eqb ext (lit ".pdf") then Some extractPdf
  else if str_eqb ext (lit ".csv") then Some extractCsv
  else if str_eqb ext (lit ".pptx") then Some extractPptx
  else None.

(** What becomes of [fs.createReadStream(path).pipe(csv())]: the parser
    ends after the header row and the rows; or the parser emits an error;
    or the file stream emits one.  [extractCsv] listens to the parser
    only. *)
Inductive CsvRun :=
| CsvEnd (headers : list jsstring) (rows : list Row)
| CsvParserError (error : JSError)
| CsvReadError (error : JSError).

(** What the libraries read from a path: the text of a file, the text of
    a PDF, the text of a presentation, and the run of a CSV stream.  The
    first three may fail. *)
Record Files := {
  readFile : jsstring → Outcome jsstring;
  pdfParse : jsstring → Outcome jsstring;
  parseOffice : jsstring → Outcome jsstring;
  csvStream : jsstring → CsvRun
}.

(** How an awaited call ends: its promise is fulfilled, or it is rejected,
    or it stays pending for ever because an error was emitted that no
    handler receives; that error is an uncaught exception, and nothing in
    the server handles one: the process ends. *)
Inductive Ending (A : Type) :=
| Fulfilled (a : A)
| RejectedWith (error : JSError)
| Uncaught (error : JSError).
Arguments Fulfilled {A} a.
Arguments RejectedWith {A} error.
Arguments Uncaught {A} error.

Definition run_extractor (files : Files) (extractor : Extractor)
  (filePath : jsstring) : Ending jsstring :=
  match extractor with
  | extractText =>
      match readFile files filePath with
      | Ok content => Fulfilled (trim content)
      | Throw error => RejectedWith error
      end
  | extractPdf =>
      match pdfParse files filePath with
      | Ok text => Fulfilled (trim text)
      | Throw error => RejectedWith error
      end
  | extractCsv =>
      match csvStream files filePath with
      | CsvEnd headers rows => Fulfilled (csv_text headers rows)
      | CsvParserError error => RejectedWith error
      | CsvReadError error => Uncaught error
      end
  | extractPptx =>
      match parseOffice files filePath with
      | Ok text => Fulfilled (trim text)
      | Throw error => RejectedWith error
      end
  end.

(** [ext.replace('.', '')]: the first dot is removed. *)
Fixpoint remove_first_dot (s : jsstring) : jsstring :=
  match s with
  | [] => []
  | c :: r => if (code c =? 46) then r else c :: remove_first_dot r
  end.

Section Paths.

(** [path.extname]. *)
Variable extname : jsstring → jsstring.

Definition getExtractor (filePath : jsstring) : option Extractor :=
  let ext := toLowerCase (extname filePath) in
  EXTRACTORS ext.

Definition extractContent (files : Files) (filePath : jsstring)
  : Ending (jsstring * jsstring) :=
  let ext := toLowerCase (extname filePath) in
  match getExtractor filePath with
  | None => RejectedWith (Error (lit "Unsupported file type: " ++ ext))
  | Some extractor =>
      match run_extractor files extractor filePath with
      | Fulfilled content => Fulfilled (content, remove_first_dot ext)
      | RejectedWith error => RejectedWith error
      | Uncaught error => Uncaught error
      end
  end.

Definition isSupported (filePath : jsstring) : bool :=
  let ext := toLowerCase (extname filePath) in
  match EXTRACTORS ext with Some _ => true | None => false end.

End Paths.

Definition getSupportedExtensions : list jsstring :=
  [lit ".txt"; lit ".pdf"; lit ".csv"; lit ".pptx"].

End Extractors.

(* ================================================================== *)
(** * The document index, the corpus version and the ingestion *)
(* ================================================================== *)

Module DocumentIndex.

Import LlmService Extractors.

(** [fs.readdir(DOCUMENTS_PATH)]: the names, or an error and its code. *)
Inductive Listing :=
| Listed (files : list jsstring)
| ListingFails (code : option jsstring) (error : JSError).

(** What a request finds outside the process. *)
Record World := {
  listing : Listing;
  files : Files;
  (** [(await fs.stat(path)).mtimeMs] *)
  mtimeMs : jsstring → Outcome float;
  (** [getAllDocuments()]: the rows of the table, or the failure of the
      database. *)
  database : Outcome (list Document);
  (** [Date.now()] *)
  date_now : Z
}.

(** An entry of the index: the fields of a document and the length. *)
Record IndexEntry := {
  entry : Document;
  contentLength : Z
}.

(** The module variables [documentIndex], [indexLastUpdated] (the time of
    the date it is made from) and [corpusVersion]. *)
Record IndexState := {
  documentIndex : option (list IndexEntry);
  indexLastUpdated : option Z;
  corpusVersion : option jsstring
}.

(** How a function that catches every rejection ends: it returns, or the
    process ends with an uncaught exception before it does. *)
Inductive Run (A : Type) :=
| Returns (a : A)
| Dies (error : JSError).
Arguments Returns {A} a.
Arguments Dies {A} error.

(** [x > y] on numbers. *)
Definition fgt (x y : float) : bool := SFltb y x.

(** [!corpusVersion] is false. *)
Definition version_set (version : option jsstring) : bool :=
  match version with
  | Some v => negb (str_length v =? 0)
  | None => false
  end.

Section Paths.

(** [path.extname], [file => path.join(DOCUMENTS_PATH, file)],
    [path.basename] and the text of a number in a template. *)
Variable extname : jsstring → jsstring.
Variable path_join : jsstring → jsstring.
Variable basename : jsstring → jsstring.
Variable number_toString : float → jsstring.

Fixpoint latest_loop (w : World) (supportedFiles : list jsstring)
  (latestMtime : float) : Outcome float :=
  match supportedFiles with
  | [] => Ok latestMtime
  | file :: rest =>
      match mtimeMs w (path_join file) with
      | Ok mtime =>
          latest_loop w rest
            (if fgt mtime latestMtime then mtime else latestMtime)
      | Throw error => Throw error
      end
  end.

Definition generateCorpusVersion (w : World) : jsstring :=
  match listing w with
  | Listed all =>
      let supportedFiles := List.filter (isSupported extname) all in
      if Z.of_nat (length supportedFiles) =? 0 then lit "empty"
      else
        match latest_loop w supportedFiles (of_int 0) with
        | Ok latestMtime =>
            of_Z (Z.of_nat (length supportedFiles)) ++ lit "-"
            ++ number_toString latestMtime
        | Throw _ => lit "error-" ++ of_Z (date_now w)
        end
  | ListingFails _ _ => lit "error-" ++ of_Z (date_now w)
  end.

(** The loop of [buildDocumentIndex]: a file whose extraction is rejected
    is skipped; with an extraction that never settles the loop never
    goes on. *)
Fixpoint index_loop (w : World) (supportedFiles : list jsstring)
  (index : list IndexEntry) : Run (list IndexEntry) :=
  match supportedFiles with
  | [] => Returns index
  | file :: rest =>
      match extractContent extname (files w) (path_join file) with
      | Fulfilled (content, type) =>
          index_loop w rest
            (index
             ++ [{| entry :=
                      {| id := Z.of_nat (length index) + 1;
                         filename := file;
                         filetype := type;
                         content := content;
                         contentPreview := Some (substring content 0 350) |};
                    contentLength := str_length content |}])
      | RejectedWith _ => index_loop w rest index
      | Uncaught error => Dies error
      end
  end.

(** [buildDocumentIndex] up to its first assignment: the index read from
    the directory, [None] when the directory cannot be listed. *)
Definition read_index (w : World) : Run (option (list IndexEntry)) :=
  match listing w with
  | Listed all =>
      match index_loop w (List.filter (isSupported extname) all) [] with
      | Returns index => Returns (Some index)
      | Dies error => Dies error
      end
  | ListingFails _ _ => Returns None
  end.

(** [documentIndex = index; indexLastUpdated = new Date().toISOString()]:
    the version is still what it was. *)
Definition assign_index (index : list IndexEntry) (now : Z)
  (st : IndexState) : IndexState :=
  {| documentIndex := Some index;
     indexLastUpdated := Some now;
     corpusVersion := corpusVersion st |}.

(** [corpusVersion = await generateCorpusVersion()]: the assignment that
    follows the [await], on the state as it then is. *)
Definition assign_version (version : jsstring) (st : IndexState)
  : IndexState :=
  {| documentIndex := documentIndex st;
     indexLastUpdated := indexLastUpdated st;
     corpusVersion := Some version |}.

(** [buildDocumentIndex] when nothing else runs between its two
    assignments. *)
Definition buildDocumentIndex (w : World) (st : IndexState)
  : Run (list IndexEntry * IndexState) :=
  match read_index w with
  | Returns (Some index) =>
      Returns (index,
               assign_version (generateCorpusVersion w)
                 (assign_index index (date_now w) st))
  | Returns None => Returns ([], st)
  | Dies error => Dies error
  end.

(** An array, also the empty one, is truthy: only [null] rebuilds. *)
Definition getIndexedDocuments (w : World) (st : IndexState)
  : Run (list IndexEntry * IndexState) :=
  match documentIndex st with
  | Some index => Returns (index, st)
  | None =>
      match buildDocumentIndex w st with
      | Returns (_, st') =>
          Returns (match documentIndex st' with
                   | Some index => index
                   | None => []
                   end, st')
      | Dies error => Dies error
      end
  end.

Definition invalidateDocumentIndex (st : IndexState) : IndexState :=
  {| documentIndex := None;
     indexLastUpdated := indexLastUpdated st;
     corpusVersion := None |}.

Fixpoint load_loop (w : World) (supportedFiles : list jsstring)
  (documents : list Document) : Run (list Document) :=
  match supportedFiles with
  | [] => Returns documents
  | file :: rest =>
      match extractContent extname (files w) (path_join file) with
      | Fulfilled (content, type) =>
          load_loop w rest
            (documents
             ++ [{| id := Z.of_nat (length documents) + 1;
                    filename := file;
                    filetype := type;
                    content := content;
                    contentPreview := None |}])
      | RejectedWith _ => load_loop w rest documents
      | Uncaught error => Dies error
      end
  end.

Definition loadDocumentsFromFilesystem (w : World) : Run (list Document) :=
  match listing w with
  | Listed all => load_loop w (List.filter (isSupported extname) all) []
  | ListingFails _ _ => Returns []
  end.

(** The [try] block of [getDocumentsWithFallback] when the database has
    rows: the rows, and the version, which is written only when none is
    set. *)
Definition database_loader (docs : list Document) (now : Z)
  (version : option jsstring) : list Document * option jsstring :=
  (docs,
   if version_set version then version
   else Some (lit "db-" ++ of_Z (Z.of_nat (length docs)) ++ lit "-"
              ++ of_Z now)).

(** The documents go on to the pipeline, which reads the fields of
    [Document] only. *)
Definition getDocumentsWithFallback (w : World) (st : IndexState)
  : Run (list Document * IndexState) :=
  let fallback :=
    match getIndexedDocuments w st with
    | Returns (index, st') => Returns (map entry index, st')
    | Dies error => Dies error
    end in
  match database w with
  | Ok docs =>
      if Z.of_nat (length docs) >? 0
      then
        Returns
          (docs,
           {| documentIndex := documentIndex st;
              indexLastUpdated := indexLastUpdated st;
              corpusVersion :=
                snd (database_loader docs (date_now w)
                       (corpusVersion st)) |})
      else fallback
  | Throw _ => fallback
  end.

(** [POST /index/rebuild]: the state after it and the number of documents
    it reports. *)
Definition index_rebuild (w : World) (st : IndexState)
  : Run (Z * IndexState) :=
  match buildDocumentIndex w (invalidateDocumentIndex st) with
  | Returns (docs, st') => Returns (Z.of_nat (length docs), st')
  | Dies error => Dies error
  end.

(** ** The ingestion service *)

Definition getDocumentFiles (w : World) : Outcome (list jsstring) :=
  match listing w with
  | Listed all =>
      Ok (map path_join (List.filter (isSupported extname) all))
  | ListingFails code error =>
      match code with
      | Some c => if str_eqb c (lit "ENOENT") then Ok [] else Throw error
      | None => Throw error
      end
  end.

(** A row of the table [documents], without its key. *)
Record TableRow := {
  row_filename : jsstring;
  row_filetype : jsstring;
  row_content : jsstring
}.

(** The statements sent to the pool: [truncate] is [None] when
    [TRUNCATE TABLE] succeeds, [insert row table] is [None] when the
    [INSERT] of [row] into [table] succeeds. *)
Record Pool := {
  truncate : option JSError;
  insert : TableRow → list TableRow → option JSError
}.

Record IngestResult := {
  success : Z;
  failed : Z;
  processedFiles : list jsstring
}.

(** The loop of [ingestDocuments]; the table is the one the loop has
    reached, also when it never goes on. *)
Fixpoint ingest_loop (w : World) (pool : Pool) (paths : list jsstring)
  (acc : IngestResult) (table : list TableRow)
  : Run IngestResult * list TableRow :=
  match paths with
  | [] => (Returns acc, table)
  | filePath :: rest =>
      let filename := basename filePath in
      let failure :=
        {| success := success acc; failed := failed acc + 1;
           processedFiles := processedFiles acc |} in
      match extractContent extname (files w) filePath with
      | Fulfilled (content, type) =>
          let row := {| row_filename := filename; row_filetype := type;
                        row_content := content |} in
          match insert pool row table with
          | None =>
              ingest_loop w pool rest
                {| success := success acc + 1; failed := failed acc;
                   processedFiles := processedFiles acc ++ [filename] |}
                (table ++ [row])
          | Some _ => ingest_loop w pool rest failure table
          end
      | RejectedWith _ => ingest_loop w pool rest failure table
      | Uncaught error => (Dies error, table)
      end
  end.

Definition ingestDocuments (clearExisting : bool) (w : World) (pool : Pool)
  (table : list TableRow) : Ending IngestResult * list TableRow :=
  match getDocumentFiles w with
  | Throw error => (RejectedWith error, table)
  | Ok paths =>
      if Z.of_nat (length paths) =? 0
      then (Fulfilled {| success := 0; failed := 0; processedFiles := [] |},
            table)
      else
        let start :=
          {| success := 0; failed := 0; processedFiles := [] |} in
        let loop table :=
          match ingest_loop w pool paths start table with
          | (Returns r, table') => (Fulfilled r, table')
          | (Dies error, table') => (Uncaught error, table')
          end in
        if clearExisting
        then
          match truncate pool with
          | Some error => (RejectedWith error, table)
          | None => loop []
          end
        else loop table
  end.

(** What [POST /ingest] leaves: a response with its status, and the index
    state and the cache after it; or no response, the process having
    ended.  The table is what the database then holds. *)
Inductive IngestResponse :=
| Responded (status : Z) (st : IndexState) (cache : SearchCache.t)
| NoResponse (error : JSError).

Definition post_ingest (w : World) (pool : Pool) (table : list TableRow)
  (st : IndexState) (cache : SearchCache.t)
  : IngestResponse * list TableRow :=
  match ingestDocuments true w pool table with
  | (Fulfilled _, table') =>
      (Responded 200 (invalidateDocumentIndex st) (SearchCache.clear cache),
       table')
  | (RejectedWith _, table') => (Responded 500 st cache, table')
  | (Uncaught error, table') => (NoResponse error, table')
  end.

(** The names the directory lists; none when the listing fails. *)
Definition listed (w : World) : list jsstring :=
  match listing w with
  | Listed all => all
  | ListingFails _ _ => []
  end.

(** The extraction of the file [file] of the directory is fulfilled. *)
Definition extracts (w : World) (file : jsstring) : bool :=
  match extractContent extname (files w) (path_join file) with
  | Fulfilled _ => true
  | _ => false
  end.

(** The extraction of the file [file] of the directory never settles. *)
Definition hangs (w : World) (file : jsstring) : bool :=
  match extractContent extname (files w) (path_join file) with
  | Uncaught _ => true
  | _ => false
  end.

(** The rows [getAllDocuments()] yields; none when the database fails. *)
Definition db_documents (w : World) : list Document :=
  match database w with
  | Ok docs => docs
  | Throw _ => []
  end.

(** What [buildDocumentIndex] records of an extracted file. *)
Definition recorded (w : World) (e : IndexEntry) : Prop :=
  extractContent extname (files w) (path_join (filename (entry e)))
  = Fulfilled (content (entry e), filetype (entry e))
  ∧ contentPreview (entry e) = Some (substring (content (entry e)) 0 350)
  ∧ contentLength e = str_length (content (entry e)).

(** A row as the ingestion writes it: a trimmed content and one of the
    four types. *)
Definition well_formed_row (row : TableRow) : Prop :=
  trim (row_content row) = row_content row
  ∧ row_filetype row ∈ [lit "txt"; lit "pdf"; lit "csv"; lit "pptx"].

End Paths.

(** The index is set only together with a version. *)
Definition versioned (st : IndexState) : Prop :=
  match documentIndex st with
  | Some _ => version_set (corpusVersion st) = true
  | None => True
  end.

(** A document of the index without what [loadDocumentsFromFilesystem]
    leaves out. *)
Definition without_preview (d : Document) : Document :=
  {| id := id d; filename := filename d; filetype := filetype d;
     content := content d; contentPreview := None |}.

End DocumentIndex.

(* ================================================================== *)
(** * Further sample data *)
(* ================================================================== *)

Module Scenarios.

Import LlmService Runs Extractors DocumentIndex.

(** A run of a cache of two entries. *)
Definition cache_run : list CacheOp :=
  [ OpSet (lit "what is the budget") Samples.version1 Samples.entry1;
    OpSet (lit "where is the report") Samples.version1 Samples.entry2;
    OpGet (lit "What is the  budget") Samples.version1;
    OpSet (lit "who signed") Samples.version1 Samples.entry1;
    OpSet (lit "who signed") Samples.version1 Samples.entry2 ].

(** Two clients, the first with three requests. *)
Definition other_client : jsstring := lit "198.51.100.2".

Definition two_clients : list (Z * jsstring) :=
  [ (0, Samples.client); (10, other_client); (20, Samples.client);
    (30, Samples.client) ].

(** Twelve requests, one every six seconds. *)
Definition paced_requests : list Z :=
  [0; 6000; 12000; 18000; 24000; 30000; 36000; 42000; 48000; 54000; 60000;
   66000].

Definition invoices : list Document :=
  [Samples.invoice_by_name; Samples.invoice_by_body].

(** The first document of the ranking for the query invoice. *)
Definition top_invoice : ScoredDocument :=
  match scoreDocumentsByKeywords (lit "invoice") invoices with
  | d :: _ => d
  | [] => Samples.long_document
  end.

Definition abort_error : JSError :=
  {| name := lit "AbortError"; message := lit "The operation was aborted" |}.

(** The route over the two invoices. *)
Definition load_invoices (version : option jsstring)
  : list Document * option jsstring := (invoices, Some Samples.version1).

Definition invoice_body : option JSValue := Some (JStr (lit "invoice")).

Definition shouted_body : option JSValue := Some (JStr (lit " INVOICE ")).

Definition later_clock : SearchRoutes.Clock :=
  {| SearchRoutes.startTime := 2000; SearchRoutes.rateLimitNow := 2001;
     SearchRoutes.endTime := 2003 |}.

Definition store_after_one : gmap jsstring SearchRoutes.RateEntry :=
  snd (SearchRoutes.checkRateLimit 1001 Samples.client ∅).

Definition store_after_two : gmap jsstring SearchRoutes.RateEntry :=
  snd (SearchRoutes.checkRateLimit 2001 other_client store_after_one).

(** What the pipeline answers for the query invoice with the selecting
    backend, and the requests it sends. *)
Definition invoice_run : Outcome CacheEntry * list Request :=
  searchDocuments Samples.api_key Samples.selecting_backend
    Samples.parse_reply (lit "invoice") invoices [].

Definition invoice_result : CacheEntry :=
  match fst invoice_run with
  | Ok r => r
  | Throw _ => Samples.entry1
  end.

(** Ten requests without a query, one second apart. *)
Definition ten_turned_down : list (SearchRoutes.Clock * option JSValue) :=
  map (fun t => ({| SearchRoutes.startTime := t;
                    SearchRoutes.rateLimitNow := t;
                    SearchRoutes.endTime := t |}, None))
    Samples.ten_requests.

(** A backend that selects nothing, and a parser for its reply. *)
Definition selecting_nothing (log : list Request) (req : Request) : Reply :=
  Resolved (Some (lit "[]")).

Definition parse_empty (text : jsstring) : option JSValue :=
  if str_eqb text (lit "[]") then Some (JArr []) else None.

(** The part of a name from its last dot on. *)
Fixpoint from_last_dot (s : jsstring) : option jsstring :=
  match s with
  | [] => None
  | c :: r =>
      match from_last_dot r with
      | Some ext => Some ext
      | None => if code c =? 46 then Some s else None
      end
  end.

(** The extension of the sample names. *)
Definition sample_extname (p : jsstring) : jsstring :=
  match from_last_dot p with Some ext => ext | None => [] end.

Definition sample_join (file : jsstring) : jsstring :=
  lit "/srv/generated_documents/" ++ file.

Definition sample_basename (p : jsstring) : jsstring :=
  skipn (length (lit "/srv/generated_documents/")) p.

Definition sample_number (x : float) : jsstring := lit "1700000000000".

Definition unreadable : JSError :=
  {| name := lit "Error"; message := lit "Invalid PDF structure" |}.

Definition no_database : JSError :=
  {| name := lit "Error"; message := lit "connect ECONNREFUSED" |}.

Definition sample_files : Files :=
  {| readFile := fun _ => Ok (lit "  meeting notes ");
     pdfParse := fun _ => Throw unreadable;
     parseOffice := fun _ => Ok (lit "slides");
     csvStream := fun _ =>
       CsvEnd [lit "item"; lit "price"]
         [[(lit "item", lit "pen"); (lit "price", lit "2")]] |}.

(** The same files, the table being locked against reading. *)
Definition locked_table : JSError :=
  {| name := lit "Error"; message := lit "EACCES: permission denied" |}.

Definition files_with_locked_table : Files :=
  {| readFile := readFile sample_files;
     pdfParse := pdfParse sample_files;
     parseOffice := parseOffice sample_files;
     csvStream := fun _ => CsvReadError locked_table |}.

(** A directory of four files: a text, a picture, a PDF that cannot be
    read and a table.  No database. *)
Definition directory : World :=
  {| listing := Listed [lit "notes.TXT"; lit "photo.png"; lit "broken.pdf";
                        lit "prices.csv"];
     files := sample_files;
     mtimeMs := fun _ => Ok (of_int 1700000000000);
     database := Throw no_database;
     date_now := 1700000050000 |}.

(** The directory with the table locked. *)
Definition locked_directory : World :=
  {| listing := listing directory;
     files := files_with_locked_table;
     mtimeMs := mtimeMs directory;
     database := Throw no_database;
     date_now := 1700000055000 |}.

(** A pool that takes every statement. *)
Definition willing_pool : Pool :=
  {| truncate := None; insert := fun _ _ => None |}.

Definition old_rows : list TableRow :=
  [{| row_filename := lit "old.txt"; row_filetype := lit "txt";
      row_content := lit "kept so far" |}].

(** The directory is gone. *)
Definition no_directory : World :=
  {| listing := ListingFails (Some (lit "ENOENT"))
                  {| name := lit "Error"; message := lit "ENOENT" |};
     files := sample_files;
     mtimeMs := fun _ => Throw unreadable;
     database := Throw no_database;
     date_now := 1700000060000 |}.

(** A database with the two invoices, and later with other rows. *)
Definition with_invoices : World :=
  {| listing := listing directory;
     files := sample_files;
     mtimeMs := mtimeMs directory;
     database := Ok invoices;
     date_now := 1700000050000 |}.

Definition with_other_rows : World :=
  {| listing := listing directory;
     files := sample_files;
     mtimeMs := mtimeMs directory;
     database := Ok [Samples.plain_doc 7 "memo.txt" "no bills at all"];
     date_now := 1700000070000 |}.

Definition unloaded : IndexState :=
  {| documentIndex := None; indexLastUpdated := None;
     corpusVersion := None |}.

End Scenarios.
(* ================================================================== *)
(** * Proofs *)
(* ================================================================== *)

Import LlmService SearchRoutes Spec.

(** ** Facts about the built-ins *)

Section OrderedMapFacts.
Context {V : Type}.
Implicit Types (m : omap V) (k : jsstring) (v : V).

Lemma omap_get_set_eq m k v : omap_get (omap_set m k v) k = Some v.
Proof.
  induction m as [|[k' v'] r IH]; simpl; unfold str_eqb.
  - by rewrite bool_decide_eq_true_2.
  - case_bool_decide; simpl; unfold str_eqb.
    + by rewrite bool_decide_eq_true_2.
    + by rewrite bool_decide_eq_false_2.
Qed.

Lemma omap_get_set_ne m k k' v :
  k ≠ k' → omap_get (omap_set m k v) k' = omap_get m k'.
Proof.
  intros Hne. induction m as [|[k0 v0] r IH]; simpl; unfold str_eqb.
  - by rewrite bool_decide_eq_false_2.
  - destruct (decide (k0 = k)) as [->|Hk].
    + rewrite (bool_decide_eq_true_2 (k = k)) by done. simpl.
      unfold str_eqb. by rewrite !(bool_decide_eq_false_2 (k = k')).
    + rewrite (bool_decide_eq_false_2 (k0 = k)) by done. simpl.
      unfold str_eqb. case_bool_decide; [done | apply IH].
Qed.

Lemma omap_get_None m k : omap_get m k = None ↔ k ∉ omap_keys m.
Proof.
  induction m as [|[k0 v0] r IH]; simpl; unfold str_eqb.
  - split; [intros _; apply not_elem_of_nil | done].
  - rewrite not_elem_of_cons. case_bool_decide as Hk.
    + split; [done | intros [Hne _]; by destruct Hne].
    + rewrite IH. split; [intros Hr; split; [congruence | done] | by intros [_ ?]].
Qed.

Lemma omap_has_false m k : omap_has m k = false ↔ k ∉ omap_keys m.
Proof.
  rewrite <- omap_get_None. unfold omap_has.
  destruct (omap_get m k); split; congruence.
Qed.

Lemma omap_has_true m k : omap_has m k = true ↔ k ∈ omap_keys m.
Proof.
  destruct (omap_has m k) eqn:E.
  - split; [intros _ | done].
    destruct (decide (k ∈ omap_keys m)) as [|Hn]; [done|].
    apply omap_has_false in Hn. congruence.
  - apply omap_has_false in E. split; [done | by intros ?].
Qed.


Lemma omap_keys_set_new m k v :
  k ∉ omap_keys m → omap_keys (omap_set m k v) = omap_keys m ++ [k].
Proof.
  induction m as [|[k0 v0] r IH]; simpl; [done|].
  rewrite not_elem_of_cons. intros [Hne Hr]. unfold str_eqb.
  rewrite bool_decide_eq_false_2 by done. simpl. f_equal. by apply IH.
Qed.

Lemma omap_keys_set_old m k v :
  k ∈ omap_keys m → omap_keys (omap_set m k v) = omap_keys m.
Proof.
  induction m as [|[k0 v0] r IH]; simpl.
  - by intros ?%elem_of_nil.
  - unfold str_eqb. case_bool_decide; [done|].
    rewrite elem_of_cons. intros [->|Hin]; [done|].
    simpl. f_equal. by apply IH.
Qed.

Lemma omap_keys_delete m k :
  k ∉ omap_keys (omap_delete m k) →
  omap_keys (omap_delete m k)
  = List.filter (fun x => negb (str_eqb x k)) (omap_keys m).
Proof.
  induction m as [|[k0 v0] r IH]; simpl; [done|]. unfold str_eqb.
  case_bool_decide; simpl.
  - intros Hr. clear IH. subst k0.
    induction r as [|[k1 v1] r IH]; simpl; [done|].
    simpl in Hr. apply not_elem_of_cons in Hr as [Hne Hr].
    unfold str_eqb. rewrite bool_decide_eq_false_2 by done. simpl.
    f_equal. by apply IH.
  - rewrite not_elem_of_cons. intros [_ Hr]. f_equal. by apply IH.
Qed.

Lemma omap_delete_absent m k : k ∉ omap_keys m → omap_delete m k = m.
Proof.
  induction m as [|[k0 v0] r IH]; simpl; [done|].
  rewrite not_elem_of_cons. intros [Hne Hr]. unfold str_eqb.
  rewrite bool_decide_eq_false_2 by done. f_equal. by apply IH.
Qed.

Lemma omap_keys_delete_sub m k x :
  x ∈ omap_keys (omap_delete m k) → x ∈ omap_keys m.
Proof.
  induction m as [|[k0 v0] r IH]; simpl; [done|]. unfold str_eqb.
  case_bool_decide; simpl; rewrite ?elem_of_cons.
  - by right.
  - intros [->|Hin]; [by left | right; by apply IH].
Qed.

Lemma omap_delete_NoDup m k :
  NoDup (omap_keys m) →
  NoDup (omap_keys (omap_delete m k)) ∧ k ∉ omap_keys (omap_delete m k).
Proof.
  induction m as [|[k0 v0] r IH]; simpl.
  - intros _. split; [constructor | apply not_elem_of_nil].
  - rewrite NoDup_cons. intros [Hk0 Hr]. unfold str_eqb.
    case_bool_decide; simpl.
    + subst. done.
    + destruct (IH Hr) as [IH1 IH2]. split.
      * apply NoDup_cons. split; [|done].
        intros Hin. apply Hk0. by eapply omap_keys_delete_sub.
      * apply not_elem_of_cons. done.
Qed.

Lemma omap_get_delete_ne m k k' :
  k ≠ k' → omap_get (omap_delete m k) k' = omap_get m k'.
Proof.
  intros Hne. induction m as [|[k0 v0] r IH]; simpl; [done|].
  unfold str_eqb. destruct (decide (k0 = k)) as [->|Hk].
  - rewrite (bool_decide_eq_true_2 (k = k)) by done.
    by rewrite (bool_decide_eq_false_2 (k = k')).
  - rewrite (bool_decide_eq_false_2 (k0 = k)) by done. simpl.
    unfold str_eqb. case_bool_decide; [done | apply IH].
Qed.
End OrderedMapFacts.

(** ** The response cache: keying *)

Lemma split_at_first {A} (c : A) (x1 x2 y1 y2 : list A) :
  c ∉ x1 → c ∉ x2 → x1 ++ c :: y1 = x2 ++ c :: y2 → x1 = x2 ∧ y1 = y2.
Proof.
  revert x2. induction x1 as [|a x1 IH]; intros [|b x2] H1 H2 Heq;
    simpl in Heq.
  - by inversion Heq.
  - inversion Heq; subst. exfalso. apply H2. left.
  - inversion Heq; subst. exfalso. apply H1. left.
  - inversion Heq; subst.
    apply not_elem_of_cons in H1 as [_ H1].
    apply not_elem_of_cons in H2 as [_ H2].
    destruct (IH x2 H1 H2 H3) as [-> ->]. done.
Qed.

(** The key determines the normalized query and the corpus version when the
    versions hold no colon. *)
Lemma getKey_inj q1 v1 q2 v2 :
  ":"%char ∉ v1 → ":"%char ∉ v2 →
  SearchCache.getKey q1 v1 = SearchCache.getKey q2 v2 →
  SearchCache.normalizeQuery q1 = SearchCache.normalizeQuery q2 ∧ v1 = v2.
Proof.
  unfold SearchCache.getKey. intros H1 H2 Heq.
  apply (f_equal (@rev ascii)) in Heq.
  rewrite !rev_app_distr in Heq. simpl in Heq.
  rewrite <- !app_assoc in Heq. simpl in Heq.
  apply split_at_first in Heq as [Hv Hq].
  - apply (f_equal (@rev ascii)) in Hv. rewrite !rev_involutive in Hv.
    inversion Hq as [Hq'].
    apply (f_equal (@rev ascii)) in Hq'. rewrite !rev_involutive in Hq'.
    done.
  - intros Hin. apply H1. apply list_elem_of_In, in_rev.
    by apply list_elem_of_In.
  - intros Hin. apply H2. apply list_elem_of_In, in_rev.
    by apply list_elem_of_In.
Qed.






(** Why the versions must hold no colon: with the query a::b under version
    c stored, a [get] of the query a under version b::c returns the stored
    value, both pairs giving the key a::b::c.  No route writes such a
    version. *)
Remark cache_key_collision :
  fst (SearchCache.get (lit "a") (lit "b::c")
         (SearchCache.set (lit "a::b") (lit "c") Samples.entry1
            (SearchCache.new 100))) = Some Samples.entry1.
Proof. reflexivity. Qed.


(** ** The response cache: eviction order *)

Lemma last_touch_snoc k history x :
  last_touch k (history ++ [x])
  = if str_eqb x k then S (length history) else last_touch k history.
Proof.
  induction history as [|y r IH]; simpl.
  - by destruct (str_eqb x k).
  - rewrite IH. destruct (str_eqb x k); [done|].
    by destruct (last_touch k r).
Qed.

Lemma last_touch_le k history : (last_touch k history ≤ length history)%nat.
Proof.
  induction history as [|y r IH]; simpl; [done|].
  destruct (last_touch k r); [|lia].
  destruct (str_eqb y k); lia.
Qed.

Lemma elem_of_List_filter {A} (p : A → bool) (l : list A) x :
  x ∈ List.filter p l ↔ p x = true ∧ x ∈ l.
Proof. rewrite !list_elem_of_In, filter_In. tauto. Qed.

Lemma StronglySorted_filter {A} (R : A → A → Prop) (p : A → bool) l :
  StronglySorted R l → StronglySorted R (List.filter p l).
Proof.
  induction 1 as [|a l Hl IH Ha]; simpl; [constructor|].
  destruct (p a); [|done]. constructor; [done|].
  rewrite Forall_forall in Ha. apply Forall_forall.
  intros x Hx. apply elem_of_List_filter in Hx as [_ Hx]. by apply Ha.
Qed.

Lemma StronglySorted_snoc {A} (R : A → A → Prop) l x :
  StronglySorted R l → Forall (fun y => R y x) l →
  StronglySorted R (l ++ [x]).
Proof.
  induction 1 as [|a l Hl IH Ha]; simpl; intros Hx.
  - repeat constructor.
  - apply Forall_cons in Hx as [Hax Hx]. constructor; [by apply IH|].
    apply Forall_app. split; [done | by constructor].
Qed.

Lemma StronglySorted_ext {A} (R R' : A → A → Prop) l :
  (∀ a b, a ∈ l → b ∈ l → R a b → R' a b) →
  StronglySorted R l → StronglySorted R' l.
Proof.
  intros Himp Hs. induction Hs as [|a l Hl IH Ha]; [constructor|].
  constructor.
  - apply IH. intros x y Hx Hy. apply Himp; by right.
  - rewrite Forall_forall in Ha. apply Forall_forall. intros x Hx.
    apply Himp; [left | by right | by apply Ha].
Qed.

Lemma filter_ne_absent k (ks : list jsstring) :
  k ∉ ks → List.filter (fun x => negb (str_eqb x k)) ks = ks.
Proof.
  induction ks as [|a ks IH]; simpl; [done|].
  rewrite not_elem_of_cons. intros [Hne Hk]. unfold str_eqb.
  rewrite bool_decide_eq_false_2 by done. simpl. f_equal. by apply IH.
Qed.

Lemma elem_of_filter_ne k x (ks : list jsstring) :
  x ∈ List.filter (fun y => negb (str_eqb y k)) ks ↔ x ≠ k ∧ x ∈ ks.
Proof.
  rewrite elem_of_List_filter. unfold str_eqb.
  case_bool_decide; simpl; split; intros [? ?]; done.
Qed.

(** Touching [k] moves it behind every other key, in the list and in
    time. *)
Lemma touch_keeps_order history k (ks : list jsstring) :
  StronglySorted (older history) ks →
  StronglySorted (older (history ++ [k]))
    (List.filter (fun x => negb (str_eqb x k)) ks ++ [k]).
Proof.
  intros Hs. apply StronglySorted_snoc.
  - apply (StronglySorted_ext (older history)).
    + intros a b Ha Hb. apply elem_of_filter_ne in Ha as [Ha _].
      apply elem_of_filter_ne in Hb as [Hb _]. unfold older.
      rewrite !last_touch_snoc. unfold str_eqb.
      by rewrite !bool_decide_eq_false_2 by done.
    + by apply StronglySorted_filter.
  - apply Forall_forall. intros a Ha.
    apply elem_of_filter_ne in Ha as [Ha _]. unfold older.
    rewrite !last_touch_snoc. unfold str_eqb.
    rewrite (bool_decide_eq_true_2 (k = k)) by done.
    rewrite bool_decide_eq_false_2 by done.
    pose proof (last_touch_le a history). lia.
Qed.

Lemma untouched_keeps_order history k (ks : list jsstring) :
  k ∉ ks → StronglySorted (older history) ks →
  StronglySorted (older (history ++ [k])) ks.
Proof.
  intros Hk. apply StronglySorted_ext. intros a b Ha Hb. unfold older.
  rewrite !last_touch_snoc. unfold str_eqb.
  rewrite !bool_decide_eq_false_2; [done | |]; intros ->; done.
Qed.

Lemma NoDup_order (ks : list jsstring) :
  NoDup ks → StronglySorted (older ks) ks.
Proof.
  induction ks as [|k ks IH] using rev_ind; [constructor|].
  intros Hnd. apply NoDup_app in Hnd as (Hks & Hk & _).
  assert (Hnk : k ∉ ks) by (intros Hin; apply (Hk k Hin); left).
  rewrite <- (filter_ne_absent k ks Hnk) at 2.
  apply touch_keeps_order. by apply IH.
Qed.

Lemma omap_set_new {V} (m : omap V) k v :
  k ∉ omap_keys m → omap_set m k v = m ++ [(k, v)].
Proof.
  induction m as [|[k0 v0] r IH]; simpl; [done|].
  rewrite not_elem_of_cons. intros [Hne Hr]. unfold str_eqb.
  rewrite bool_decide_eq_false_2 by done. f_equal. by apply IH.
Qed.

Lemma omap_delete_length {V} (m : omap V) k v :
  omap_get m k = Some v → S (length (omap_delete m k)) = length m.
Proof.
  induction m as [|[k0 v0] r IH]; simpl; [done|]. unfold str_eqb.
  case_bool_decide; [done|]. intros Hg. simpl. f_equal. by apply IH.
Qed.

Lemma get_keeps_inv N ks0 history c q v :
  lru_inv N ks0 history c →
  lru_inv N ks0 (history ++ [SearchCache.getKey q v])
    (snd (SearchCache.get q v c)).
Proof.
  intros (Hmax & Hlen & Hnd & Hmem & Hsort).
  unfold SearchCache.get. set (k := SearchCache.getKey q v).
  unfold SearchCache.keys in *.
  destruct (omap_get (SearchCache.cache c) k) as [e|] eqn:Hget; simpl.
  - destruct (omap_delete_NoDup (SearchCache.cache c) k Hnd) as [Hnd' Hk].
    assert (Hin : k ∈ omap_keys (SearchCache.cache c)).
    { destruct (decide (k ∈ omap_keys (SearchCache.cache c))); [done|].
      assert (omap_get (SearchCache.cache c) k = None)
        by by apply omap_get_None.
      congruence. }
    rewrite (omap_set_new _ _ _ Hk).
    unfold lru_inv, SearchCache.keys, omap_keys. simpl.
    rewrite length_app, map_app. simpl.
    fold (omap_keys (omap_delete (SearchCache.cache c) k)).
    rewrite (omap_keys_delete _ _ Hk).
    split; [done|]. split.
    { pose proof (omap_delete_length _ _ _ Hget). lia. }
    split.
    { rewrite <- (omap_keys_delete _ _ Hk). apply NoDup_app.
      split; [done|]. split; [|apply NoDup_singleton].
      intros x Hx ->%list_elem_of_singleton. done. }
    split.
    { intros x. rewrite elem_of_app, elem_of_filter_ne, list_elem_of_singleton.
      rewrite <- Hmem. split.
      - intros [[_ ?]| ->]; done.
      - intros Hx. destruct (decide (x = k)); [by right | by left]. }
    by apply touch_keeps_order.
  - assert (Hk : k ∉ omap_keys (SearchCache.cache c))
      by by apply omap_get_None.
    repeat split; try done; try apply Hmem.
    by apply untouched_keeps_order.
Qed.

Lemma touch_all_keeps_inv N ks0 gs history c :
  lru_inv N ks0 history c →
  lru_inv N ks0 (history ++ map key_of gs) (touch_all gs c).
Proof.
  revert history c. induction gs as [|g gs IH]; intros history c Hinv; simpl.
  - by rewrite app_nil_r.
  - replace (history ++ key_of g :: map key_of gs)
      with ((history ++ [key_of g]) ++ map key_of gs)
      by by rewrite <- app_assoc.
    apply IH. by apply get_keeps_inv.
Qed.

Lemma geb_false a b : a < b → (a >=? b) = false.
Proof. intros H. rewrite Z.geb_leb. by apply Z.leb_gt. Qed.

Lemma geb_true a b : b ≤ a → (a >=? b) = true.
Proof. intros H. rewrite Z.geb_leb. by apply Z.leb_le. Qed.

Lemma set_below_capacity q v e c :
  omap_size (SearchCache.cache c) < SearchCache.maxSize c →
  SearchCache.cache (SearchCache.set q v e c)
  = omap_set (SearchCache.cache c) (SearchCache.getKey q v) e.
Proof.
  intros Hlt. unfold SearchCache.set. simpl. by rewrite geb_false.
Qed.

Lemma fill_snoc es x c :
  fill (es ++ [x]) c
  = SearchCache.set (fst (fst x)) (snd (fst x)) (snd x) (fill es c).
Proof. unfold fill. by rewrite fold_left_app. Qed.

Lemma fill_cache N es :
  NoDup (map entry_key es) → (length es ≤ N)%nat →
  SearchCache.cache (fill es (SearchCache.new (Z.of_nat N)))
  = map (fun x => (entry_key x, snd x)) es
  ∧ SearchCache.maxSize (fill es (SearchCache.new (Z.of_nat N)))
    = Z.of_nat N.
Proof.
  induction es as [|x es IH] using rev_ind; [done|].
  rewrite map_app, length_app. simpl. intros Hnd Hlen.
  apply NoDup_app in Hnd as (Hnd & Hx & _).
  destruct IH as [IHc IHm]; [done | lia |].
  rewrite fill_snoc. split; [|done].
  rewrite set_below_capacity.
  2:{ rewrite IHc, IHm. unfold omap_size. rewrite length_map. lia. }
  rewrite IHc, omap_set_new; [by rewrite map_app|].
  unfold omap_keys. rewrite map_map. simpl.
  intros Hin. apply (Hx _ Hin). left.
Qed.

Lemma fill_inv N es :
  NoDup (map entry_key es) → length es = N →
  lru_inv N (map entry_key es) (map entry_key es)
    (fill es (SearchCache.new (Z.of_nat N))).
Proof.
  intros Hnd Hlen. destruct (fill_cache N es Hnd) as [Hc Hm]; [lia|].
  assert (Hk : SearchCache.keys (fill es (SearchCache.new (Z.of_nat N)))
               = map entry_key es).
  { unfold SearchCache.keys, omap_keys. rewrite Hc, map_map. done. }
  unfold lru_inv. rewrite Hk, Hc, length_map.
  repeat split; try done. by apply NoDup_order.
Qed.

(** What one more distinct key does to a full cache in LRU order. *)
Lemma evict_oldest N ks0 history c q' v' e' :
  lru_inv N ks0 history c → (1 ≤ N)%nat →
  SearchCache.getKey q' v' ∉ ks0 →
  ∃ victim rest,
    SearchCache.keys c = victim :: rest
    ∧ Forall (older history victim) rest
    ∧ ∀ k, omap_get (SearchCache.cache (SearchCache.set q' v' e' c)) k
           = if decide (k = SearchCache.getKey q' v') then Some e'
             else if decide (k = victim) then None
             else omap_get (SearchCache.cache c) k.
Proof.
  intros (Hmax & Hlen & Hnd & Hmem & Hsort) HN Hnew.
  set (k' := SearchCache.getKey q' v') in *.
  unfold SearchCache.keys in *.
  destruct (SearchCache.cache c) as [|[victim ve] r] eqn:Hc;
    [simpl in Hlen; lia|].
  exists victim, (omap_keys r). simpl in *.
  apply StronglySorted_inv in Hsort as [_ Hold].
  split; [done|]. split; [done|].
  intros k. unfold SearchCache.set. fold k'. rewrite Hc, Hmax. simpl.
  rewrite geb_true by (unfold omap_size; simpl; lia).
  assert (Hk' : k' ∉ victim :: omap_keys r) by by rewrite Hmem.
  replace (omap_has ((victim, ve) :: r) k') with false.
  2:{ symmetry. by apply omap_has_false. }
  simpl. unfold str_eqb. rewrite (bool_decide_eq_true_2 (victim = victim)) by done.
  apply NoDup_cons in Hnd as [Hv Hnd].
  destruct (decide (k = k')) as [->|Hk].
  - apply omap_get_set_eq.
  - rewrite omap_get_set_ne by done.
    destruct (decide (k = victim)) as [->|Hkv].
    + by apply omap_get_None.
    + by rewrite bool_decide_eq_false_2.
Qed.

Lemma set_existing_keys q v e c :
  omap_has (SearchCache.cache c) (SearchCache.getKey q v) = true →
  SearchCache.keys (SearchCache.set q v e c) = SearchCache.keys c.
Proof.
  intros Hhas. unfold SearchCache.set, SearchCache.keys. simpl.
  rewrite Hhas, andb_false_r. apply omap_keys_set_old.
  by apply omap_has_true.
Qed.

Lemma get_hit_cache q v entry c :
  omap_get (SearchCache.cache c) (SearchCache.getKey q v) = Some entry →
  SearchCache.get q v c
  = (Some entry,
     {| SearchCache.cache :=
          omap_set (omap_delete (SearchCache.cache c) (SearchCache.getKey q v))
            (SearchCache.getKey q v) entry;
        SearchCache.maxSize := SearchCache.maxSize c |}).
Proof. intros Hget. unfold SearchCache.get. by rewrite Hget. Qed.

(** C5: a cache of capacity [N] is filled with [N] entries of distinct
    keys and then read by any series of [get] calls.  (1) A [set] with one
    more distinct key removes exactly one entry, the victim, and the victim
    is the least recently touched: every other entry was touched (stored or
    read) later.  (2) A [get] that hits returns the entry and moves it to
    the most-recently-used end, behind every other entry in the order of
    last touch; when the cache holds another entry ([N] at least 2) the next
    eviction leaves it in place.  (3) A [set] on a key already present
    leaves the set of keys as it was: nothing is evicted. *)
Theorem lru_eviction (N : nat) es gs q' v' e' :
  let c := touch_all gs (fill es (SearchCache.new (Z.of_nat N))) in
  let history := map entry_key es ++ map key_of gs in
  let k' := SearchCache.getKey q' v' in
  length es = N → (1 ≤ N)%nat → NoDup (map entry_key es) →
  k' ∉ map entry_key es →
  (∃ victim,
      victim ∈ SearchCache.keys c
      ∧ (∀ k, k ∈ SearchCache.keys c → k ≠ victim → older history victim k)
      ∧ (∀ k, omap_get (SearchCache.cache (SearchCache.set q' v' e' c)) k
              = if decide (k = k') then Some e'
                else if decide (k = victim) then None
                else omap_get (SearchCache.cache c) k))
  ∧ (∀ q v entry,
       omap_get (SearchCache.cache c) (SearchCache.getKey q v) = Some entry →
       let k := SearchCache.getKey q v in
       let c1 := snd (SearchCache.get q v c) in
       fst (SearchCache.get q v c) = Some entry
       ∧ (∃ others, SearchCache.keys c1 = others ++ [k])
       ∧ (∀ k0, k0 ∈ SearchCache.keys c1 → k0 ≠ k →
                older (history ++ [k]) k0 k)
       ∧ ((2 ≤ N)%nat →
          omap_get (SearchCache.cache (SearchCache.set q' v' e' c1)) k
          = Some entry))
  ∧ (∀ q v e,
       omap_has (SearchCache.cache c) (SearchCache.getKey q v) = true →
       SearchCache.keys (SearchCache.set q v e c) = SearchCache.keys c).
Proof.
  intros c history k' Hlen HN Hnd Hnew.
  assert (Hinv : lru_inv N (map entry_key es) history c).
  { apply touch_all_keeps_inv. by apply fill_inv. }
  split; [|split].
  - destruct (evict_oldest _ _ _ _ q' v' e' Hinv HN Hnew)
      as (victim & rest & Hkeys & Hold & Hlook).
    exists victim. rewrite Hkeys. split; [left|]. split; [|done].
    intros k [->|Hk]%elem_of_cons Hne; [done|].
    rewrite Forall_forall in Hold. by apply Hold.
  - intros q v entry Hget k c1.
    pose proof (get_keeps_inv _ _ _ _ q v Hinv) as Hinv1.
    fold k c1 in Hinv1.
    assert (Hc1 : SearchCache.cache c1
                  = omap_set (omap_delete (SearchCache.cache c) k) k entry).
    { unfold c1. by rewrite (get_hit_cache _ _ _ _ Hget). }
    destruct Hinv as (_ & _ & Hndc & Hmemc & _).
    destruct (omap_delete_NoDup (SearchCache.cache c) k Hndc) as [_ Hk].
    assert (Hkeys1 : SearchCache.keys c1
                     = omap_keys (omap_delete (SearchCache.cache c) k) ++ [k]).
    { unfold SearchCache.keys. rewrite Hc1. by apply omap_keys_set_new. }
    split. { by rewrite (get_hit_cache _ _ _ _ Hget). }
    split. { by eexists. }
    split.
    { intros k0 _ Hne. unfold older. rewrite !last_touch_snoc.
      unfold str_eqb. rewrite (bool_decide_eq_true_2 (k = k)) by done.
      rewrite (bool_decide_eq_false_2 (k = k0)) by done.
      pose proof (last_touch_le k0 history). lia. }
    intros HN2.
    destruct (evict_oldest _ _ _ _ q' v' e' Hinv1 HN Hnew)
      as (victim & rest & Hkeys & _ & Hlook).
    rewrite Hlook.
    assert (Hkin : k ∈ map entry_key es).
    { apply Hmemc. destruct (decide (k ∈ SearchCache.keys c)); [done|].
      assert (omap_get (SearchCache.cache c) k = None)
        by by apply omap_get_None.
      unfold k in *. congruence. }
    rewrite decide_False by (intros ->; done).
    destruct Hinv1 as (_ & Hlen1 & Hnd1 & _ & _).
    assert (Hvk : k ≠ victim).
    { intros ->. rewrite Hkeys in Hkeys1.
      destruct (omap_keys (omap_delete (SearchCache.cache c) victim))
        as [|a others] eqn:Ho.
      - assert (Hl : length (SearchCache.keys c1) = N)
          by (unfold SearchCache.keys, omap_keys; by rewrite length_map).
        rewrite Hkeys, Hkeys1 in Hl. simpl in Hl. lia.
      - simpl in Hkeys1. inversion Hkeys1 as [[Ha Hr]]. subst a.
        apply Hk. left. }
    rewrite decide_False by done.
    rewrite Hc1. apply omap_get_set_eq.
  - intros q v e. apply set_existing_keys.
Qed.

Lemma lru_eviction_witness :
  let c := touch_all Samples.reads
             (fill Samples.stored (SearchCache.new (Z.of_nat 2))) in
  let history := map entry_key Samples.stored ++ map key_of Samples.reads in
  let k' := SearchCache.getKey (lit "who signed") Samples.version1 in
  ∃ victim,
    victim ∈ SearchCache.keys c
    ∧ (∀ k, k ∈ SearchCache.keys c → k ≠ victim → older history victim k)
    ∧ (∀ k, omap_get
              (SearchCache.cache
                 (SearchCache.set (lit "who signed") Samples.version1
                    Samples.entry1 c)) k
            = if decide (k = k') then Some Samples.entry1
              else if decide (k = victim) then None
              else omap_get (SearchCache.cache c) k).
Proof.
  apply (lru_eviction 2 Samples.stored Samples.reads (lit "who signed")
           Samples.version1 Samples.entry1).
  - reflexivity.
  - lia.
  - apply (bool_decide_unpack _). vm_compute. exact I.
  - apply (bool_decide_unpack _). vm_compute. exact I.
Defined.

(** The sample history at work: the entry that was read survives, the
    other one is evicted. *)
Example lru_sample_run :
  let c := touch_all Samples.reads
             (fill Samples.stored (SearchCache.new 2)) in
  SearchCache.keys
    (SearchCache.set (lit "who signed") Samples.version1 Samples.entry1 c)
  = [ SearchCache.getKey (lit "what is the budget") Samples.version1;
      SearchCache.getKey (lit "who signed") Samples.version1 ].
Proof. reflexivity. Qed.

(** ** The admission controller *)

Lemma filter_in_window (ws : Z) (l : list Z) :
  (∀ t, t ∈ l → ws < t) → List.filter (fun time => time >? ws) l = l.
Proof.
  induction l as [|a l IH]; simpl; intros H; [done|].
  replace (a >? ws) with true.
  - f_equal. apply IH. intros t Ht. apply H. by right.
  - symmetry. apply Z.gtb_lt. apply H. left.
Qed.

(** One admitted request: the client is not blocked, its recorded requests
    all lie inside the window and are fewer than the maximum. *)
Lemma checkRateLimit_admits now ip store prev bu :
  entry_of store ip
  = {| requests := prev; blocked := false; blockedUntil := bu |} →
  (∀ t, t ∈ prev → now - RATE_LIMIT_WINDOW_MS < t) →
  Z.of_nat (length prev) < RATE_LIMIT_MAX_REQUESTS →
  checkRateLimit now ip store
  = (Allowed (RATE_LIMIT_MAX_REQUESTS - (Z.of_nat (length prev) + 1)),
     <[ip := {| requests := prev ++ [now]; blocked := false;
                blockedUntil := bu |}]> store).
Proof.
  intros He Hwin Hlen. unfold checkRateLimit. unfold entry_of in He.
  rewrite He. simpl. rewrite filter_in_window by done.
  rewrite geb_false by done. rewrite length_app. simpl.
  do 2 f_equal. lia.
Qed.

Lemma entry_of_insert store ip e : entry_of (<[ip := e]> store) ip = e.
Proof. unfold entry_of. by rewrite lookup_insert_eq. Qed.

Lemma check_all_admits times : ∀ ip store prev bu lo hi,
  entry_of store ip
  = {| requests := prev; blocked := false; blockedUntil := bu |} →
  (∀ t, t ∈ prev ++ times → lo ≤ t) → (∀ t, t ∈ times → t ≤ hi) →
  hi < lo + RATE_LIMIT_WINDOW_MS →
  Z.of_nat (length prev + length times) ≤ RATE_LIMIT_MAX_REQUESTS →
  times ≠ [] →
  check_all times ip store
  = (admitted (Z.of_nat (length prev)) (length times),
     <[ip := {| requests := prev ++ times; blocked := false;
                blockedUntil := bu |}]> store).
Proof.
  induction times as [|now rest IH]; intros ip store prev bu lo hi
    He Hlo Hhi Hspan Hlen Hne; [done|].
  simpl in Hlen. simpl.
  rewrite (checkRateLimit_admits now ip store prev bu He).
  2:{ intros t Ht. assert (lo ≤ t) by (apply Hlo, elem_of_app; by left).
      assert (now ≤ hi) by (apply Hhi; left). lia. }
  2:{ unfold RATE_LIMIT_MAX_REQUESTS in *. lia. }
  destruct rest as [|now' rest'].
  - simpl. done.
  - rewrite (IH ip _ (prev ++ [now]) bu lo hi).
    + rewrite <- app_assoc. simpl. rewrite insert_insert_eq.
      rewrite length_app. simpl.
      replace (Z.of_nat (length prev + 1)) with (Z.of_nat (length prev) + 1)
        by lia.
      done.
    + apply entry_of_insert.
    + intros t Ht. apply Hlo. by rewrite <- app_assoc in Ht.
    + intros t Ht. apply Hhi. by right.
    + done.
    + rewrite length_app. simpl in *. lia.
    + done.
Qed.

Lemma ceil_div_bounds d :
  0 < d ≤ 60000 → 1 ≤ ceil_div d 1000 ≤ 60.
Proof.
  intros Hd. unfold ceil_div.
  pose proof (Z.div_mod (- d) 1000 ltac:(lia)) as Hdiv.
  pose proof (Z.mod_pos_bound (- d) 1000 ltac:(lia)) as Hmod.
  lia.
Qed.

(** C6: a client never seen before sends ten requests, all inside one
    window (not before [t1], not after [t11], and [t11] less than one
    window after [t1]).  All ten are admitted and recorded, with 9 down to 0
    requests remaining.  The eleventh request, at [t11], is rejected with a
    retry-after of 60 seconds and blocks the client until one full window
    after [t11].  Every request before that time is rejected with the
    reason blocked, leaves the store as it is (the window is not examined)
    and, when it comes at or after [t11], tells a retry-after between 1 and
    60 seconds.  The first request at or after that time is admitted, and
    the recorded history is this request alone. *)
Theorem admission_control (ip : jsstring) (store : gmap jsstring RateEntry)
  (times : list Z) (t1 t11 : Z) :
  store !! ip = None →
  length times = 10%nat →
  (∀ t, t ∈ times → t1 ≤ t ≤ t11) →
  t11 < t1 + RATE_LIMIT_WINDOW_MS →
  let s10 := <[ip := {| requests := times; blocked := false;
                        blockedUntil := 0 |}]> store in
  let s11 := <[ip := {| requests := times; blocked := true;
                        blockedUntil := t11 + RATE_LIMIT_WINDOW_MS |}]>
               store in
  check_all times ip store
  = (map Allowed [9; 8; 7; 6; 5; 4; 3; 2; 1; 0], s10)
  ∧ checkRateLimit t11 ip s10 = (Denied 60 (lit "rate_limit"), s11)
  ∧ (∀ now, now < t11 + RATE_LIMIT_WINDOW_MS →
       ∃ r, checkRateLimit now ip s11 = (Denied r (lit "blocked"), s11)
            ∧ (t11 ≤ now → 1 ≤ r ≤ 60))
  ∧ (∀ now, t11 + RATE_LIMIT_WINDOW_MS ≤ now →
       checkRateLimit now ip s11
       = (Allowed 9,
          <[ip := {| requests := [now]; blocked := false;
                     blockedUntil := t11 + RATE_LIMIT_WINDOW_MS |}]> store)).
Proof.
  intros Hnew Hlen Hwin Hspan s10 s11.
  split; [|split; [|split]].
  - rewrite (check_all_admits times ip store [] 0 t1 t11).
    + by rewrite Hlen.
    + unfold entry_of. by rewrite Hnew.
    + intros t Ht. by apply Hwin.
    + intros t Ht. by apply Hwin.
    + done.
    + simpl. rewrite Hlen. unfold RATE_LIMIT_MAX_REQUESTS. lia.
    + intros ->. done.
  - unfold checkRateLimit, s10. rewrite lookup_insert_eq. simpl.
    rewrite filter_in_window.
    2:{ intros t Ht. destruct (Hwin t Ht). lia. }
    rewrite geb_true by (rewrite Hlen; unfold RATE_LIMIT_MAX_REQUESTS; lia).
    simpl. unfold s11. by rewrite insert_insert_eq.
  - intros now Hnow. eexists. split.
    + unfold checkRateLimit, s11. rewrite lookup_insert_eq. simpl.
      replace (now <? t11 + RATE_LIMIT_WINDOW_MS) with true
        by (symmetry; by apply Z.ltb_lt).
      simpl. by rewrite insert_insert_eq.
    + intros Hge. apply ceil_div_bounds.
      unfold RATE_LIMIT_WINDOW_MS in *. lia.
  - intros now Hnow. unfold checkRateLimit, s11.
    rewrite lookup_insert_eq. simpl.
    replace (now <? t11 + RATE_LIMIT_WINDOW_MS) with false
      by (symmetry; by apply Z.ltb_ge).
    rewrite (geb_true now) by done.
    simpl. by rewrite insert_insert_eq.
Qed.

Lemma admission_control_witness :
  check_all Samples.ten_requests Samples.client ∅
  = (map Allowed [9; 8; 7; 6; 5; 4; 3; 2; 1; 0],
     <[Samples.client := {| requests := Samples.ten_requests;
                            blocked := false; blockedUntil := 0 |}]> ∅)
  ∧ checkRateLimit 10000 Samples.client
      (<[Samples.client := {| requests := Samples.ten_requests;
                              blocked := false; blockedUntil := 0 |}]> ∅)
    = (Denied 60 (lit "rate_limit"),
       <[Samples.client := {| requests := Samples.ten_requests;
                              blocked := true; blockedUntil := 70000 |}]> ∅).
Proof.
  pose proof (admission_control Samples.client ∅ Samples.ten_requests 0 10000)
    as H.
  destruct H as (H10 & H11 & _).
  - apply lookup_empty.
  - reflexivity.
  - apply Forall_forall. apply (bool_decide_unpack _). vm_compute. exact I.
  - reflexivity.
  - split; [exact H10 | exact H11].
Defined.

(** ** The snippet window extractor *)

Lemma substring_length s a b :
  str_length (substring s a b)
  = Z.max (clamp 0 (str_length s) a) (clamp 0 (str_length s) b)
    - Z.min (clamp 0 (str_length s) a) (clamp 0 (str_length s) b).
Proof.
  unfold substring, str_length, clamp.
  rewrite length_firstn, length_skipn. lia.
Qed.

Lemma substring_inside s a b :
  ∃ start len : nat,
    substring s a b = firstn len (skipn start s)
    ∧ (start + len ≤ length s)%nat
    ∧ Z.of_nat len = str_length (substring s a b).
Proof.
  eexists _, _. split; [reflexivity|].
  rewrite substring_length. unfold str_length, clamp. lia.
Qed.

Lemma matchesInWindow_ge rest e count : count ≤ matchesInWindow rest e count.
Proof.
  revert count. induction rest as [|p r IH]; intros count; simpl; [lia|].
  destruct (p <=? e); [|lia]. specialize (IH (count + 1)). lia.
Qed.

Lemma StronglySorted_app_elim {A} (R : A → A → Prop) l1 l2 :
  StronglySorted R (l1 ++ l2) →
  StronglySorted R l1 ∧ StronglySorted R l2
  ∧ ∀ x y, x ∈ l1 → y ∈ l2 → R x y.
Proof.
  induction l1 as [|a l1 IH]; simpl; intros Hs.
  - split; [constructor|]. split; [done|]. by intros x y ?%elem_of_nil.
  - apply StronglySorted_inv in Hs as [Hs Ha].
    destruct (IH Hs) as (H1 & H2 & H12).
    rewrite Forall_forall in Ha. split; [|split; [done|]].
    + constructor; [done|]. apply Forall_forall. intros x Hx.
      apply Ha, elem_of_app. by left.
    + intros x y [->|Hx]%elem_of_cons Hy.
      * apply Ha, elem_of_app. by right.
      * by apply H12.
Qed.


(** On ascending offsets the inner loop, which stops at the first offset
    beyond the window, counts every offset of [rest] inside it. *)
Lemma matchesInWindow_sorted rest e : ∀ count,
  StronglySorted Z.le rest →
  matchesInWindow rest e count
  = count + Z.of_nat (length (List.filter (fun q => q <=? e) rest)).
Proof.
  induction rest as [|p r IH]; intros count Hs; simpl; [lia|].
  apply StronglySorted_inv in Hs as [Hs Hp].
  destruct (Z.leb_spec p e).
  - rewrite IH by done. simpl. lia.
  - replace (List.filter (fun q => q <=? e) r) with (@nil Z); [simpl; lia|].
    symmetry. clear IH Hs. induction r as [|q r IH]; simpl; [done|].
    apply Forall_cons in Hp as [Hq Hp].
    destruct (Z.leb_spec q e); [lia|]. by apply IH.
Qed.

(** The density of a candidate on ascending offsets: the equal offsets
    in front of it, the candidate, and the offsets behind it inside the
    window. *)
Lemma density_split pre start rest w :
  StronglySorted Z.le (pre ++ start :: rest) → 0 ≤ w →
  density (pre ++ start :: rest) w start
  = Z.of_nat (length (List.filter (fun q => q =? start) pre))
    + matchesInWindow rest (start + w) 1.
Proof.
  intros Hs Hw.
  apply StronglySorted_app_elim in Hs as (_ & Hs2 & Hord).
  pose proof Hs2 as Hrest. apply StronglySorted_inv in Hrest as [Hrest Hge].
  rewrite matchesInWindow_sorted by done.
  unfold density. rewrite List.filter_app, length_app. simpl.
  replace ((start <=? start) && (start <=? start + w)) with true
    by (symmetry; apply andb_true_iff; split; apply Z.leb_le; lia).
  simpl length.
  assert (Hpre : List.filter (fun q => (start <=? q) && (q <=? start + w)) pre
                 = List.filter (fun q => q =? start) pre).
  { apply filter_ext_in. intros q Hq.
    assert (q ≤ start) by (apply Hord; [by apply list_elem_of_In | left]).
    destruct (Z.eqb_spec q start) as [->|Hne].
    - apply andb_true_iff. split; apply Z.leb_le; lia.
    - apply andb_false_iff. left. apply Z.leb_gt. lia. }
  assert (Hpost : List.filter (fun q => (start <=? q) && (q <=? start + w))
                    rest
                  = List.filter (fun q => q <=? start + w) rest).
  { apply filter_ext_in. intros q Hq. rewrite Forall_forall in Hge.
    assert (start ≤ q) by by apply Hge, list_elem_of_In.
    replace (start <=? q) with true by (symmetry; by apply Z.leb_le).
    done. }
  rewrite Hpre, Hpost. lia.
Qed.

Lemma filter_eq_absent (pre : list Z) (x : Z) :
  x ∉ pre → List.filter (fun q => q =? x) pre = [].
Proof.
  induction pre as [|a l IH]; simpl; intros Hx; [done|].
  apply not_elem_of_cons in Hx as [Hne Hx].
  destruct (Z.eqb_spec a x); [congruence | by apply IH].
Qed.

(** The state of the scan after the candidates of [pre]: [best] is one of
    them, [maxM] is its density, no candidate of [pre] has a greater one
    and every smaller candidate has a smaller one. *)
Lemma bestStart_loop_densest w : ∀ ps pre best maxM,
  StronglySorted Z.le (pre ++ ps) → 0 ≤ w →
  best ∈ pre →
  maxM = density (pre ++ ps) w best →
  (∀ p, p ∈ pre → density (pre ++ ps) w p ≤ maxM) →
  (∀ p, p ∈ pre → p < best → density (pre ++ ps) w p < maxM) →
  let b := bestStart_loop ps w best maxM in
  b ∈ pre ++ ps
  ∧ (∀ p, p ∈ pre ++ ps →
          density (pre ++ ps) w p ≤ density (pre ++ ps) w b)
  ∧ (∀ p, p ∈ pre ++ ps → p < b →
          density (pre ++ ps) w p < density (pre ++ ps) w b).
Proof.
  induction ps as [|start rest IH];
    intros pre best maxM Hs Hw Hbest HmaxM Hmax Hfirst.
  { simpl. rewrite app_nil_r in *. rewrite <- HmaxM. done. }
  simpl.
  pose proof (density_split pre start rest w Hs Hw) as Hd.
  pose proof (StronglySorted_app_elim _ _ _ Hs) as (_ & _ & Hord).
  assert (Hle : best ≤ start) by (apply Hord; [done | left]).
  replace (pre ++ start :: rest) with ((pre ++ [start]) ++ rest) in *
    by by rewrite <- app_assoc.
  set (m := matchesInWindow rest (start + w) 1) in *.
  destruct (decide (start ∈ pre)) as [Hin|Hnew].
  - (* an offset met before: it cannot count more than it did *)
    assert (Hm : m ≤ maxM) by (specialize (Hmax start Hin); lia).
    replace (m >? maxM) with false
      by (symmetry; destruct (Z.gtb_spec m maxM); [lia | done]).
    apply IH; try done.
    + apply elem_of_app. by left.
    + intros p [Hp| ->%list_elem_of_singleton]%elem_of_app; by apply Hmax.
    + intros p [Hp| ->%list_elem_of_singleton]%elem_of_app Hlt;
        by apply Hfirst.
  - rewrite (filter_eq_absent pre start Hnew) in Hd.
    change (Z.of_nat (length (@nil Z))) with 0 in Hd.
    destruct (Z.gtb_spec m maxM) as [Hgt|Hngt].
    + apply IH; try done.
      * apply elem_of_app. right. left.
      * intros p [Hp| ->%list_elem_of_singleton]%elem_of_app;
          [specialize (Hmax p Hp); lia | lia].
      * intros p [Hp| ->%list_elem_of_singleton]%elem_of_app Hlt;
          [specialize (Hmax p Hp); lia | lia].
    + apply IH; try done.
      * apply elem_of_app. by left.
      * intros p [Hp| ->%list_elem_of_singleton]%elem_of_app;
          [by apply Hmax | lia].
      * intros p [Hp| ->%list_elem_of_singleton]%elem_of_app Hlt;
          [by apply Hfirst | lia].
Qed.

Lemma bestStart_loop_selects p0 ps w :
  Sorted Z.le (p0 :: ps) → 0 ≤ w →
  let positions := p0 :: ps in
  let best := bestStart_loop positions w p0 1 in
  best ∈ positions
  ∧ (∀ p, p ∈ positions → density positions w p ≤ density positions w best)
  ∧ (∀ p, p ∈ positions → p < best →
          density positions w p < density positions w best).
Proof.
  intros Hs Hw positions best.
  apply Sorted_StronglySorted in Hs; [|intros x y z; lia].
  pose proof (density_split [] p0 ps w Hs Hw) as Hd. simpl in Hd.
  pose proof (matchesInWindow_ge ps (p0 + w) 1) as Hge.
  assert (Hbest : best = bestStart_loop ps w p0 (density (p0 :: ps) w p0)).
  { unfold best, positions. simpl. rewrite Hd.
    destruct (Z.gtb_spec (matchesInWindow ps (p0 + w) 1) 1); [done|].
    by replace (matchesInWindow ps (p0 + w) 1) with 1 by lia. }
  rewrite Hbest.
  apply (bestStart_loop_densest w ps [p0] p0); try done.
  - left.
  - by intros p ->%list_elem_of_singleton.
  - intros p ->%list_elem_of_singleton. lia.
Qed.

(** C9: for a document whose content has 2000 characters and whose sorted
    match offsets are 50, 60 and 1800, [extractBestWindow] with a window of
    200 starts from the candidate 50, the head of the 50-60 cluster, and
    returns the characters at offsets 0 to 199 followed by the ellipsis: the
    snippet covers the offsets 50 and 60 and not 1800.  For every
    non-empty ascending list of offsets the scan chooses a candidate whose
    forward window holds the most recorded offsets, and the earliest of
    those: no candidate has a greater density, and every candidate in
    front of the chosen one has a strictly smaller density.  So for the
    offsets 10, 1800, 1810 and 1820 it chooses 1800, not the first
    candidate. *)
Theorem snippet_density_selection (d : ScoredDocument) :
  str_length (content (doc d)) = 2000 →
  matchPositions d = Some [50; 60; 1800] →
  bestStart_loop [50; 60; 1800] 200 50 1 = 50
  ∧ extractBestWindow d 200
    = firstn 200 (content (doc d)) ++ ellipsis
  ∧ (∀ p0 ps w,
       Sorted Z.le (p0 :: ps) → 0 ≤ w →
       let positions := p0 :: ps in
       let best := bestStart_loop positions w p0 1 in
       best ∈ positions
       ∧ (∀ p, p ∈ positions →
               density positions w p ≤ density positions w best)
       ∧ (∀ p, p ∈ positions → p < best →
               density positions w p < density positions w best))
  ∧ bestStart_loop [10; 1800; 1810; 1820] 200 10 1 = 1800.
Proof.
  intros Hlen Hpos. split; [reflexivity|]. split; [|split].
  - unfold extractBestWindow. rewrite Hpos.
    change (bestStart_loop [50; 60; 1800] 200 50 1) with 50.
    rewrite Hlen. simpl. unfold substring. rewrite Hlen. reflexivity.
  - intros p0 ps w Hs Hw. by apply bestStart_loop_selects.
  - reflexivity.
Qed.

(** C10: for every scored document, with or without match positions, and
    every positive window size, the text [extractBestWindow] returns is a
    run of consecutive characters of the content (the characters from
    [start] to [start + len], inside the document), at most [windowSize]
    long, with the ellipsis in front of it or behind it or both or
    neither. *)
Theorem window_size_bound (d : ScoredDocument) (windowSize : Z) :
  0 < windowSize →
  ∃ (lead trail : bool) (start len : nat),
    extractBestWindow d windowSize
    = (if lead then ellipsis else [])
      ++ firstn len (skipn start (content (doc d)))
      ++ (if trail then ellipsis else [])
    ∧ (start + len ≤ length (content (doc d)))%nat
    ∧ Z.of_nat len ≤ windowSize.
Proof.
  intros Hw. unfold extractBestWindow.
  set (text := content (doc d)).
  assert (Hplain : ∃ (lead trail : bool) (start len : nat),
             substring text 0 windowSize
             = (if lead then ellipsis else [])
               ++ firstn len (skipn start text)
               ++ (if trail then ellipsis else [])
             ∧ (start + len ≤ length text)%nat ∧ Z.of_nat len ≤ windowSize).
  { destruct (substring_inside text 0 windowSize) as (st & ln & Hs & Hin & Hl).
    exists false, false, st, ln. simpl. rewrite app_nil_r.
    repeat split; [done | done |].
    rewrite Hl, substring_length. unfold clamp, str_length. lia. }
  destruct (matchPositions d) as [[|p0 ps]|]; [done | | done].
  cbv zeta. fold text.
  set (bestStart := bestStart_loop (p0 :: ps) windowSize p0 1).
  set (startPos := Z.max 0 (bestStart - windowSize / 4)).
  set (endPos := Z.min (str_length text) (startPos + windowSize)).
  set (finalStart := if endPos - startPos <? windowSize
                     then Z.max 0 (endPos - windowSize) else startPos).
  destruct (substring_inside text finalStart endPos)
    as (st & ln & Hs & Hin & Hl).
  exists (finalStart >? 0), (endPos <? str_length text), st, ln.
  split; [|split; [done|]].
  - rewrite Hs.
    destruct (finalStart >? 0), (endPos <? str_length text); simpl;
      rewrite ?app_nil_r, <- ?app_assoc; reflexivity.
  - rewrite Hl, substring_length. unfold finalStart, endPos, clamp.
    assert (0 ≤ startPos) by (unfold startPos; lia).
    assert (0 ≤ str_length text) by (unfold str_length; lia).
    destruct (Z.ltb_spec (Z.min (str_length text) (startPos + windowSize)
                          - startPos) windowSize); lia.
Qed.

Lemma snippet_density_selection_witness :
  str_length (content (doc Samples.long_document)) = 2000
  ∧ extractBestWindow Samples.long_document 200
    = firstn 200 (content (doc Samples.long_document)) ++ ellipsis
  ∧ density [50; 60; 1800] 200 50 = 2
  ∧ density [50; 60; 1800] 200 1800 = 1.
Proof.
  split; [reflexivity|].
  split; [|split; reflexivity].
  apply (snippet_density_selection Samples.long_document); reflexivity.
Defined.

(** The snippet for offsets whose dense cluster comes last: the scan
    chooses 1800, whose forward window holds three offsets, and the
    snippet is the run from 1750 to 1950 between two ellipses. *)
Example later_cluster_is_chosen :
  map (density [10; 1800; 1810; 1820] 200) [10; 1800; 1810; 1820]
  = [1; 3; 2; 1]
  ∧ extractBestWindow Samples.late_cluster 200
    = ellipsis
      ++ firstn 200 (skipn 1750 (content (doc Samples.late_cluster)))
      ++ ellipsis.
Proof. split; reflexivity. Qed.

Lemma window_size_bound_witness :
  ∃ (lead trail : bool) (start len : nat),
    extractBestWindow Samples.long_document 200
    = (if lead then ellipsis else [])
      ++ firstn len (skipn start (content (doc Samples.long_document)))
      ++ (if trail then ellipsis else [])
    ∧ (start + len ≤ length (content (doc Samples.long_document)))%nat
    ∧ Z.of_nat len ≤ 200.
Proof. apply (window_size_bound Samples.long_document 200). lia. Defined.

(** ** The sort *)

Section SortFacts.
Context {A : Type} (gt : A → A → bool).

Lemma sort_insert_perm x l : Permutation (sort_insert gt x l) (x :: l).
Proof.
  induction l as [|y r IH]; simpl; [done|].
  destruct (gt x y); [|done].
  rewrite IH. apply perm_swap.
Qed.

Lemma sort_perm l : Permutation (sort gt l) l.
Proof.
  induction l as [|x r IH]; simpl; [done|].
  rewrite sort_insert_perm. by constructor.
Qed.

Lemma sort_length l : length (sort gt l) = length l.
Proof. apply Permutation_length, sort_perm. Qed.

Hypothesis gt_asym : ∀ x y, gt x y = true → gt y x = false.

Lemma sort_insert_HdRel a x l :
  (in_order gt) a x → HdRel (in_order gt) a l → HdRel (in_order gt) a (sort_insert gt x l).
Proof.
  intros Hax Hal. destruct l as [|y r]; simpl; [by constructor|].
  destruct (gt x y); constructor; [|done].
  by inversion Hal.
Qed.

Lemma sort_insert_sorted x l :
  Sorted (in_order gt) l → Sorted (in_order gt) (sort_insert gt x l).
Proof.
  induction 1 as [|y r Hr IH Hy]; simpl.
  - repeat constructor.
  - destruct (gt x y) eqn:Hxy.
    + constructor; [done|]. apply sort_insert_HdRel; [|done].
      by apply gt_asym.
    + constructor; [by constructor | by constructor].
Qed.

Lemma sort_sorted l : Sorted (in_order gt) (sort gt l).
Proof.
  induction l as [|x r IH]; simpl; [constructor|].
  by apply sort_insert_sorted.
Qed.
End SortFacts.

(** ** Scores as doubles *)




(** ** The keyword scorer *)

Lemma lower_nonseparator c :
  is_separator (lower_char c) = false → is_lower_alnum (lower_char c) = true.
Proof.
  destruct c as [[] [] [] [] [] [] [] []]; vm_compute; intros H;
    first [reflexivity | discriminate H].
Qed.

Lemma split_aux_pieces (P : ascii → Prop) s : ∀ cur prev_sep,
  Forall P cur →
  Forall (fun c => is_separator c = false → P c) s →
  Forall (Forall P) (split_aux s cur prev_sep).
Proof.
  induction s as [|c r IH]; intros cur prev_sep Hcur Hs; simpl.
  - constructor; [|constructor].
    apply Forall_forall. intros x Hx. rewrite Forall_forall in Hcur.
    apply Hcur. apply list_elem_of_In, in_rev. by apply list_elem_of_In.
  - apply Forall_cons in Hs as [Hc Hs].
    destruct (is_separator c) eqn:Hsep.
    + destruct prev_sep.
      * by apply IH.
      * constructor; [|by apply IH].
        apply Forall_forall. intros x Hx. rewrite Forall_forall in Hcur.
        apply Hcur. apply list_elem_of_In, in_rev. by apply list_elem_of_In.
    + apply IH; [|done]. constructor; [by apply Hc | done].
Qed.

(** The tokens are made of lower-case letters and digits and are longer
    than two characters: as a pattern, a token matches its own text and
    nothing else. *)
Lemma queryTokens_plain query :
  Forall (fun token =>
            Forall (fun c => is_lower_alnum c = true) token
            ∧ 2 < str_length token)
    (queryTokens query).
Proof.
  unfold queryTokens, split_separators.
  assert (Hp : Forall (Forall (fun c => is_lower_alnum c = true))
                 (split_aux (toLowerCase query) [] false)).
  { apply split_aux_pieces; [constructor|].
    unfold toLowerCase. apply Forall_forall. intros c Hc.
    apply list_elem_of_In, in_map_iff in Hc as (c' & <- & _).
    apply lower_nonseparator. }
  apply Forall_forall. intros token Ht.
  apply elem_of_List_filter in Ht as [Hlen Ht].
  rewrite Forall_forall in Hp. split; [by apply Hp|].
  by apply Z.gtb_lt.
Qed.

(** *** The code's tokens are the words of the lowered query *)







(** *** The code's count is the count of the matches *)





Lemma score_document_doc tokens d : doc (score_document tokens d) = d.
Proof.
  unfold score_document. by destruct (fold_left _ _ _).
Qed.



Lemma scored_docs_perm query documents :
  Permutation (map doc (scoreDocumentsByKeywords query documents)) documents.
Proof.
  unfold scoreDocumentsByKeywords.
  destruct (Z.of_nat (length (queryTokens query)) =? 0).
  - rewrite map_map. simpl. by rewrite map_id.
  - rewrite (Permutation_map doc (sort_perm score_gt _)).
    rewrite map_map. erewrite map_ext; [by rewrite map_id|].
    intros d. apply score_document_doc.
Qed.

Lemma scored_docs_length query documents :
  length (scoreDocumentsByKeywords query documents) = length documents.
Proof.
  rewrite <- (Permutation_length (scored_docs_perm query documents)).
  by rewrite length_map.
Qed.



(** ** The pipeline *)

Lemma slice0_length {A} (l : list A) n :
  0 ≤ n → Z.of_nat (length (slice0 l n)) ≤ n.
Proof.
  intros Hn. unfold slice0. rewrite length_firstn.
  destruct (Z.ltb_spec n 0); lia.
Qed.

Lemma slice0_sub {A} (l : list A) n x : x ∈ slice0 l n → x ∈ l.
Proof.
  unfold slice0. intros Hx.
  rewrite <- (firstn_skipn (Z.to_nat (if n <? 0
                                      then Z.max (Z.of_nat (length l) + n) 0
                                      else Z.min n (Z.of_nat (length l)))) l).
  apply elem_of_app. by left.
Qed.

Lemma slice0_nonempty {A} (l : list A) n : 0 < n → l ≠ [] → slice0 l n ≠ [].
Proof.
  intros Hn Hl. unfold slice0. destruct l as [|x r]; [done|].
  destruct (Z.ltb_spec n 0); [lia|]. simpl length.
  destruct (Z.to_nat (Z.min n (Z.of_nat (S (length r))))) eqn:E; [lia|].
  done.
Qed.

Lemma arr_includes_elem (l : list jsstring) x :
  arr_includes l x = true → x ∈ l.
Proof.
  unfold arr_includes. intros H. apply existsb_exists in H as (y & Hy & Heq).
  unfold str_eqb in Heq. apply bool_decide_eq_true in Heq. subst.
  by apply list_elem_of_In.
Qed.

Lemma filter_valid_sub items validFiles f :
  f ∈ filter_valid items validFiles → f ∈ validFiles.
Proof.
  induction items as [|v r IH]; simpl; [by intros ?%elem_of_nil|].
  destruct v; try done.
  destruct (arr_includes validFiles s) eqn:E; [|done].
  intros [->|Hf]%elem_of_cons; [by apply arr_includes_elem | by apply IH].
Qed.

(** A name that is no file name of the document set never passes. *)
Lemma filter_valid_drops items validFiles f :
  f ∉ validFiles → f ∉ filter_valid items validFiles.
Proof. intros Hf Hin. apply Hf. by eapply filter_valid_sub. Qed.

Lemma keyword_fallback_sub query documents topN f :
  f ∈ keyword_fallback query documents topN → f ∈ map filename documents.
Proof.
  unfold keyword_fallback. intros Hf.
  apply list_elem_of_In, in_map_iff in Hf as (sd & <- & Hsd).
  apply list_elem_of_In, slice0_sub, list_elem_of_In in Hsd.
  apply list_elem_of_In, in_map_iff. exists (doc sd). split; [done|].
  apply (Permutation_in _ (scored_docs_perm query documents)).
  by apply in_map.
Qed.

Lemma keyword_fallback_length query documents topN :
  0 ≤ topN → Z.of_nat (length (keyword_fallback query documents topN)) ≤ topN.
Proof.
  intros Hn. unfold keyword_fallback. rewrite length_map.
  by apply slice0_length.
Qed.

Section PipelineFacts.
Variable GROQ_API_KEY : option jsstring.
Variable groq_create : list Request → Request → Reply.
Variable JSON_parse : jsstring → option JSValue.

Hypothesis key_configured : api_key_missing GROQ_API_KEY = false.

(** What Stage A returns, by the reply of the backend. *)
Lemma selectRelevantDocuments_cases query documents topN log :
  documents ≠ [] →
  let req := selector_request query documents topN in
  selectRelevantDocuments GROQ_API_KEY groq_create JSON_parse query documents
    topN log
  = (Ok match groq_create log req with
        | Resolved c =>
            match parse_selection JSON_parse (content_or c (lit "[]")) with
            | JArr items =>
                slice0 (filter_valid items (map filename documents)) topN
            | _ => keyword_fallback query documents topN
            end
        | Rejected _ => keyword_fallback query documents topN
        end,
     log ++ [req]).
Proof.
  intros Hne req. unfold selectRelevantDocuments.
  rewrite key_configured.
  replace (Z.of_nat (length documents) =? 0) with false
    by (destruct documents; [done | reflexivity]).
  unfold try_catch, bind, create. fold req.
  destruct (groq_create log req) as [c|e]; [|reflexivity].
  destruct (parse_selection JSON_parse (content_or c (lit "[]")));
    reflexivity.
Qed.
End PipelineFacts.

(** C2: with a configured key and a non-empty document list, a rejected
    Stage A call, whatever the error (an abort on time-out included), makes
    [selectRelevantDocuments] return the file names of the first [topN]
    documents of the keyword ranking, after the one request it sent; for a
    positive [topN] (5 by default) this shortlist is not empty. *)
Theorem stage_a_fallback (key : option jsstring)
  (groq : list Request → Request → Reply)
  (JSON_parse : jsstring → option JSValue)
  (query : jsstring) (documents : list Document) (topN : Z)
  (log : list Request) (e : JSError) :
  api_key_missing key = false →
  documents ≠ [] →
  groq log (selector_request query documents topN) = Rejected e →
  let ranked := scoreDocumentsByKeywords query documents in
  let shortlist := map (fun sd => filename (doc sd)) (slice0 ranked topN) in
  selectRelevantDocuments key groq JSON_parse query documents topN log
  = (Ok shortlist, log ++ [selector_request query documents topN])
  ∧ (0 < topN → shortlist ≠ []).
Proof.
  intros Hkey Hne Hrej ranked shortlist. split.
  - rewrite (selectRelevantDocuments_cases key groq JSON_parse Hkey) by done.
    cbv zeta. by rewrite Hrej.
  - intros Hn Hnil. apply map_eq_nil in Hnil.
    apply (slice0_nonempty ranked topN Hn); [|done].
    intros Hr. apply Hne. apply length_zero_iff_nil.
    rewrite <- (scored_docs_length query documents). fold ranked.
    by rewrite Hr.
Qed.

Lemma stage_a_fallback_witness :
  selectRelevantDocuments Samples.api_key Samples.failing_backend
    Samples.parse_reply (lit "invoice")
    [Samples.invoice_by_body; Samples.invoice_by_name] 5 []
  = (Ok [lit "invoice.txt"; lit "b.txt"],
     [selector_request (lit "invoice")
        [Samples.invoice_by_body; Samples.invoice_by_name] 5]).
Proof.
  apply (stage_a_fallback Samples.api_key Samples.failing_backend
           Samples.parse_reply (lit "invoice")
           [Samples.invoice_by_body; Samples.invoice_by_name] 5 []
           {| name := lit "AbortError";
              message := lit "The operation was aborted" |}).
  - reflexivity.
  - discriminate.
  - reflexivity.
Defined.

(** C8: with a configured key and a non-negative [topN],
    [selectRelevantDocuments] returns a list for every reply of the backend:
    a JSON array, an object that wraps one, text that only the
    regular-expression fallback reads, or a rejection.  Every name in the
    list is the file name of a supplied document, and the list has at most
    [topN] names.  When the reply is read as an array, the result is that
    array filtered by the file names of the documents and cut to [topN]: a
    name that belongs to no document is dropped and nothing else happens. *)
Theorem stage_a_validation (key : option jsstring)
  (groq : list Request → Request → Reply)
  (JSON_parse : jsstring → option JSValue)
  (query : jsstring) (documents : list Document) (topN : Z)
  (log : list Request) :
  api_key_missing key = false →
  0 ≤ topN →
  ∃ names log',
    selectRelevantDocuments key groq JSON_parse query documents topN log
    = (Ok names, log')
    ∧ (∀ f, f ∈ names → f ∈ map filename documents)
    ∧ Z.of_nat (length names) ≤ topN
    ∧ (∀ c items,
         documents ≠ [] →
         groq log (selector_request query documents topN) = Resolved c →
         parse_selection JSON_parse (content_or c (lit "[]")) = JArr items →
         names = slice0 (filter_valid items (map filename documents)) topN
         ∧ ∀ f, f ∉ map filename documents → f ∉ names).
Proof.
  intros Hkey Hn.
  destruct documents as [|d0 ds] eqn:Hd.
  { exists [], log. unfold selectRelevantDocuments. rewrite Hkey. simpl.
    repeat split; [by intros f ?%elem_of_nil | done | done | done]. }
  rewrite <- Hd. assert (Hne : documents ≠ []) by by rewrite Hd.
  clear Hd d0 ds.
  eexists _, _. split.
  { apply (selectRelevantDocuments_cases key groq JSON_parse Hkey); done. }
  split; [|split].
  - intros f. destruct (groq log _) as [c|e];
      [|apply keyword_fallback_sub].
    destruct (parse_selection _ _); try apply keyword_fallback_sub.
    intros Hf. apply slice0_sub in Hf. by eapply filter_valid_sub.
  - destruct (groq log _) as [c|e];
      [|by apply keyword_fallback_length].
    destruct (parse_selection _ _); try by apply keyword_fallback_length.
    by apply slice0_length.
  - intros c items _ Hc Hitems. rewrite Hc, Hitems. split; [done|].
    intros f Hf Hin. apply slice0_sub in Hin.
    by apply (filter_valid_drops items _ f Hf).
Qed.

Lemma stage_a_validation_witness :
  ∃ names log',
    selectRelevantDocuments Samples.api_key Samples.selecting_backend
      Samples.parse_reply (lit "invoice")
      [Samples.invoice_by_body; Samples.invoice_by_name] 5 []
    = (Ok names, log')
    ∧ (∀ f, f ∈ names
            → f ∈ map filename
                    [Samples.invoice_by_body; Samples.invoice_by_name])
    ∧ Z.of_nat (length names) ≤ 5.
Proof.
  destruct (stage_a_validation Samples.api_key Samples.selecting_backend
              Samples.parse_reply (lit "invoice")
              [Samples.invoice_by_body; Samples.invoice_by_name] 5 [])
    as (names & log' & Hrun & Hsub & Hlen & _).
  - reflexivity.
  - lia.
  - exists names, log'. split; [exact Hrun | split; [exact Hsub | exact Hlen]].
Defined.

(** The invented name of the sample reply is dropped. *)
Example stage_a_drops_invented_name :
  fst (selectRelevantDocuments Samples.api_key Samples.selecting_backend
         Samples.parse_reply (lit "invoice")
         [Samples.invoice_by_body; Samples.invoice_by_name] 5 [])
  = Ok [lit "invoice.txt"].
Proof. reflexivity. Qed.

(** C1: with the key configured, [searchDocuments] on an empty document
    list returns the fixed message with no sources and [documentsSelected]
    0, and the log of backend requests is as before: no call was made.  In
    the route, when the loaded document list is empty no request reaches
    the pipeline (the backend log and the cache stay as they were, whatever
    the request), and a request that was admitted with a valid query gets
    the route's fixed message with [documentsSearched] 0 and
    [documentsSelected] 0. *)
Theorem empty_corpus_short_circuit (key : option jsstring)
  (groq : list Request → Request → Reply)
  (JSON_parse : jsstring → option JSValue)
  (getDocuments : option jsstring → list Document * option jsstring)
  (generatedVersion : jsstring)
  (query : jsstring) (log : list Request)
  (clock : Clock) (clientIp : jsstring) (body_query : option JSValue)
  (st : State) :
  (api_key_missing key = false →
   searchDocuments key groq JSON_parse query [] log
   = (Ok {| answer := NO_DOCUMENTS_ANSWER; sources := [];
            documentsSelected := 0 |}, log))
  ∧ (fst (getDocuments (corpusVersion st)) = [] →
     let r := post_search key groq JSON_parse getDocuments generatedVersion
                clock clientIp body_query st in
     backend_log (snd r) = backend_log st
     ∧ cache (snd r) = cache st
     ∧ (∀ q,
          allowed (fst (checkRateLimit (rateLimitNow clock) clientIp
                          (rateLimitStore st))) = true →
          valid_query body_query = Some q →
          str_length q ≤ MAX_QUERY_LENGTH →
          fst r
          = {| status := 200;
               body := SearchBody (trim q) NO_DOCUMENTS_RESPONSE []
                         {| documentsSearched := 0;
                            meta_documentsSelected := 0;
                            processingTimeMs :=
                              endTime clock - startTime clock;
                            cached := false |} |})).
Proof.
  split.
  - intros Hkey. unfold searchDocuments. by rewrite Hkey.
  - intros Hempty r. unfold r, post_search.
    destruct (checkRateLimit _ _ _) as [[remaining|retryAfter reason] store];
      simpl.
    2:{ repeat split; try done. }
    destruct (valid_query body_query) as [q|]; simpl.
    2:{ repeat split; try done. }
    destruct (Z.gtb_spec (str_length q) MAX_QUERY_LENGTH) as [Hlong|Hshort];
      simpl.
    { repeat split; try done. intros q' _ [= <-] Hq. lia. }
    destruct (getDocuments (corpusVersion st)) as [documents version].
    simpl in Hempty. subst documents. simpl.
    repeat split; try done. by intros q' _ [= <-] _.
Qed.

(** The route at work on an empty corpus. *)
Example empty_corpus_route :
  fst (post_search Samples.api_key Samples.failing_backend
         Samples.parse_reply Samples.no_documents (lit "empty")
         Samples.clock Samples.client (Some (JStr (lit " any budget? ")))
         Samples.initial_state)
  = {| status := 200;
       body := SearchBody (lit "any budget?") NO_DOCUMENTS_RESPONSE []
                 {| documentsSearched := 0; meta_documentsSelected := 0;
                    processingTimeMs := 4; cached := false |} |}.
Proof. vm_compute. reflexivity. Qed.

(** ** Stage B: the retry after a rate-limit reply *)

(** What [generateAnswer] does when its call is rejected with a rate-limit
    (or 413) error that is no abort: it sends one more request, the small
    one, and the outcome of that request is the outcome of the whole call:
    an answer with the first three selected documents as sources, or the
    error of the second call as it is. *)
Lemma rate_limit_retry_once (key : option jsstring)
  (groq : list Request → Request → Reply)
  (query : jsstring) (selectedDocs : list Document)
  (log : list Request) (e : JSError) :
  api_key_missing key = false →
  selectedDocs ≠ [] →
  groq log (answer_request query selectedDocs) = Rejected e →
  str_eqb (name e) (lit "AbortError") = false →
  includes (message e) (lit "rate_limit") || includes (message e) (lit "413")
  = true →
  let first := answer_request query selectedDocs in
  let second := small_request query selectedDocs in
  generateAnswer key groq query selectedDocs log
  = match groq (log ++ [first]) second with
    | Resolved c =>
        (Ok {| ans_answer := content_or c [];
               ans_sources := map source_of (slice0 selectedDocs 3) |},
         log ++ [first; second])
    | Rejected e2 => (Throw e2, log ++ [first; second])
    end
  ∧ model second = SMALL_MODEL
  ∧ user_message second
    = fst (formatDocumentsForContext selectedDocs query 3 5000)
      ++ nl ++ nl ++ lit "Query: " ++ query
  ∧ user_message first
    = answer_message
        (fst (formatDocumentsForContext selectedDocs query
                (Z.of_nat (length selectedDocs)) 12000)) query.
Proof.
  intros Hkey Hne Hrej Hname Hmsg first second.
  split; [|done].
  unfold generateAnswer. rewrite Hkey.
  replace (Z.of_nat (length selectedDocs) =? 0) with false
    by (destruct selectedDocs; [done | reflexivity]).
  subst first second.
  unfold try_catch, bind, create. rewrite Hrej, Hname, Hmsg.
  unfold generateAnswerSmall, bind, create.
  rewrite <- app_assoc. simpl.
  destruct (groq (log ++ _) _); reflexivity.
Qed.

(** C7, the defect at work.  Four documents are selected and only the
    fourth matches the query; the first Stage B call is rejected with a
    rate-limit error.  The retry packs the three best documents of the
    keyword ranking (d.txt, a.txt, b.txt) into its context, while the
    sources it reports are the first three selected documents (a.txt,
    b.txt, c.txt): the context is not built from the first three, and the
    reported sources name c.txt, which the backend never saw, and leave
    out d.txt, which it did. *)
Theorem retry_context_mismatch :
  let query := lit "invoice" in
  let packed :=
    map sel_filename
      (snd (formatDocumentsForContext Samples.four_selected query 3 5000)) in
  let run := generateAnswer Samples.api_key Samples.rate_limited_backend
               query Samples.four_selected [] in
  packed = [lit "d.txt"; lit "a.txt"; lit "b.txt"]
  ∧ (∃ answer log,
       run = (Ok {| ans_answer := answer;
                    ans_sources :=
                      map source_of (slice0 Samples.four_selected 3) |}, log)
       ∧ map model log = [ANSWER_MODEL; SMALL_MODEL]
       ∧ (∀ req, last log = Some req →
            includes (user_message req) (lit "[d.txt]") = true
            ∧ includes (user_message req) (lit "[c.txt]") = false))
  ∧ map filename (slice0 Samples.four_selected 3)
    = [lit "a.txt"; lit "b.txt"; lit "c.txt"].
Proof.
  split; [vm_compute; reflexivity|]. split; [|reflexivity].
  eexists _, _. split; [vm_compute; reflexivity|].
  split; [reflexivity|].
  intros req [= <-]. split; vm_compute; reflexivity.
Qed.

(** ** The match positions: the loop ends within its fuel *)

Lemma occurrences_bounds token s : ∀ i p,
  p ∈ occurrences token s i → i ≤ p < i + str_length s.
Proof.
  unfold str_length.
  induction s as [|c r IH]; intros i p; simpl; [by intros ?%elem_of_nil|].
  rewrite elem_of_app. intros [Hp|Hp].
  - destruct (is_prefix token (c :: r)); [|by apply elem_of_nil in Hp].
    apply list_elem_of_singleton in Hp. lia.
  - apply IH in Hp. lia.
Qed.

Lemma occurrences_length token s i :
  (length (occurrences token s i) ≤ length s)%nat.
Proof.
  revert i. induction s as [|c r IH]; intros i; simpl; [done|].
  rewrite length_app. specialize (IH (i + 1)).
  destruct (is_prefix token (c :: r)); simpl; lia.
Qed.

Lemma filter_all_ge from (l : list Z) :
  (∀ p, p ∈ l → from ≤ p) → List.filter (fun p => from <=? p) l = l.
Proof.
  induction l as [|a l IH]; simpl; intros H; [done|].
  replace (from <=? a) with true.
  - f_equal. apply IH. intros p Hp. apply H. by right.
  - symmetry. apply Z.leb_le. apply H. left.
Qed.

Lemma filter_none_ge from (l : list Z) :
  (∀ p, p ∈ l → p < from) → List.filter (fun p => from <=? p) l = [].
Proof.
  induction l as [|a l IH]; simpl; intros H; [done|].
  replace (from <=? a) with false.
  - apply IH. intros p Hp. apply H. by right.
  - symmetry. apply Z.leb_gt. apply H. left.
Qed.

(** [indexOf] finds the first occurrence at or after [from]. *)
Lemma indexOf_aux_first token s : ∀ i from,
  token ≠ [] →
  indexOf_aux token s i from
  = first_or_none (List.filter (fun p => from <=? p) (occurrences token s i)).
Proof.
  induction s as [|c r IH]; intros i from Htok; simpl.
  - destruct token; [done|]. simpl. by rewrite andb_false_r.
  - destruct (is_prefix token (c :: r)) eqn:Hp; simpl.
    + destruct (from <=? i); simpl; [done | by apply IH].
    + rewrite andb_false_r. by apply IH.
Qed.

(** From an occurrence on, the loop collects that occurrence and every
    later one, in order. *)
Lemma positions_loop_collects token s : ∀ later earlier fuel acc,
  token ≠ [] →
  occurrences token s 0 = earlier ++ later →
  (length later < fuel)%nat →
  (∀ p q, p ∈ earlier → q ∈ later → p < q) →
  StronglySorted Z.lt later →
  positions_loop fuel s token (first_or_none later) acc = acc ++ later.
Proof.
  induction later as [|p later IH]; intros earlier fuel acc Htok Hocc Hfuel
    Hsplit Hsorted.
  - destruct fuel; [simpl in Hfuel; lia|]. simpl. by rewrite app_nil_r.
  - destruct fuel; [simpl in Hfuel; lia|]. simpl.
    assert (Hp : 0 ≤ p < 0 + str_length s).
    { apply (occurrences_bounds token s 0 p). rewrite Hocc.
      apply elem_of_app. right. left. }
    replace (p =? -1) with false by (symmetry; apply Z.eqb_neq; lia).
    apply StronglySorted_inv in Hsorted as [Hsorted Hlater].
    rewrite Forall_forall in Hlater.
    assert (Hnext : indexOf s token (p + 1) = first_or_none later).
    { unfold indexOf. rewrite indexOf_aux_first by done.
      rewrite Hocc. rewrite Z.min_l by lia.
      rewrite List.filter_app. simpl.
      replace (p + 1 <=? p) with false by (symmetry; apply Z.leb_gt; lia).
      rewrite filter_none_ge.
      - simpl. rewrite filter_all_ge; [done|].
        intros q Hq. specialize (Hlater q Hq). lia.
      - intros a Ha. assert (a < p) by (apply Hsplit; [done | left]). lia. }
    rewrite Hnext.
    rewrite (IH (earlier ++ [p]) fuel (acc ++ [p])).
    + by rewrite <- app_assoc.
    + done.
    + by rewrite <- app_assoc.
    + simpl in Hfuel. lia.
    + intros x y [Hx| ->%list_elem_of_singleton]%elem_of_app Hy.
      * apply Hsplit; [done | by right].
      * by apply Hlater.
    + done.
Qed.

Lemma occurrences_sorted token s : ∀ i,
  StronglySorted Z.lt (occurrences token s i).
Proof.
  induction s as [|c r IH]; intros i; simpl; [constructor|].
  destruct (is_prefix token (c :: r)); simpl; [|apply IH].
  constructor; [apply IH|].
  apply Forall_forall. intros p Hp. apply occurrences_bounds in Hp. lia.
Qed.

(** The loop over [indexOf] records every occurrence of a non-empty token,
    in ascending order, and stops by itself: the fuel is never used up. *)
Lemma push_positions_complete s token acc :
  token ≠ [] →
  push_positions s token acc = acc ++ occurrences token s 0.
Proof.
  intros Htok. unfold push_positions.
  assert (Hfirst : indexOf s token 0
                   = first_or_none (occurrences token s 0)).
  { unfold indexOf. rewrite indexOf_aux_first by done.
    rewrite filter_all_ge; [done|].
    intros p Hp. apply occurrences_bounds in Hp. unfold str_length in *. lia. }
  rewrite Hfirst.
  apply (positions_loop_collects token s _ []); try done.
  - pose proof (occurrences_length token s 0). lia.
  - intros p q Hp. by apply elem_of_nil in Hp.
  - apply occurrences_sorted.
Qed.

(** The ranking at work: one match in the file name (5 over the root of
    12) outranks two matches in the body (4 over the root of 19). *)
Example keyword_ranking_sample :
  map (fun sd => filename (doc sd))
    (scoreDocumentsByKeywords (lit "invoice")
       [Samples.invoice_by_body; Samples.invoice_by_name])
  = [lit "invoice.txt"; lit "b.txt"].
Proof. vm_compute. reflexivity. Qed.

(* ================================================================== *)
(** * Further properties of the code *)
(* ================================================================== *)

Import Runs.

(** ** The response cache under any run of operations *)

Lemma omap_size_keys {V} (m : omap V) :
  omap_size m = Z.of_nat (length (omap_keys m)).
Proof. unfold omap_size, omap_keys. by rewrite length_map. Qed.

Lemma set_keeps_bound q v e c :
  NoDup (SearchCache.keys c) →
  omap_size (SearchCache.cache c) ≤ Z.max 1 (SearchCache.maxSize c) →
  NoDup (SearchCache.keys (SearchCache.set q v e c))
  ∧ omap_size (SearchCache.cache (SearchCache.set q v e c))
    ≤ Z.max 1 (SearchCache.maxSize c).
Proof.
  intros Hnd Hsize.
  destruct (omap_has (SearchCache.cache c) (SearchCache.getKey q v)) eqn:Hhas.
  - pose proof (set_existing_keys q v e c Hhas) as Hk.
    split; [by rewrite Hk|].
    rewrite omap_size_keys. unfold SearchCache.keys in Hk. rewrite Hk.
    by rewrite <- omap_size_keys.
  - apply omap_has_false in Hhas.
    unfold SearchCache.set, SearchCache.keys in *. simpl.
    replace (omap_has _ _) with false
      by (symmetry; by apply omap_has_false).
    rewrite andb_true_r.
    destruct (Z.geb_spec (omap_size (SearchCache.cache c))
                (SearchCache.maxSize c)) as [Hfull|Hroom].
    + destruct (SearchCache.cache c) as [|[k0 v0] r] eqn:Hc; simpl.
      * split; [apply NoDup_singleton | unfold omap_size; simpl; lia].
      * unfold str_eqb. rewrite bool_decide_eq_true_2 by done.
        simpl in Hnd, Hhas. apply NoDup_cons in Hnd as [Hk0 Hr].
        apply not_elem_of_cons in Hhas as [_ Hnew].
        rewrite omap_size_keys, omap_keys_set_new by done.
        split.
        -- apply NoDup_app. split; [done|]. split; [|apply NoDup_singleton].
           intros x Hx ->%list_elem_of_singleton. done.
        -- rewrite length_app. unfold omap_size, omap_keys in *.
           rewrite length_map. simpl in *. lia.
    + rewrite omap_size_keys, omap_keys_set_new by done. split.
      * apply NoDup_app. split; [done|]. split; [|apply NoDup_singleton].
        intros x Hx ->%list_elem_of_singleton. done.
      * rewrite length_app. rewrite omap_size_keys in Hroom. simpl. lia.
Qed.

Lemma get_keeps_bound q v c :
  NoDup (SearchCache.keys c) →
  NoDup (SearchCache.keys (snd (SearchCache.get q v c)))
  ∧ omap_size (SearchCache.cache (snd (SearchCache.get q v c)))
    = omap_size (SearchCache.cache c).
Proof.
  intros Hnd. unfold SearchCache.get, SearchCache.keys in *.
  destruct (omap_get (SearchCache.cache c) (SearchCache.getKey q v))
    as [e|] eqn:Hget; simpl; [|done].
  destruct (omap_delete_NoDup _ (SearchCache.getKey q v) Hnd) as [Hnd' Hk].
  rewrite omap_set_new by done. split.
  - unfold omap_keys. rewrite map_app. simpl. apply NoDup_app.
    split; [done|]. split; [|apply NoDup_singleton].
    intros x Hx ->%list_elem_of_singleton. done.
  - unfold omap_size. rewrite length_app. simpl.
    pose proof (omap_delete_length _ _ _ Hget). lia.
Qed.

(** X1: whatever series of [get], [set] and [clear] runs on a cache whose
    keys are distinct and whose size is within the capacity, the keys stay
    distinct and the size stays within the capacity; a capacity below 1
    acts as the capacity 1. *)
Theorem cache_stays_bounded (ops : list CacheOp) (c : SearchCache.t) :
  NoDup (SearchCache.keys c) →
  omap_size (SearchCache.cache c) ≤ Z.max 1 (SearchCache.maxSize c) →
  NoDup (SearchCache.keys (run_ops ops c))
  ∧ omap_size (SearchCache.cache (run_ops ops c))
    ≤ Z.max 1 (SearchCache.maxSize c)
  ∧ SearchCache.maxSize (run_ops ops c) = SearchCache.maxSize c.
Proof.
  revert c. induction ops as [|op ops IH]; intros c Hnd Hsize; [done|].
  simpl.
  assert (Hstep : NoDup (SearchCache.keys (apply_op c op))
                  ∧ omap_size (SearchCache.cache (apply_op c op))
                    ≤ Z.max 1 (SearchCache.maxSize c)
                  ∧ SearchCache.maxSize (apply_op c op)
                    = SearchCache.maxSize c).
  { destruct op as [q v|q v e|]; simpl.
    - destruct (get_keeps_bound q v c Hnd) as [H1 H2].
      split; [done|]. split; [lia|].
      unfold SearchCache.get. by destruct (omap_get _ _).
    - destruct (set_keeps_bound q v e c Hnd Hsize). done.
    - split; [apply NoDup_nil_2|]. split; [|done].
      unfold omap_size. simpl. lia. }
  destruct Hstep as (H1 & H2 & H3).
  rewrite <- H3. apply IH; [done | by rewrite H3].
Qed.

(** X2: reads and writes of the cache are local.  A [get] returns what the
    map holds under its key and changes no lookup, of that key or of any
    other; a [set] changes the lookup of its own key and, besides, at most
    that of the first (oldest) key. *)
Theorem cache_operations_are_local (q v : jsstring) (e : CacheEntry)
  (c : SearchCache.t) :
  fst (SearchCache.get q v c)
  = omap_get (SearchCache.cache c) (SearchCache.getKey q v)
  ∧ (∀ k, omap_get (SearchCache.cache (snd (SearchCache.get q v c))) k
          = omap_get (SearchCache.cache c) k)
  ∧ omap_get (SearchCache.cache (SearchCache.set q v e c))
      (SearchCache.getKey q v) = Some e
  ∧ (∀ k, k ≠ SearchCache.getKey q v →
          omap_first_key (SearchCache.cache c) ≠ Some k →
          omap_get (SearchCache.cache (SearchCache.set q v e c)) k
          = omap_get (SearchCache.cache c) k).
Proof.
  split; [|split; [|split]].
  - unfold SearchCache.get. by destruct (omap_get _ _).
  - intros k. unfold SearchCache.get.
    destruct (omap_get (SearchCache.cache c) (SearchCache.getKey q v))
      as [entry|] eqn:Hget; simpl; [|done].
    destruct (decide (k = SearchCache.getKey q v)) as [->|Hk].
    + by rewrite omap_get_set_eq.
    + rewrite omap_get_set_ne by done. by apply omap_get_delete_ne.
  - unfold SearchCache.set. simpl. apply omap_get_set_eq.
  - intros k Hk Hfirst. unfold SearchCache.set. simpl.
    rewrite omap_get_set_ne by done.
    destruct (_ && _); [|done].
    destruct (omap_first_key (SearchCache.cache c)) as [k0|] eqn:Hk0; [|done].
    apply omap_get_delete_ne. intros ->. done.
Qed.

(** ** Query normalization *)

Lemma lower_char_idem c : lower_char (lower_char c) = lower_char c.
Proof. destruct c as [[] [] [] [] [] [] [] []]; reflexivity. Qed.

Lemma is_space_lower c : is_space (lower_char c) = is_space c.
Proof. destruct c as [[] [] [] [] [] [] [] []]; reflexivity. Qed.

Lemma toLowerCase_idem s : toLowerCase (toLowerCase s) = toLowerCase s.
Proof.
  unfold toLowerCase. rewrite map_map. apply map_ext, lower_char_idem.
Qed.

Lemma toLowerCase_dropWhile s :
  toLowerCase (dropWhile is_space s) = dropWhile is_space (toLowerCase s).
Proof.
  induction s as [|c r IH]; simpl; [done|].
  rewrite is_space_lower. by destruct (is_space c).
Qed.

Lemma toLowerCase_trim s : toLowerCase (trim s) = trim (toLowerCase s).
Proof.
  unfold trim, trimEnd, trimStart, toLowerCase.
  rewrite map_rev. fold (toLowerCase (dropWhile is_space (rev (dropWhile is_space s)))).
  rewrite toLowerCase_dropWhile. unfold toLowerCase. rewrite map_rev.
  fold (toLowerCase (dropWhile is_space s)).
  by rewrite toLowerCase_dropWhile.
Qed.

Lemma toLowerCase_collapse b s :
  toLowerCase (collapse_ws b s) = collapse_ws b (toLowerCase s).
Proof.
  revert b. induction s as [|c r IH]; intros b; simpl; [done|].
  rewrite is_space_lower. destruct (is_space c).
  - destruct b; simpl; by rewrite IH.
  - simpl. by rewrite IH.
Qed.

Lemma dropWhile_idem {A} (p : A → bool) l :
  dropWhile p (dropWhile p l) = dropWhile p l.
Proof.
  induction l as [|x r IH]; simpl; [done|].
  destruct (p x) eqn:E; [done|]. simpl. by rewrite E.
Qed.

Lemma dropWhile_snoc {A} (p : A → bool) l x :
  p x = false → dropWhile p (l ++ [x]) = dropWhile p l ++ [x].
Proof.
  intros Hx. induction l as [|y r IH]; simpl; [by rewrite Hx|].
  by destruct (p y).
Qed.

Lemma trimEnd_cons h s :
  is_space h = false →
  trimEnd (h :: s) = h :: rev (dropWhile is_space (rev s)).
Proof.
  intros Hh. unfold trimEnd. simpl.
  rewrite dropWhile_snoc by done. rewrite rev_app_distr. done.
Qed.

(** A trimmed text is left alone by [trim]; [trim] yields trimmed text. *)
Lemma trim_fixes s :
  trimStart (trim s) = trim s ∧ trimEnd (trim s) = trim s.
Proof.
  split.
  - unfold trim, trimStart.
    destruct (dropWhile is_space s) as [|h r] eqn:Hd; [done|].
    assert (Hh : is_space h = false).
    { clear -Hd. induction s as [|c s IH]; simpl in Hd; [done|].
      destruct (is_space c) eqn:E; [by apply IH|].
      by inversion Hd; subst. }
    rewrite trimEnd_cons by done. simpl. by rewrite Hh.
  - unfold trim, trimEnd. rewrite rev_involutive.
    by rewrite dropWhile_idem.
Qed.

Lemma trim_idem s : trim (trim s) = trim s.
Proof.
  destruct (trim_fixes s) as [H1 H2]. unfold trim at 1.
  by rewrite H1, H2.
Qed.

Lemma collapse_ws_idem s : ∀ b,
  collapse_ws b (collapse_ws b s) = collapse_ws b s.
Proof.
  induction s as [|c r IH]; intros b; simpl; [done|].
  destruct (is_space c) eqn:E.
  - destruct b; [apply IH|]. simpl. by rewrite IH.
  - simpl. rewrite E. by rewrite IH.
Qed.

Lemma collapse_ws_snoc s x : ∀ b,
  is_space x = false → collapse_ws b (s ++ [x]) = collapse_ws b s ++ [x].
Proof.
  induction s as [|c r IH]; intros b Hx; simpl.
  - by rewrite Hx.
  - destruct (is_space c); [destruct b|]; simpl; by rewrite IH.
Qed.

Lemma dropWhile_fixed_head {A} (p : A → bool) l :
  dropWhile p l = l → l = [] ∨ ∃ h r, l = h :: r ∧ p h = false.
Proof.
  destruct l as [|h r]; [by left|]. simpl. intros H. right.
  exists h, r. split; [done|]. destruct (p h) eqn:E; [|done].
  exfalso. assert (Hl : (length (dropWhile p r) ≤ length r)%nat).
  { clear. induction r as [|y r IH]; simpl; [done|].
    destruct (p y); simpl; lia. }
  rewrite H in Hl. simpl in Hl. lia.
Qed.

(** Collapsing the white space of a trimmed text gives a trimmed text. *)
Lemma collapse_trimmed s :
  trimStart s = s → trimEnd s = s →
  trimStart (replace_ws_runs s) = replace_ws_runs s
  ∧ trimEnd (replace_ws_runs s) = replace_ws_runs s.
Proof.
  unfold replace_ws_runs. intros Hs He. split.
  - apply dropWhile_fixed_head in Hs as [->|(h & r & -> & Hh)]; [done|].
    unfold trimStart. simpl. rewrite Hh. simpl. by rewrite Hh.
  - assert (Hr : dropWhile is_space (rev s) = rev s).
    { unfold trimEnd in He. apply (f_equal (@rev ascii)) in He.
      by rewrite rev_involutive in He. }
    apply dropWhile_fixed_head in Hr as [Hr|(h & r & Hr & Hh)].
    + apply (f_equal (@rev ascii)) in Hr. rewrite rev_involutive in Hr.
      by subst.
    + apply (f_equal (@rev ascii)) in Hr. rewrite rev_involutive in Hr.
      simpl in Hr. subst s. rewrite collapse_ws_snoc by done.
      unfold trimEnd. rewrite rev_app_distr. simpl. rewrite Hh.
      simpl. by rewrite rev_involutive.
Qed.

(** X3: query normalization is idempotent and absorbs what callers do to a
    query before the lookup: normalizing a normalized query, a trimmed
    query (the route trims) or a lowercased query gives the normal form of
    the query itself, so all of them share its cache key. *)
Theorem normalization_is_stable (query corpusVersion : jsstring) :
  SearchCache.normalizeQuery (SearchCache.normalizeQuery query)
  = SearchCache.normalizeQuery query
  ∧ SearchCache.normalizeQuery (trim query) = SearchCache.normalizeQuery query
  ∧ SearchCache.normalizeQuery (toLowerCase query)
    = SearchCache.normalizeQuery query
  ∧ SearchCache.getKey (trim query) corpusVersion
    = SearchCache.getKey query corpusVersion.
Proof.
  assert (Htrim : SearchCache.normalizeQuery (trim query)
                  = SearchCache.normalizeQuery query).
  { unfold SearchCache.normalizeQuery.
    by rewrite toLowerCase_trim, trim_idem. }
  split; [|split; [done|split]].
  - unfold SearchCache.normalizeQuery at 1.
    set (n := SearchCache.normalizeQuery query).
    assert (Hlow : toLowerCase n = n).
    { unfold n, SearchCache.normalizeQuery, replace_ws_runs.
      by rewrite toLowerCase_collapse, toLowerCase_trim, toLowerCase_idem. }
    destruct (trim_fixes (toLowerCase query)) as [Hs He].
    destruct (collapse_trimmed _ Hs He) as [Hs' He'].
    fold (SearchCache.normalizeQuery query) in Hs', He'. fold n in Hs', He'.
    rewrite Hlow. unfold trim. rewrite Hs', He'.
    unfold n, SearchCache.normalizeQuery, replace_ws_runs.
    apply collapse_ws_idem.
  - unfold SearchCache.normalizeQuery. by rewrite toLowerCase_idem.
  - unfold SearchCache.getKey. by rewrite Htrim.
Qed.

(** ** The admission controller: isolation, bounded memory, pacing *)

Lemma filter_length_le {A} (p : A → bool) l :
  (length (List.filter p l) ≤ length l)%nat.
Proof.
  induction l as [|x r IH]; simpl; [done|]. destruct (p x); simpl; lia.
Qed.

(** What [checkRateLimit] does for a client that is not blocked: it drops
    the time stamps that left the window and decides on what is left. *)
Lemma checkRateLimit_unblocked now ip store prev bu :
  entry_of store ip
  = {| requests := prev; blocked := false; blockedUntil := bu |} →
  let kept := List.filter (fun time => time >? now - RATE_LIMIT_WINDOW_MS)
                prev in
  checkRateLimit now ip store
  = if Z.of_nat (length kept) >=? RATE_LIMIT_MAX_REQUESTS
    then (Denied 60 (lit "rate_limit"),
          <[ip := {| requests := kept; blocked := true;
                     blockedUntil := now + RATE_LIMIT_WINDOW_MS |}]> store)
    else (Allowed (RATE_LIMIT_MAX_REQUESTS - Z.of_nat (length (kept ++ [now]))),
          <[ip := {| requests := kept ++ [now]; blocked := false;
                     blockedUntil := bu |}]> store).
Proof.
  intros He kept. unfold checkRateLimit. unfold entry_of in He.
  rewrite He. simpl. fold kept. by destruct (_ >=? _).
Qed.

Lemma checkRateLimit_entry_bounded now ip store :
  Z.of_nat (length (requests (entry_of store ip))) ≤ RATE_LIMIT_MAX_REQUESTS →
  Z.of_nat (length (requests (entry_of (snd (checkRateLimit now ip store)) ip)))
  ≤ RATE_LIMIT_MAX_REQUESTS.
Proof.
  intros Hb. unfold checkRateLimit. fold (entry_of store ip).
  destruct (entry_of store ip) as [reqs bl bu] eqn:He. simpl in *.
  destruct (bl && (now <? bu)) eqn:Hblocked; simpl.
  { by rewrite entry_of_insert. }
  set (kept := List.filter _
                 (requests (if bl && (now >=? bu) then _ else _))).
  assert (Hk : Z.of_nat (length kept) ≤ Z.of_nat (length reqs)).
  { unfold kept. destruct (bl && (now >=? bu)); simpl.
    - lia.
    - pose proof (filter_length_le
                    (fun time => time >? now - RATE_LIMIT_WINDOW_MS) reqs).
      lia. }
  destruct (Z.geb_spec (Z.of_nat (length kept)) RATE_LIMIT_MAX_REQUESTS);
    simpl; rewrite entry_of_insert; simpl.
  - lia.
  - rewrite length_app. simpl. lia.
Qed.

Lemma checkRateLimit_other now ip ip' store :
  ip' ≠ ip → snd (checkRateLimit now ip store) !! ip' = store !! ip'.
Proof.
  intros Hne. unfold checkRateLimit.
  destruct (_ && _); simpl; [by rewrite lookup_insert_ne|].
  destruct (_ >=? _); simpl; by rewrite lookup_insert_ne.
Qed.

Lemma checkRateLimit_present now ip store :
  is_Some (snd (checkRateLimit now ip store) !! ip).
Proof.
  unfold checkRateLimit.
  destruct (_ && _); simpl; [rewrite lookup_insert_eq; by eexists|].
  destruct (_ >=? _); simpl; rewrite lookup_insert_eq; by eexists.
Qed.

Lemma checkRateLimit_bounded now ip store :
  store_bounded store → store_bounded (snd (checkRateLimit now ip store)).
Proof.
  intros Hb ip' e He.
  destruct (decide (ip' = ip)) as [->|Hne].
  - pose proof (checkRateLimit_entry_bounded now ip store) as Hstep.
    unfold entry_of at 2 in Hstep. rewrite He in Hstep. apply Hstep.
    unfold entry_of. destruct (store !! ip) as [e0|] eqn:H0.
    + by apply (Hb ip).
    + simpl. unfold RATE_LIMIT_MAX_REQUESTS. lia.
  - rewrite checkRateLimit_other in He by done. by apply (Hb ip').
Qed.

(** X4: the admission controller keeps clients apart and its memory per
    client bounded.  A request of one client leaves the entry of every
    other client as it was, and after any series of requests by any
    clients no client holds more than ten time stamps, provided none did
    at the start (an empty store, for one). *)
Theorem admission_store_isolated_and_bounded
  (events : list (Z * jsstring)) (store : gmap jsstring RateEntry) :
  store_bounded store →
  store_bounded (check_run events store)
  ∧ (∀ now ip ip', ip' ≠ ip →
       snd (checkRateLimit now ip store) !! ip' = store !! ip').
Proof.
  intros Hb. split; [|intros; by apply checkRateLimit_other].
  revert store Hb. induction events as [|[now ip] rest IH]; intros store Hb;
    [done|].
  simpl. apply IH. by apply checkRateLimit_bounded.
Qed.

Lemma spaced_count (l : list Z) : ∀ lo hi,
  StronglySorted (spaced 6000) l →
  (∀ t, t ∈ l → lo < t ≤ hi) →
  l ≠ [] →
  Z.of_nat (length l) * 6000 < hi - lo + 6000.
Proof.
  induction l as [|x r IH]; intros lo hi Hs Hin Hne; [done|].
  apply StronglySorted_inv in Hs as [Hs Hx].
  assert (Hxb : lo < x ≤ hi) by (apply Hin; left).
  destruct r as [|y r'].
  - simpl. lia.
  - specialize (IH (lo + 6000) hi Hs).
    rewrite Forall_forall in Hx.
    assert (Hr : Z.of_nat (length (y :: r')) * 6000 < hi - (lo + 6000) + 6000).
    { apply IH; [|done]. intros t Ht. split.
      - specialize (Hx t Ht). unfold spaced in Hx. lia.
      - apply Hin. by right. }
    simpl length in *. lia.
Qed.

Lemma check_all_paced times : ∀ ip store prev bu,
  entry_of store ip
  = {| requests := prev; blocked := false; blockedUntil := bu |} →
  StronglySorted (spaced 6000) (prev ++ times) →
  Forall (fun d => allowed d = true) (fst (check_all times ip store)).
Proof.
  induction times as [|now rest IH]; intros ip store prev bu He Hs;
    [constructor|].
  simpl.
  pose proof (checkRateLimit_unblocked now ip store prev bu He) as Hstep.
  cbv zeta in Hstep.
  set (kept := List.filter (fun time => time >? now - RATE_LIMIT_WINDOW_MS)
                 prev) in *.
  assert (Hkept_sorted : StronglySorted (spaced 6000) (kept ++ now :: rest)).
  { assert (Hf : List.filter (fun time => time >? now - RATE_LIMIT_WINDOW_MS)
                   (prev ++ now :: rest) = kept ++ now :: rest).
    { rewrite List.filter_app. fold kept. f_equal.
      apply filter_in_window. intros t Ht.
      apply StronglySorted_app_elim in Hs as (_ & Hs & _).
      apply elem_of_cons in Ht as [->|Ht];
        [unfold RATE_LIMIT_WINDOW_MS; lia|].
      apply StronglySorted_inv in Hs as [_ Hn].
      rewrite Forall_forall in Hn. specialize (Hn t Ht).
      unfold spaced, RATE_LIMIT_WINDOW_MS in *. lia. }
    rewrite <- Hf. by apply StronglySorted_filter. }
  assert (Hlen : Z.of_nat (length kept) < RATE_LIMIT_MAX_REQUESTS).
  { destruct kept as [|k0 kr] eqn:Hk;
      [unfold RATE_LIMIT_MAX_REQUESTS; simpl; lia|].
    rewrite <- Hk in *.
    assert (Hcount : Z.of_nat (length kept) * 6000
                     < (now - 6000) - (now - RATE_LIMIT_WINDOW_MS) + 6000).
    { apply spaced_count.
      - by apply StronglySorted_app_elim in Hkept_sorted as (? & _ & _).
      - intros t Ht. split.
        + unfold kept in Ht. apply elem_of_List_filter in Ht as [Ht _].
          by apply Z.gtb_lt in Ht.
        + apply StronglySorted_app_elim in Hkept_sorted as (_ & _ & H12).
          specialize (H12 t now Ht ltac:(left)). unfold spaced in H12. lia.
      - rewrite Hk. done. }
    unfold RATE_LIMIT_WINDOW_MS, RATE_LIMIT_MAX_REQUESTS in *. lia. }
  rewrite geb_false in Hstep by done. rewrite Hstep.
  destruct (check_all rest ip _) as [rs store''] eqn:Hrest. simpl.
  constructor; [done|].
  replace rs with (fst (check_all rest ip
                          (<[ip := {| requests := kept ++ [now];
                                      blocked := false;
                                      blockedUntil := bu |}]> store)))
    by by rewrite Hrest.
  apply (IH ip _ (kept ++ [now]) bu).
  - apply entry_of_insert.
  - by rewrite <- app_assoc.
Qed.

(** X5: a client that leaves at least six seconds between its requests is
    never rejected, however long it goes on: at most nine of its earlier
    requests are inside the window when the next one arrives. *)
Theorem paced_client_is_admitted (ip : jsstring)
  (store : gmap jsstring RateEntry) (times : list Z) :
  store !! ip = None →
  StronglySorted (spaced 6000) times →
  Forall (fun d => allowed d = true) (fst (check_all times ip store)).
Proof.
  intros Hnew Hs. apply (check_all_paced times ip store [] 0); [|done].
  unfold entry_of. by rewrite Hnew.
Qed.

(** ** The context packer *)

Lemma pack_loop_cons d rest maxChars context charCount selected :
  pack_loop (d :: rest) maxChars context charCount selected
  = if charCount + str_length (doc_block d) >? maxChars
    then (context ++ omitted_marker, selected)
    else pack_loop rest maxChars (context ++ doc_block d)
           (charCount + str_length (doc_block d))
           (selected ++ [doc_meta d]).
Proof. reflexivity. Qed.

Lemma pack_loop_shape maxChars topDocs : ∀ context charCount selected,
  charCount = str_length context →
  ∃ n : nat,
    (n ≤ length topDocs)%nat
    ∧ pack_loop topDocs maxChars context charCount selected
      = (context ++ concat (map doc_block (firstn n topDocs))
           ++ (if (n <? length topDocs)%nat then omitted_marker else []),
         selected ++ map doc_meta (firstn n topDocs))
    ∧ str_length (context ++ concat (map doc_block (firstn n topDocs)))
      ≤ Z.max charCount maxChars
    ∧ ((n < length topDocs)%nat →
       maxChars
       < str_length (context ++ concat (map doc_block (firstn (S n) topDocs)))).
Proof.
  induction topDocs as [|d rest IH]; intros context charCount selected Hc.
  - exists 0%nat. simpl. rewrite !app_nil_r.
    split; [done|]. split; [done|]. split; [lia|]. intros ?. lia.
  - rewrite pack_loop_cons.
    assert (Hmap : ∀ k, concat (map doc_block (firstn (S k) (d :: rest)))
                        = doc_block d
                          ++ concat (map doc_block (firstn k rest)))
      by reflexivity.
    assert (Hmeta : ∀ k, map doc_meta (firstn (S k) (d :: rest))
                         = doc_meta d :: map doc_meta (firstn k rest))
      by reflexivity.
    remember (doc_block d) as block eqn:Hblock.
    destruct (Z.gtb_spec (charCount + str_length block) maxChars)
      as [Hover|Hfits].
    + exists 0%nat. rewrite Hmap.
      change (firstn 0 (d :: rest)) with (@nil ScoredDocument).
      change (firstn 0 rest) with (@nil ScoredDocument).
      simpl map. simpl concat. rewrite !app_nil_r.
      split; [simpl; lia|]. split; [done|]. split; [lia|].
      intros _. unfold str_length in *. rewrite length_app. lia.
    + destruct (IH (context ++ block) (charCount + str_length block)
                  (selected ++ [doc_meta d]))
        as (n & Hn & Hrun & Hlen & Hnext).
      { unfold str_length in *. rewrite length_app. lia. }
      exists (S n). rewrite !Hmap, Hmeta, Hrun.
      split; [simpl; lia|]. split.
      { change (S n <? length (d :: rest))%nat with (n <? length rest)%nat.
        by rewrite <- !app_assoc. }
      split.
      * rewrite <- app_assoc in Hlen. lia.
      * intros Hlt. simpl in Hlt. specialize (Hnext ltac:(lia)).
        by rewrite <- app_assoc in Hnext.
Qed.

(** X6: the packed context is the header, the blocks of the first [n]
    documents of the keyword ranking, each block whole, and the omission
    marker exactly when documents were left out of the top [maxDocs].  The
    documents reported as packed are those [n], no more than [maxDocs];
    header and blocks together stay within [maxChars] (or the header
    alone, when it is longer than that), and the first block left out
    would have gone beyond it. *)
Theorem packed_context_shape (documents : list Document) (query : jsstring)
  (maxDocs maxChars : Z) :
  0 ≤ maxDocs →
  let top := slice0 (scoreDocumentsByKeywords query documents) maxDocs in
  ∃ n : nat,
    (n ≤ length top)%nat
    ∧ Z.of_nat n ≤ maxDocs
    ∧ formatDocumentsForContext documents query maxDocs maxChars
      = (context_header ++ concat (map doc_block (firstn n top))
           ++ (if (n <? length top)%nat then omitted_marker else []),
         map doc_meta (firstn n top))
    ∧ str_length (context_header ++ concat (map doc_block (firstn n top)))
      ≤ Z.max (str_length context_header) maxChars
    ∧ ((n < length top)%nat →
       maxChars
       < str_length (context_header
                     ++ concat (map doc_block (firstn (S n) top)))).
Proof.
  intros Hmax top. unfold formatDocumentsForContext. fold top.
  fold context_header.
  destruct (pack_loop_shape maxChars top context_header
              (str_length context_header) [] eq_refl)
    as (n & Hn & Hrun & Hlen & Hnext).
  exists n. split; [done|]. split.
  { pose proof (slice0_length (scoreDocumentsByKeywords query documents)
                  maxDocs Hmax). fold top in H. lia. }
  split; [by rewrite Hrun|]. split; [done|done].
Qed.

(** ** The snippet window: short documents and covered matches *)

Lemma substring_exact s a b :
  0 ≤ a ≤ b → b ≤ str_length s →
  substring s a b = firstn (Z.to_nat (b - a)) (skipn (Z.to_nat a) s).
Proof.
  intros Ha Hb. unfold substring, clamp.
  f_equal; [f_equal; lia | f_equal; f_equal; lia].
Qed.

Lemma substring_whole s : substring s 0 (str_length s) = s.
Proof.
  rewrite substring_exact by (unfold str_length; lia).
  simpl. rewrite Z.sub_0_r. unfold str_length. rewrite Nat2Z.id.
  apply firstn_all.
Qed.

(** X7: a document no longer than the window is returned whole and
    without ellipsis, wherever its matches are. *)
Theorem short_document_whole (d : ScoredDocument) (windowSize : Z) :
  0 < windowSize →
  str_length (content (doc d)) ≤ windowSize →
  extractBestWindow d windowSize = content (doc d).
Proof.
  intros Hw Hlen. unfold extractBestWindow.
  set (text := content (doc d)) in *.
  assert (Hplain : substring text 0 windowSize = text).
  { rewrite <- (substring_whole text) at 2. unfold substring, clamp.
    assert (0 ≤ str_length text) by (unfold str_length; lia).
    f_equal; [f_equal; lia | f_equal; f_equal; lia]. }
  destruct (matchPositions d) as [[|p0 ps]|]; [done | | done].
  cbv zeta.
  set (bestStart := bestStart_loop (p0 :: ps) windowSize p0 1).
  set (startPos := Z.max 0 (bestStart - windowSize / 4)).
  assert (Hend : Z.min (str_length text) (startPos + windowSize)
                 = str_length text) by (unfold startPos; lia).
  rewrite Hend.
  set (finalStart := if str_length text - startPos <? windowSize
                     then Z.max 0 (str_length text - windowSize)
                     else startPos).
  assert (Hfs : finalStart = 0).
  { unfold finalStart.
    destruct (Z.ltb_spec (str_length text - startPos) windowSize);
      unfold startPos in *; lia. }
  rewrite Hfs. simpl. rewrite Z.ltb_irrefl. apply substring_whole.
Qed.

Lemma bestStart_loop_elem ps w : ∀ best maxM,
  bestStart_loop ps w best maxM = best ∨ bestStart_loop ps w best maxM ∈ ps.
Proof.
  induction ps as [|start rest IH]; intros best maxM; simpl; [by left|].
  destruct (_ >? _).
  - destruct (IH start (matchesInWindow rest (start + w) 1)) as [->|H].
    + right. left.
    + right. by right.
  - destruct (IH best maxM) as [->|H]; [by left|]. right. by right.
Qed.

Lemma bestStart_is_candidate p0 ps w :
  bestStart_loop (p0 :: ps) w p0 1 ∈ p0 :: ps.
Proof.
  destruct (bestStart_loop_elem (p0 :: ps) w p0 1) as [->|H]; [left | done].
Qed.

(** X8: when every recorded offset lies inside the content, the snippet is
    a run of the content that covers one of the recorded offsets (the
    candidate the scan chose). *)
Theorem window_covers_a_match (d : ScoredDocument) (windowSize : Z)
  (positions : list Z) :
  0 < windowSize →
  matchPositions d = Some positions →
  positions ≠ [] →
  (∀ p, p ∈ positions → 0 ≤ p < str_length (content (doc d))) →
  ∃ (lead trail : bool) (start len : nat) (p : Z),
    extractBestWindow d windowSize
    = (if lead then ellipsis else [])
      ++ firstn len (skipn start (content (doc d)))
      ++ (if trail then ellipsis else [])
    ∧ p ∈ positions
    ∧ Z.of_nat start ≤ p < Z.of_nat start + Z.of_nat len
    ∧ (start + len ≤ length (content (doc d)))%nat.
Proof.
  intros Hw Hpos Hne Hin. unfold extractBestWindow. rewrite Hpos.
  set (text := content (doc d)) in *.
  destruct positions as [|p0 ps]; [done|]. cbv zeta.
  set (bestStart := bestStart_loop (p0 :: ps) windowSize p0 1).
  assert (Hbest : bestStart ∈ p0 :: ps) by apply bestStart_is_candidate.
  pose proof (Hin _ Hbest) as Hb.
  set (startPos := Z.max 0 (bestStart - windowSize / 4)).
  set (endPos := Z.min (str_length text) (startPos + windowSize)).
  set (finalStart := if endPos - startPos <? windowSize
                     then Z.max 0 (endPos - windowSize) else startPos).
  assert (Hpad : 0 ≤ windowSize / 4 < windowSize).
  { split; [apply Z.div_pos; lia | apply Z.div_lt_upper_bound; lia]. }
  assert (Hrange : 0 ≤ finalStart ≤ bestStart ∧ bestStart < endPos
                   ∧ endPos ≤ str_length text).
  { unfold finalStart, endPos, startPos.
    destruct (Z.ltb_spec (Z.min (str_length text)
                            (Z.max 0 (bestStart - windowSize / 4) + windowSize)
                          - Z.max 0 (bestStart - windowSize / 4)) windowSize);
      lia. }
  destruct Hrange as (Hfs & Hbe & Hel).
  exists (finalStart >? 0), (endPos <? str_length text),
    (Z.to_nat finalStart), (Z.to_nat (endPos - finalStart)), bestStart.
  split; [|split; [done|split; [lia|]]].
  - rewrite substring_exact by lia.
    destruct (finalStart >? 0), (endPos <? str_length text); simpl;
      rewrite ?app_nil_r, <- ?app_assoc; reflexivity.
  - unfold str_length in *. lia.
Qed.

(** ** The recorded match positions *)

Lemma fold_positions contentLower filenameLower tokens : ∀ score positions,
  Forall (fun t => t ≠ []) tokens →
  snd (fold_left (score_token contentLower filenameLower) tokens
         (score, positions))
  = positions
    ++ concat (map (fun t => occurrences t contentLower 0) tokens).
Proof.
  induction tokens as [|t r IH]; intros score positions Hne; simpl.
  - by rewrite app_nil_r.
  - apply Forall_cons in Hne as [Ht Hr].
    rewrite IH by done. rewrite push_positions_complete by done.
    by rewrite <- app_assoc.
Qed.

Lemma elem_of_occurrences token s : ∀ i p,
  p ∈ occurrences token s i
  ↔ i ≤ p < i + str_length s
    ∧ is_prefix token (skipn (Z.to_nat (p - i)) s) = true.
Proof.
  unfold str_length.
  induction s as [|c r IH]; intros i p; simpl.
  - split; [by intros ?%elem_of_nil | lia].
  - rewrite elem_of_app, IH. split.
    + intros [Hp|[Hp Hpre]].
      * destruct (is_prefix token (c :: r)) eqn:E;
          [|by apply elem_of_nil in Hp].
        apply list_elem_of_singleton in Hp. subst p.
        rewrite Z.sub_diag. simpl. split; [lia | done].
      * split; [lia|].
        replace (Z.to_nat (p - i)) with (S (Z.to_nat (p - (i + 1)))) by lia.
        done.
    + intros [Hp Hpre]. destruct (decide (p = i)) as [->|Hne].
      * left. rewrite Z.sub_diag in Hpre. simpl in Hpre. rewrite Hpre.
        left.
      * right. split; [lia|].
        replace (Z.to_nat (p - i)) with (S (Z.to_nat (p - (i + 1)))) in Hpre
          by lia.
        done.
Qed.

Lemma Sorted_weaken {A} (R R' : A → A → Prop) l :
  (∀ a b, R a b → R' a b) → Sorted R l → Sorted R' l.
Proof.
  intros Himp. induction 1 as [|a l Hl IH Ha]; constructor; [done|].
  destruct Ha; constructor. by apply Himp.
Qed.

Lemma sorted_ascending (l : list Z) :
  Sorted Z.le (sort (fun a b => a - b >? 0) l).
Proof.
  assert (Hs : Sorted (in_order (fun a b => a - b >? 0))
                 (sort (fun a b => a - b >? 0) l)).
  { apply sort_sorted. intros x y Hxy. apply Z.gtb_lt in Hxy.
    destruct (Z.gtb_spec (y - x) 0); [lia | done]. }
  eapply Sorted_weaken; [|exact Hs].
  intros a b Hab. unfold in_order in Hab.
  destruct (Z.gtb_spec (a - b) 0); [done | lia].
Qed.

(** X9: for a query with at least one token, every scored document carries
    its match positions in ascending order, and an offset is recorded
    exactly when it is an offset of the lowercased content at which some
    token of the query occurs (overlapping occurrences included).  The
    offsets index the lowercased content, not the content. *)
Theorem match_positions_recorded (query : jsstring)
  (documents : list Document) (sd : ScoredDocument) :
  queryTokens query ≠ [] →
  sd ∈ scoreDocumentsByKeywords query documents →
  ∃ positions,
    matchPositions sd = Some positions
    ∧ Sorted Z.le positions
    ∧ ∀ p, p ∈ positions
           ↔ ∃ token, token ∈ queryTokens query
                ∧ 0 ≤ p < str_length (toLowerCase (content (doc sd)))
                ∧ is_prefix token
                    (skipn (Z.to_nat p) (toLowerCase (content (doc sd))))
                  = true.
Proof.
  intros Hne Hsd. unfold scoreDocumentsByKeywords in Hsd.
  destruct (queryTokens query) as [|t ts] eqn:Htok; [done|].
  rewrite <- Htok in *.
  replace (Z.of_nat (length (queryTokens query)) =? 0) with false in Hsd
    by (rewrite Htok; reflexivity).
  apply list_elem_of_In in Hsd.
  apply (Permutation_in _ (sort_perm score_gt _)) in Hsd.
  apply in_map_iff in Hsd as (d & <- & _).
  assert (Hplain : Forall (fun t => t ≠ []) (queryTokens query)).
  { eapply Forall_impl; [apply queryTokens_plain|].
    intros tok [_ Hlen] ->. simpl in Hlen. unfold str_length in Hlen.
    simpl in Hlen. lia. }
  unfold score_document.
  pose proof (fold_positions (toLowerCase (content d))
                (toLowerCase (filename d)) (queryTokens query) 0 [] Hplain)
    as Hfold.
  destruct (fold_left _ _ _) as [score positions]. simpl in Hfold. simpl.
  eexists. split; [reflexivity|]. split; [apply sorted_ascending|].
  intros p.
  assert (Hperm : p ∈ sort (fun a b => a - b >? 0) positions
                  ↔ In p positions).
  { rewrite list_elem_of_In. split; apply Permutation_in;
      [apply sort_perm | symmetry; apply sort_perm]. }
  rewrite Hperm, Hfold, in_concat. split.
  - intros (l & Hl & Hp). apply in_map_iff in Hl as (tok & <- & Htk).
    apply list_elem_of_In, elem_of_occurrences in Hp as [Hr Hpre].
    exists tok. split; [by apply list_elem_of_In|].
    rewrite Z.sub_0_r in Hpre. split; [lia | done].
  - intros (tok & Htk & Hr & Hpre).
    exists (occurrences tok (toLowerCase (content d)) 0). split.
    + apply in_map_iff. exists tok. split; [done | by apply list_elem_of_In].
    + apply list_elem_of_In, elem_of_occurrences.
      rewrite Z.sub_0_r. split; [lia | done].
Qed.

(** ** Stage B: failures that end the request *)

Lemma generateAnswer_rejected (key : option jsstring)
  (groq : list Request → Request → Reply)
  (query : jsstring) (selectedDocs : list Document)
  (log : list Request) (e : JSError) :
  api_key_missing key = false →
  selectedDocs ≠ [] →
  groq log (answer_request query selectedDocs) = Rejected e →
  generateAnswer key groq query selectedDocs log
  = (if str_eqb (name e) (lit "AbortError")
     then throw (Error (lit "Request timeout - the LLM took too long to respond"))
     else if includes (message e) (lit "rate_limit")
             || includes (message e) (lit "413")
     then generateAnswerSmall groq query selectedDocs
     else throw (Error (lit "Failed to get response from AI: "
                          ++ message e)))
      (log ++ [answer_request query selectedDocs]).
Proof.
  intros Hkey Hne Hrej. unfold generateAnswer. rewrite Hkey.
  replace (Z.of_nat (length selectedDocs) =? 0) with false
    by (destruct selectedDocs; [done | reflexivity]).
  unfold try_catch, bind, create. by rewrite Hrej.
Qed.

(** X10: a rejected Stage B call that is an abort ends the request with
    the time-out error after that one request, also when its message
    speaks of a rate limit; a rejection that is neither an abort nor a
    rate-limit (or 413) error ends it with the backend's message behind
    the prefix of the service.  Neither case sends a second request. *)
Theorem stage_b_terminal_failures (key : option jsstring)
  (groq : list Request → Request → Reply)
  (query : jsstring) (selectedDocs : list Document)
  (log : list Request) (e : JSError) :
  api_key_missing key = false →
  selectedDocs ≠ [] →
  groq log (answer_request query selectedDocs) = Rejected e →
  (str_eqb (name e) (lit "AbortError") = true →
   generateAnswer key groq query selectedDocs log
   = (Throw (Error (lit "Request timeout - the LLM took too long to respond")),
      log ++ [answer_request query selectedDocs]))
  ∧ (str_eqb (name e) (lit "AbortError") = false →
     includes (message e) (lit "rate_limit")
     || includes (message e) (lit "413") = false →
     generateAnswer key groq query selectedDocs log
     = (Throw (Error (lit "Failed to get response from AI: " ++ message e)),
        log ++ [answer_request query selectedDocs])).
Proof.
  intros Hkey Hne Hrej.
  pose proof (generateAnswer_rejected key groq query selectedDocs log e
                Hkey Hne Hrej) as Hrun.
  split.
  - intros Habort. by rewrite Hrun, Habort.
  - intros Hname Hmsg. by rewrite Hrun, Hname, Hmsg.
Qed.

(** ** A missing key *)

(** Without a configured key (unset, empty or the placeholder of the
    sample configuration) the three entry points of the service throw
    their configuration error for every input, the empty document list
    included, and send nothing to the backend. *)
Lemma missing_key_stops_service (key : option jsstring)
  (groq : list Request → Request → Reply)
  (JSON_parse : jsstring → option JSValue)
  (query : jsstring) (documents : list Document) (topN : Z)
  (log : list Request) :
  api_key_missing key = true →
  selectRelevantDocuments key groq JSON_parse query documents topN log
  = (Throw (Error (lit "GROQ_API_KEY not configured")), log)
  ∧ generateAnswer key groq query documents log
    = (Throw (Error (lit "GROQ_API_KEY not configured. Get your free key at console.groq.com")),
       log)
  ∧ searchDocuments key groq JSON_parse query documents log
    = (Throw (Error (lit "GROQ_API_KEY not configured. Get your free key at console.groq.com")),
       log).
Proof.
  intros Hkey.
  unfold selectRelevantDocuments, generateAnswer, searchDocuments.
  by rewrite Hkey.
Qed.

(** ** The search route past admission and validation *)

Lemma gtb_false a b : a ≤ b → (a >? b) = false.
Proof. intros H. destruct (Z.gtb_spec a b); [lia | done]. Qed.

Section RouteFacts.
Variable key : option jsstring.
Variable groq : list Request → Request → Reply.
Variable JSON_parse : jsstring → option JSValue.
Variable getDocuments : option jsstring → list Document * option jsstring.
Variable generated : jsstring.

Variables (clock : Clock) (clientIp : jsstring) (body_query : option JSValue).
Variables (st : State) (remaining : Z) (store : gmap jsstring RateEntry).
Variables (q : jsstring) (documents : list Document).
Variable version : option jsstring.

Hypothesis admitted :
  checkRateLimit (rateLimitNow clock) clientIp (rateLimitStore st)
  = (Allowed remaining, store).
Hypothesis valid : valid_query body_query = Some q.
Hypothesis short : str_length q ≤ MAX_QUERY_LENGTH.
Hypothesis loaded : getDocuments (corpusVersion st) = (documents, version).
Hypothesis some_documents : documents ≠ [].

(** A cache hit is answered from the cache. *)
Lemma post_search_hit entry :
  omap_get (SearchCache.cache (cache st))
    (SearchCache.getKey (trim q) (current_version version generated))
  = Some entry →
  post_search key groq JSON_parse getDocuments generated clock clientIp
    body_query st
  = ({| status := 200;
        body := search_body (trim q) entry (Z.of_nat (length documents))
                  clock true |},
     {| rateLimitStore := store;
        cache := snd (SearchCache.get (trim q)
                        (current_version version generated) (cache st));
        corpusVersion := version;
        backend_log := backend_log st |}).
Proof.
  intros Hhit. unfold post_search. rewrite admitted, valid. simpl.
  rewrite (gtb_false _ _ short).
  rewrite loaded. simpl.
  replace (Z.of_nat (length documents) =? 0) with false
    by (destruct documents; [done | reflexivity]).
  fold (current_version version generated).
  unfold SearchCache.get. rewrite Hhit. reflexivity.
Qed.

(** A cache miss runs the pipeline; its answer is stored, its error is
    reported and nothing is stored. *)
Lemma post_search_miss :
  omap_get (SearchCache.cache (cache st))
    (SearchCache.getKey (trim q) (current_version version generated))
  = None →
  post_search key groq JSON_parse getDocuments generated clock clientIp
    body_query st
  = match searchDocuments key groq JSON_parse (trim q) documents
            (backend_log st) with
    | (Throw error, log') =>
        (search_error error,
         {| rateLimitStore := store; cache := cache st;
            corpusVersion := version; backend_log := log' |})
    | (Ok result, log') =>
        ({| status := 200;
            body := search_body (trim q) result (Z.of_nat (length documents))
                      clock false |},
         {| rateLimitStore := store;
            cache := SearchCache.set (trim q)
                       (current_version version generated) result (cache st);
            corpusVersion := version; backend_log := log' |})
    end.
Proof.
  intros Hmiss. unfold post_search. rewrite admitted, valid. simpl.
  rewrite (gtb_false _ _ short).
  rewrite loaded. simpl.
  replace (Z.of_nat (length documents) =? 0) with false
    by (destruct documents; [done | reflexivity]).
  fold (current_version version generated).
  unfold SearchCache.get. rewrite Hmiss.
  destruct (searchDocuments _ _ _ _ _ _) as [[result|error] log'];
    reflexivity.
Qed.
End RouteFacts.

(** X11: with no key configured, an admitted, valid search over a
    non-empty corpus that misses the cache is answered with status 503 and
    the configuration message; nothing is sent to the backend and nothing
    is stored in the cache. *)
Theorem missing_key_is_service_unavailable (key : option jsstring)
  (groq : list Request → Request → Reply)
  (JSON_parse : jsstring → option JSValue)
  (getDocuments : option jsstring → list Document * option jsstring)
  (generated : jsstring) (clock : Clock) (clientIp : jsstring)
  (body_query : option JSValue) (st : State) (remaining : Z)
  (store : gmap jsstring RateEntry) (q : jsstring)
  (documents : list Document) (version : option jsstring) :
  api_key_missing key = true →
  checkRateLimit (rateLimitNow clock) clientIp (rateLimitStore st)
  = (Allowed remaining, store) →
  valid_query body_query = Some q →
  str_length q ≤ MAX_QUERY_LENGTH →
  getDocuments (corpusVersion st) = (documents, version) →
  documents ≠ [] →
  omap_get (SearchCache.cache (cache st))
    (SearchCache.getKey (trim q) (current_version version generated))
  = None →
  post_search key groq JSON_parse getDocuments generated clock clientIp
    body_query st
  = ({| status := 503;
        body := ErrorBody (lit "Service unavailable")
                  (lit "GROQ_API_KEY not configured. Get your free key at console.groq.com")
                  None |},
     {| rateLimitStore := store; cache := cache st;
        corpusVersion := version; backend_log := backend_log st |}).
Proof.
  intros Hkey Hadm Hvalid Hshort Hload Hne Hmiss.
  rewrite (post_search_miss key groq JSON_parse getDocuments generated clock
             clientIp body_query st remaining store q documents version)
    by done.
  destruct (missing_key_stops_service key groq JSON_parse (trim q) documents 5
              (backend_log st) Hkey) as (_ & _ & Hs).
  rewrite Hs. reflexivity.
Qed.

(** ** The pipeline as a whole *)

Lemma selectRelevantDocuments_names (key : option jsstring)
  (groq : list Request → Request → Reply)
  (JSON_parse : jsstring → option JSValue)
  (query : jsstring) (documents : list Document) (topN : Z)
  (log : list Request) :
  api_key_missing key = false → documents ≠ [] → 0 ≤ topN →
  ∃ names,
    selectRelevantDocuments key groq JSON_parse query documents topN log
    = (Ok names, log ++ [selector_request query documents topN])
    ∧ (∀ f, f ∈ names → f ∈ map filename documents)
    ∧ Z.of_nat (length names) ≤ topN.
Proof.
  intros Hkey Hne Hn. eexists. split.
  { apply (selectRelevantDocuments_cases key groq JSON_parse Hkey); done. }
  split.
  - intros f. destruct (groq log _) as [c|e]; [|apply keyword_fallback_sub].
    destruct (parse_selection _ _); try apply keyword_fallback_sub.
    intros Hf. apply slice0_sub in Hf. by eapply filter_valid_sub.
  - destruct (groq log _) as [c|e]; [|by apply keyword_fallback_length].
    destruct (parse_selection _ _); try by apply keyword_fallback_length.
    by apply slice0_length.
Qed.

(** What [generateAnswer] can do: send at most two requests, and answer
    with all its documents as sources, or with the first three after the
    retry. *)
Lemma generateAnswer_shape (key : option jsstring)
  (groq : list Request → Request → Reply)
  (query : jsstring) (selectedDocs : list Document) (log : list Request) :
  ∃ reqs,
    snd (generateAnswer key groq query selectedDocs log) = log ++ reqs
    ∧ (length reqs ≤ 2)%nat
    ∧ ∀ r, fst (generateAnswer key groq query selectedDocs log) = Ok r →
        ans_sources r = map source_of selectedDocs
        ∨ ans_sources r = map source_of (slice0 selectedDocs 3).
Proof.
  unfold generateAnswer.
  destruct (api_key_missing key).
  { exists []. rewrite app_nil_r. split; [done|]. split; [simpl; lia|done]. }
  destruct (Z.of_nat (length selectedDocs) =? 0) eqn:Hlen.
  { exists []. rewrite app_nil_r. split; [done|]. split; [simpl; lia|].
    intros r [= <-]. left. simpl.
    destruct selectedDocs; [done | discriminate Hlen]. }
  unfold try_catch, bind, create.
  destruct (groq log (answer_request query selectedDocs)) as [c|e].
  { eexists [_]. split; [done|]. split; [simpl; lia|].
    intros r [= <-]. by left. }
  destruct (str_eqb (name e) (lit "AbortError")).
  { eexists [_]. split; [done|]. split; [simpl; lia | done]. }
  destruct (_ || _).
  - unfold generateAnswerSmall, bind, create.
    destruct (groq _ (small_request query selectedDocs)) as [c2|e2].
    + eexists [_; _]. rewrite <- app_assoc. split; [done|].
      split; [simpl; lia|]. intros r [= <-]. by right.
    + eexists [_; _]. rewrite <- app_assoc. split; [done|].
      split; [simpl; lia | done].
  - eexists [_]. split; [done|]. split; [simpl; lia | done].
Qed.

Lemma filter_by_names_length (names : list jsstring)
  (documents : list Document) :
  NoDup (map filename documents) →
  (length (List.filter (fun d => arr_includes names (filename d)) documents)
   ≤ length names)%nat.
Proof.
  intros Hnd.
  set (sel := List.filter (fun d => arr_includes names (filename d))
                documents).
  rewrite <- (length_map filename sel).
  apply submseteq_length, NoDup_submseteq.
  - unfold sel. clear -Hnd. induction documents as [|d r IH]; simpl;
      [constructor|].
    simpl in Hnd. apply NoDup_cons in Hnd as [Hd Hr].
    destruct (arr_includes names (filename d)); simpl; [|by apply IH].
    apply NoDup_cons. split; [|by apply IH].
    intros Hin. apply Hd.
    apply list_elem_of_In, in_map_iff in Hin as (d' & Heq & Hd').
    apply filter_In in Hd' as [Hd' _].
    apply list_elem_of_In, in_map_iff. by exists d'.
  - intros f Hf. apply list_elem_of_In, in_map_iff in Hf as (d & <- & Hd).
    apply filter_In in Hd as [_ Hd]. by apply arr_includes_elem.
Qed.

(** X12: one run of the pipeline over a non-empty corpus sends at least
    one and at most three requests to the backend (the selection, the
    answer, the retry).  An answer names as sources only supplied
    documents and no more of them than [documentsSelected] says; when the
    file names of the corpus are distinct, [documentsSelected] is at most
    5. *)
Theorem pipeline_budget (key : option jsstring)
  (groq : list Request → Request → Reply)
  (JSON_parse : jsstring → option JSValue)
  (query : jsstring) (documents : list Document) (log : list Request) :
  api_key_missing key = false →
  documents ≠ [] →
  ∃ reqs,
    snd (searchDocuments key groq JSON_parse query documents log)
    = log ++ reqs
    ∧ (1 ≤ length reqs ≤ 3)%nat
    ∧ ∀ r, fst (searchDocuments key groq JSON_parse query documents log)
           = Ok r →
        (∀ s, s ∈ sources r → s ∈ map source_of documents)
        ∧ Z.of_nat (length (sources r)) ≤ documentsSelected r
        ∧ (NoDup (map filename documents) → documentsSelected r ≤ 5).
Proof.
  intros Hkey Hne. unfold searchDocuments. rewrite Hkey.
  replace (Z.of_nat (length documents) =? 0) with false
    by (destruct documents; [done | reflexivity]).
  destruct (selectRelevantDocuments_names key groq JSON_parse query
              (map with_preview documents) 5 log Hkey)
    as (names & Hrun & Hsub & Hlen); [by destruct documents | lia |].
  unfold bind. rewrite Hrun.
  set (selectedDocs := List.filter
                         (fun d => arr_includes names (filename d)) documents).
  set (log1 := log ++ [selector_request query (map with_preview documents) 5]).
  destruct (generateAnswer_shape key groq query selectedDocs log1)
    as (reqs & Hlog & Hreqs & Hsrc).
  destruct (generateAnswer key groq query selectedDocs log1) as [[r|e] log2]
    eqn:Hgen; simpl in *.
  - exists ([selector_request query (map with_preview documents) 5] ++ reqs).
    rewrite app_assoc. split; [by rewrite Hlog|].
    split; [rewrite length_app; simpl; lia|].
    intros r' [= <-]. simpl.
    assert (Hsel : ∀ d, d ∈ selectedDocs → d ∈ documents).
    { intros d Hd. unfold selectedDocs in Hd.
      by apply elem_of_List_filter in Hd as [_ ?]. }
    destruct (Hsrc r eq_refl) as [Hs|Hs]; rewrite Hs.
    + split; [|split].
      * intros s Hin.
        apply list_elem_of_In, in_map_iff in Hin as (d & <- & Hd).
        apply list_elem_of_In, in_map. apply list_elem_of_In, Hsel.
        by apply list_elem_of_In.
      * rewrite length_map. lia.
      * intros Hnd. pose proof (filter_by_names_length names documents Hnd).
        fold selectedDocs in H. lia.
    + split; [|split].
      * intros s Hin.
        apply list_elem_of_In, in_map_iff in Hin as (d & <- & Hd).
        apply list_elem_of_In, in_map. apply list_elem_of_In, Hsel.
        apply (slice0_sub selectedDocs 3). by apply list_elem_of_In.
      * rewrite length_map. unfold slice0. rewrite length_firstn.
        simpl. lia.
      * intros Hnd. pose proof (filter_by_names_length names documents Hnd).
        fold selectedDocs in H. lia.
  - exists ([selector_request query (map with_preview documents) 5] ++ reqs).
    rewrite app_assoc. split; [by rewrite Hlog|].
    split; [rewrite length_app; simpl; lia | done].
Qed.

(** ** The endpoint under a backend outage *)

Lemma fallback_selects_a_document (query : jsstring)
  (documents : list Document) :
  documents ≠ [] →
  List.filter
    (fun d => arr_includes
                (keyword_fallback query (map with_preview documents) 5)
                (filename d))
    documents ≠ [].
Proof.
  intros Hne.
  destruct (keyword_fallback query (map with_preview documents) 5)
    as [|f names] eqn:Hk.
  { exfalso. unfold keyword_fallback in Hk.
    apply map_eq_nil in Hk. revert Hk. apply slice0_nonempty; [lia|].
    intros Hs. apply (f_equal (@length _)) in Hs.
    rewrite scored_docs_length, length_map in Hs.
    by destruct documents. }
  assert (Hf : f ∈ map filename documents).
  { pose proof (keyword_fallback_sub query (map with_preview documents) 5 f)
      as H.
    rewrite Hk, map_map in H. simpl in H. apply H. left. }
  apply list_elem_of_In, in_map_iff in Hf as (d & Hd & Hin).
  intros Hnil.
  assert (Hmem : d ∈ List.filter
                   (fun d => arr_includes (f :: names) (filename d))
                   documents).
  { apply elem_of_List_filter. split; [|by apply list_elem_of_In].
    simpl. rewrite Hd. unfold str_eqb.
    by rewrite bool_decide_eq_true_2. }
  rewrite Hnil in Hmem. by apply elem_of_nil in Hmem.
Qed.

(** X13: when the backend aborts every call, an admitted, valid search
    that misses the cache is answered with status 504.  The aborted
    selection call does not end the request: the keyword ranking takes its
    place and the answer call is still made, over the documents the ranking
    named.  Exactly these two requests are sent, and nothing is stored in
    the cache. *)
Theorem backend_outage_is_a_timeout (key : option jsstring)
  (groq : list Request → Request → Reply)
  (JSON_parse : jsstring → option JSValue)
  (getDocuments : option jsstring → list Document * option jsstring)
  (generated : jsstring) (clock : Clock) (clientIp : jsstring)
  (body_query : option JSValue) (st : State) (remaining : Z)
  (store : gmap jsstring RateEntry) (q : jsstring)
  (documents : list Document) (version : option jsstring) :
  api_key_missing key = false →
  (∀ log req, ∃ e, groq log req = Rejected e
                   ∧ str_eqb (name e) (lit "AbortError") = true) →
  checkRateLimit (rateLimitNow clock) clientIp (rateLimitStore st)
  = (Allowed remaining, store) →
  valid_query body_query = Some q →
  str_length q ≤ MAX_QUERY_LENGTH →
  getDocuments (corpusVersion st) = (documents, version) →
  documents ≠ [] →
  omap_get (SearchCache.cache (cache st))
    (SearchCache.getKey (trim q) (current_version version generated))
  = None →
  let ranked :=
    List.filter
      (fun d => arr_includes
                  (keyword_fallback (trim q) (map with_preview documents) 5)
                  (filename d))
      documents in
  ranked ≠ []
  ∧ post_search key groq JSON_parse getDocuments generated clock clientIp
      body_query st
    = ({| status := 504;
          body := ErrorBody (lit "Request timeout")
                    (lit "The search took too long to complete. Please try again.")
                    None |},
       {| rateLimitStore := store; cache := cache st;
          corpusVersion := version;
          backend_log :=
            backend_log st
            ++ [selector_request (trim q) (map with_preview documents) 5;
                answer_request (trim q) ranked] |}).
Proof.
  intros Hkey Hout Hadm Hvalid Hshort Hload Hne Hmiss ranked.
  assert (Hranked : ranked ≠ []) by by apply fallback_selects_a_document.
  split; [done|].
  rewrite (post_search_miss key groq JSON_parse getDocuments generated clock
             clientIp body_query st remaining store q documents version)
    by done.
  unfold searchDocuments. rewrite Hkey.
  replace (Z.of_nat (length documents) =? 0) with false
    by (destruct documents; [done | reflexivity]).
  unfold bind.
  rewrite (selectRelevantDocuments_cases key groq JSON_parse Hkey)
    by by destruct documents.
  destruct (Hout (backend_log st)
              (selector_request (trim q) (map with_preview documents) 5))
    as (e1 & -> & _).
  fold ranked.
  set (log1 := backend_log st ++ _).
  destruct (Hout log1 (answer_request (trim q) ranked)) as (e2 & He2 & Hab).
  rewrite (generateAnswer_rejected key groq (trim q) ranked log1 e2)
    by done.
  rewrite Hab. unfold throw, log1. rewrite <- app_assoc. reflexivity.
Qed.

(** ** A repeated query *)

(** X14: after a search that missed the cache and was answered by the
    pipeline, a second admitted search whose trimmed query normalizes to
    the same text -- from any client, while the corpus and its version are
    the same -- is answered with the stored answer and sources, flagged as
    cached, and sends nothing to the backend. *)
Theorem repeated_query_is_served_from_cache (key : option jsstring)
  (groq : list Request → Request → Reply)
  (JSON_parse : jsstring → option JSValue)
  (getDocuments : option jsstring → list Document * option jsstring)
  (generated : jsstring) (clock1 clock2 : Clock) (ip1 ip2 : jsstring)
  (body1 body2 : option JSValue) (st : State) (remaining1 remaining2 : Z)
  (store1 store2 : gmap jsstring RateEntry) (q1 q2 : jsstring)
  (documents : list Document) (version : option jsstring)
  (result : CacheEntry) (log1 : list Request) :
  checkRateLimit (rateLimitNow clock1) ip1 (rateLimitStore st)
  = (Allowed remaining1, store1) →
  valid_query body1 = Some q1 →
  str_length q1 ≤ MAX_QUERY_LENGTH →
  getDocuments (corpusVersion st) = (documents, version) →
  documents ≠ [] →
  omap_get (SearchCache.cache (cache st))
    (SearchCache.getKey (trim q1) (current_version version generated))
  = None →
  searchDocuments key groq JSON_parse (trim q1) documents (backend_log st)
  = (Ok result, log1) →
  checkRateLimit (rateLimitNow clock2) ip2 store1
  = (Allowed remaining2, store2) →
  valid_query body2 = Some q2 →
  str_length q2 ≤ MAX_QUERY_LENGTH →
  getDocuments version = (documents, version) →
  SearchCache.normalizeQuery (trim q2) = SearchCache.normalizeQuery (trim q1) →
  let first := post_search key groq JSON_parse getDocuments generated clock1
                 ip1 body1 st in
  let second := post_search key groq JSON_parse getDocuments generated clock2
                  ip2 body2 (snd first) in
  fst first
  = {| status := 200;
       body := search_body (trim q1) result (Z.of_nat (length documents))
                 clock1 false |}
  ∧ fst second
    = {| status := 200;
         body := search_body (trim q2) result (Z.of_nat (length documents))
                   clock2 true |}
  ∧ backend_log (snd second) = log1.
Proof.
  intros Hadm1 Hv1 Hs1 Hload1 Hne Hmiss Hrun Hadm2 Hv2 Hs2 Hload2 Hnorm
    first second.
  set (st1 := {| rateLimitStore := store1;
                 cache := SearchCache.set (trim q1)
                            (current_version version generated)
                            result (cache st);
                 corpusVersion := version; backend_log := log1 |}).
  assert (Hfirst : first
                   = ({| status := 200;
                         body := search_body (trim q1) result
                                   (Z.of_nat (length documents)) clock1
                                   false |}, st1)).
  { unfold first.
    rewrite (post_search_miss key groq JSON_parse getDocuments generated
               clock1 ip1 body1 st remaining1 store1 q1 documents version)
      by done.
    by rewrite Hrun. }
  pose proof (post_search_hit key groq JSON_parse getDocuments generated
                clock2 ip2 body2 st1 remaining2 store2 q2 documents version
                Hadm2 Hv2 Hs2 Hload2 Hne result) as Hsecond.
  unfold second. rewrite Hfirst. simpl snd. rewrite Hsecond.
  - done.
  - unfold SearchCache.getKey. rewrite Hnorm.
    unfold st1, SearchCache.set. simpl. apply omap_get_set_eq.
Qed.

(** ** Turned-down requests and the admission window *)

Lemma post_search_turned_down (key : option jsstring)
  (groq : list Request → Request → Reply)
  (JSON_parse : jsstring → option JSValue)
  (getDocuments : option jsstring → list Document * option jsstring)
  (generated : jsstring) (clock : Clock) (clientIp : jsstring)
  (body_query : option JSValue) (st : State) (remaining : Z)
  (store : gmap jsstring RateEntry) :
  checkRateLimit (rateLimitNow clock) clientIp (rateLimitStore st)
  = (Allowed remaining, store) →
  turned_down body_query = true →
  ∃ resp,
    post_search key groq JSON_parse getDocuments generated clock clientIp
      body_query st
    = (resp, {| rateLimitStore := store; cache := cache st;
                corpusVersion := corpusVersion st;
                backend_log := backend_log st |})
    ∧ status resp = 400.
Proof.
  intros Hadm Hdown. unfold post_search. rewrite Hadm.
  unfold turned_down in Hdown.
  destruct (valid_query body_query) as [q|]; [|by eexists].
  rewrite Hdown. by eexists.
Qed.

Lemma checkRateLimit_denies (now : Z) (ip : jsstring)
  (store : gmap jsstring RateEntry) (prev : list Z) (bu : Z) :
  entry_of store ip
  = {| requests := prev; blocked := false; blockedUntil := bu |} →
  (∀ t, t ∈ prev → now - RATE_LIMIT_WINDOW_MS < t) →
  RATE_LIMIT_MAX_REQUESTS ≤ Z.of_nat (length prev) →
  checkRateLimit now ip store
  = (Denied 60 (lit "rate_limit"),
     <[ip := {| requests := prev; blocked := true;
                blockedUntil := now + RATE_LIMIT_WINDOW_MS |}]> store).
Proof.
  intros He Hwin Hlen. unfold checkRateLimit. unfold entry_of in He.
  rewrite He. simpl. rewrite filter_in_window by done.
  by rewrite geb_true by done.
Qed.

Lemma post_all_turned_down (key : option jsstring)
  (groq : list Request → Request → Reply)
  (JSON_parse : jsstring → option JSValue)
  (getDocuments : option jsstring → list Document * option jsstring)
  (generated : jsstring) (ip : jsstring)
  (reqs : list (Clock * option JSValue)) :
  ∀ st prev bu lo hi,
    entry_of (rateLimitStore st) ip
    = {| requests := prev; blocked := false; blockedUntil := bu |} →
    (∀ t, t ∈ prev → lo ≤ t) →
    (∀ r, r ∈ reqs →
          turned_down (snd r) = true ∧ lo ≤ rateLimitNow (fst r) ≤ hi) →
    hi < lo + RATE_LIMIT_WINDOW_MS →
    Z.of_nat (length prev + length reqs) ≤ RATE_LIMIT_MAX_REQUESTS →
    ∃ resps st',
      post_all key groq JSON_parse getDocuments generated ip reqs st
      = (resps, st')
      ∧ length resps = length reqs
      ∧ Forall (fun resp => status resp = 400) resps
      ∧ cache st' = cache st
      ∧ corpusVersion st' = corpusVersion st
      ∧ backend_log st' = backend_log st
      ∧ entry_of (rateLimitStore st') ip
        = {| requests := prev ++ map (fun r => rateLimitNow (fst r)) reqs;
             blocked := false; blockedUntil := bu |}.
Proof.
  induction reqs as [|r rest IH]; intros st prev bu lo hi He Hlo Hreqs Hspan
    Hlen.
  { exists [], st. simpl. rewrite app_nil_r. by repeat split. }
  destruct (Hreqs r) as [Hdown Ht]; [left|].
  assert (Hadm : checkRateLimit (rateLimitNow (fst r)) ip (rateLimitStore st)
                 = (Allowed (RATE_LIMIT_MAX_REQUESTS
                             - (Z.of_nat (length prev) + 1)),
                    <[ip := {| requests := prev ++ [rateLimitNow (fst r)];
                               blocked := false; blockedUntil := bu |}]>
                      (rateLimitStore st))).
  { apply checkRateLimit_admits; [done| |simpl in Hlen; lia].
    intros t Hin. specialize (Hlo t Hin). lia. }
  destruct (post_search_turned_down key groq JSON_parse getDocuments
              generated (fst r) ip (snd r) st _ _ Hadm Hdown)
    as (resp & Hpost & Hstatus).
  edestruct (IH {| rateLimitStore :=
                     <[ip := {| requests := prev ++ [rateLimitNow (fst r)];
                                blocked := false; blockedUntil := bu |}]>
                       (rateLimitStore st);
                   cache := cache st;
                   corpusVersion := corpusVersion st;
                   backend_log := backend_log st |}
               (prev ++ [rateLimitNow (fst r)]) bu lo hi)
    as (resps & st' & Hall & Hl & Hf & Hc & Hv & Hb & Hentry).
  - simpl. apply entry_of_insert.
  - intros t [Hin| ->%list_elem_of_singleton]%elem_of_app;
      [by apply Hlo | lia].
  - intros r' Hin. apply Hreqs. by right.
  - done.
  - rewrite length_app. simpl in *. lia.
  - exists (resp :: resps), st'. simpl. rewrite Hpost, Hall.
    rewrite <- app_assoc in Hentry.
    repeat split; try done.
    + simpl. by rewrite Hl.
    + by constructor.
Qed.

(** X15: requests the endpoint turns down for their query (none, not a
    string, blank, or longer than 2000 characters) still count against the
    client's window.  Ten of them from a new client within one window are
    each answered with status 400; after them any request of that client
    inside the window is answered with status 429, whatever its query.
    None of this reaches the backend or the cache. *)
Theorem turned_down_requests_use_up_the_window (key : option jsstring)
  (groq : list Request → Request → Reply)
  (JSON_parse : jsstring → option JSValue)
  (getDocuments : option jsstring → list Document * option jsstring)
  (generated : jsstring) (ip : jsstring)
  (reqs : list (Clock * option JSValue)) (st : State) (t1 t11 : Z) :
  rateLimitStore st !! ip = None →
  length reqs = 10%nat →
  (∀ r, r ∈ reqs →
        turned_down (snd r) = true ∧ t1 ≤ rateLimitNow (fst r) ≤ t11) →
  t11 < t1 + RATE_LIMIT_WINDOW_MS →
  ∃ resps st10,
    post_all key groq JSON_parse getDocuments generated ip reqs st
    = (resps, st10)
    ∧ length resps = 10%nat
    ∧ Forall (fun resp => status resp = 400) resps
    ∧ cache st10 = cache st
    ∧ backend_log st10 = backend_log st
    ∧ ∀ clock body_query,
        rateLimitNow clock < t1 + RATE_LIMIT_WINDOW_MS →
        let last := post_search key groq JSON_parse getDocuments generated
                      clock ip body_query st10 in
        status (fst last) = 429
        ∧ cache (snd last) = cache st
        ∧ backend_log (snd last) = backend_log st.
Proof.
  intros Hnew Hlen Hreqs Hspan.
  destruct (post_all_turned_down key groq JSON_parse getDocuments generated
              ip reqs st [] 0 t1 t11)
    as (resps & st10 & Hall & Hl & Hf & Hc & Hv & Hb & Hentry);
    try done.
  - unfold entry_of. by rewrite Hnew.
  - intros t Ht. by apply elem_of_nil in Ht.
  - simpl. rewrite Hlen. unfold RATE_LIMIT_MAX_REQUESTS. lia.
  - exists resps, st10. rewrite Hl, Hlen.
    repeat split; try done.
    all: unfold last, post_search.
    all: rewrite (checkRateLimit_denies _ _ _ _ _ Hentry);
      [done| |].
    all: try (rewrite length_app, length_map, Hlen;
              unfold RATE_LIMIT_MAX_REQUESTS; simpl; lia).
    all: intros t Ht; simpl in Ht;
      apply list_elem_of_In, in_map_iff in Ht as (r & <- & Hr);
      apply list_elem_of_In, Hreqs in Hr as [_ Hr]; lia.
Qed.

(* ================================================================== *)
(** * The extractors *)
(* ================================================================== *)

Import Extractors.

Lemma EXTRACTORS_keys (ext : jsstring) (x : Extractor) :
  EXTRACTORS ext = Some x →
  ext ∈ getSupportedExtensions
  ∧ ext = lit "." ++ remove_first_dot ext
  ∧ remove_first_dot ext ∈ [lit "txt"; lit "pdf"; lit "csv"; lit "pptx"].
Proof.
  unfold EXTRACTORS, str_eqb. intros H.
  repeat case_bool_decide; try discriminate; subst ext;
    (split; [|split]); try reflexivity;
    unfold getSupportedExtensions; set_solver.
Qed.

Lemma EXTRACTORS_complete (ext : jsstring) :
  ext ∈ getSupportedExtensions → ∃ x, EXTRACTORS ext = Some x.
Proof.
  unfold getSupportedExtensions. intros H.
  repeat (apply elem_of_cons in H as [->|H]; [by eexists|]).
  by apply elem_of_nil in H.
Qed.

Lemma run_extractor_trimmed (files : Files) (x : Extractor)
  (filePath content : jsstring) :
  run_extractor files x filePath = Fulfilled content → trim content = content.
Proof.
  destruct x; simpl.
  - destruct (readFile _ _); intros [= <-]. apply trim_idem.
  - destruct (pdfParse _ _); intros [= <-]. apply trim_idem.
  - destruct (csvStream _ _) as [h r| |]; intros [= <-]. apply trim_idem.
  - destruct (parseOffice _ _); intros [= <-]. apply trim_idem.
Qed.

Lemma run_extractor_uncaught (files : Files) (x : Extractor)
  (filePath : jsstring) (error : JSError) :
  run_extractor files x filePath = Uncaught error
  ↔ x = extractCsv ∧ csvStream files filePath = CsvReadError error.
Proof.
  destruct x; simpl.
  - destruct (readFile _ _); (split; [intros H | intros [H1 H2]]);
      congruence.
  - destruct (pdfParse _ _); (split; [intros H | intros [H1 H2]]);
      congruence.
  - destruct (csvStream _ _) as [h r|e|e];
      (split; [intros H | intros [H1 H2]]); try congruence.
    split; congruence.
  - destruct (parseOffice _ _); (split; [intros H | intros [H1 H2]]);
      congruence.
Qed.

(** X16: [isSupported], [getExtractor] and [extractContent] agree on what
    is supported: the four extensions, in any letter case.  An unsupported
    path is refused with the message that names its lowered extension and
    nothing is read.  A successful extraction gives as type the lowered
    extension without its dot, one of txt, pdf, csv and pptx, and a
    content without white space at either end.  An extraction neither
    succeeds nor is refused exactly when the path is a CSV file whose
    file stream emits an error: only the parser has a handler for one. *)
Theorem extraction_is_consistent (extname : jsstring → jsstring)
  (files : Files) (filePath : jsstring) :
  let ext := toLowerCase (extname filePath) in
  (isSupported extname filePath = true ↔ ext ∈ getSupportedExtensions)
  ∧ (isSupported extname filePath = true
     ↔ getExtractor extname filePath ≠ None)
  ∧ (isSupported extname filePath = false →
     extractContent extname files filePath
     = RejectedWith (Error (lit "Unsupported file type: " ++ ext)))
  ∧ (∀ content type,
       extractContent extname files filePath = Fulfilled (content, type) →
       isSupported extname filePath = true
       ∧ ext = lit "." ++ type
       ∧ type ∈ [lit "txt"; lit "pdf"; lit "csv"; lit "pptx"]
       ∧ trim content = content)
  ∧ (∀ error,
       extractContent extname files filePath = Uncaught error
       ↔ ext = lit ".csv" ∧ csvStream files filePath = CsvReadError error).
Proof.
  intros ext. unfold isSupported, extractContent, getExtractor. fold ext.
  split; [|split; [|split; [|split]]].
  - destruct (EXTRACTORS ext) as [x|] eqn:E.
    + split; [|done]. intros _. by destruct (EXTRACTORS_keys ext x E).
    + split; [done|]. intros [x Hx]%EXTRACTORS_complete. congruence.
  - by destruct (EXTRACTORS ext).
  - by destruct (EXTRACTORS ext).
  - intros content type. destruct (EXTRACTORS ext) as [x|] eqn:E; [|done].
    destruct (run_extractor files x filePath) as [c| |] eqn:R; [|done..].
    intros [= <- <-].
    destruct (EXTRACTORS_keys ext x E) as (_ & Hdot & Htype).
    repeat split; try done. by eapply run_extractor_trimmed.
  - intros error. destruct (EXTRACTORS ext) as [x|] eqn:E.
    + pose proof (run_extractor_uncaught files x filePath error) as Hu.
      assert (Hx : x = extractCsv ↔ ext = lit ".csv").
      { revert E. unfold EXTRACTORS, str_eqb.
        repeat case_bool_decide; intros [= <-];
          (split; intros H'; first
             [ done | discriminate H'
             | match goal with
               | H1 : ext = _ |- _ =>
                   rewrite H1 in H'; vm_compute in H'; discriminate H'
               end ]). }
      destruct (run_extractor files x filePath) as [c|e|e] eqn:R.
      * split; [done|]. intros [Hext Hcsv]. apply Hx in Hext.
        discriminate (proj2 Hu (conj Hext Hcsv)).
      * split; [done|]. intros [Hext Hcsv]. apply Hx in Hext.
        discriminate (proj2 Hu (conj Hext Hcsv)).
      * split.
        -- intros [= ->]. destruct (proj1 Hu eq_refl) as [Hcsv Hs].
           split; [by apply Hx | done].
        -- intros [Hext Hcsv]. apply Hx in Hext.
           by injection (proj2 Hu (conj Hext Hcsv)) as ->.
    + split; [done|]. intros [Hext _]. rewrite Hext in E. discriminate.
Qed.

(** ** The text of a CSV file *)

Lemma trimEnd_app_keeps (p s : jsstring) (c : ascii) :
  is_space c = false →
  trimEnd ((p ++ [c]) ++ s) = (p ++ [c]) ++ trimEnd s.
Proof.
  intros Hc. unfold trimEnd. rewrite !rev_app_distr. simpl.
  destruct (dropWhile is_space (rev s)) as [|h r] eqn:Hd.
  - assert (H : ∀ l : jsstring, dropWhile is_space l = [] →
                ∀ t, dropWhile is_space (l ++ t) = dropWhile is_space t).
    { clear. induction l as [|x l IH]; simpl; [done|].
      destruct (is_space x); [|done]. auto. }
    rewrite (H _ Hd). simpl. rewrite Hc. simpl.
    by rewrite rev_involutive, app_nil_r.
  - assert (H : ∀ l : jsstring, dropWhile is_space l ≠ [] →
                ∀ t, dropWhile is_space (l ++ t) = dropWhile is_space l ++ t).
    { clear. induction l as [|x l IH]; simpl; [done|].
      destruct (is_space x); [|done]. auto. }
    rewrite H by by rewrite Hd. rewrite Hd.
    rewrite rev_app_distr. simpl. by rewrite rev_involutive.
Qed.

Lemma trimStart_keeps (c : ascii) (s : jsstring) :
  is_space c = false → trimStart (c :: s) = c :: s.
Proof. intros Hc. unfold trimStart. simpl. by rewrite Hc. Qed.

Lemma trimEnd_nl : trimEnd nl = [].
Proof. reflexivity. Qed.

(** X17: the text of a CSV file keeps its heading lines as they are: the
    line of the column names (when there are any), an empty line and the
    line that counts the rows.  Trimming only removes white space at the
    end of the row lines, so the text is never empty; with no rows it
    consists of the heading lines alone. *)
Theorem csv_text_keeps_heading (headers : list jsstring)
  (rows : list Row) :
  let heading :=
    (if Z.of_nat (length headers) >? 0
     then lit "Columns: " ++ join (lit ", ") headers ++ nl ++ nl
     else [])
    ++ lit "Data (" ++ of_Z (Z.of_nat (length rows)) ++ lit " rows):" in
  csv_text headers rows = heading ++ trimEnd (nl ++ rows_text 0 rows)
  ∧ 0 < str_length (csv_text headers rows)
  ∧ (rows = [] → csv_text headers rows = heading).
Proof.
  intros heading.
  assert (Hshape : ∃ c p, heading = (p ++ [":"%char])
                          ∧ heading = c :: tl heading
                          ∧ is_space c = false).
  { unfold heading.
    destruct (Z.of_nat (length headers) >? 0).
    - exists "C"%char. eexists. split; [|split]; [|reflexivity..].
      change (lit " rows):") with (lit " rows)" ++ [":"%char]).
      rewrite !app_assoc. reflexivity.
    - exists "D"%char. eexists. split; [|split]; [|reflexivity..].
      change (lit " rows):") with (lit " rows)" ++ [":"%char]).
      rewrite !app_assoc. reflexivity. }
  destruct Hshape as (c & p & Hlast & Hfirst & Hc).
  assert (Heq : csv_text headers rows
                = heading ++ trimEnd (nl ++ rows_text 0 rows)).
  { unfold csv_text.
    replace ((if Z.of_nat (length headers) >? 0
              then lit "Columns: " ++ join (lit ", ") headers ++ nl ++ nl
              else [])
             ++ lit "Data (" ++ of_Z (Z.of_nat (length rows))
             ++ lit " rows):" ++ nl)
      with (heading ++ nl)
      by (unfold heading; by rewrite <- !app_assoc).
    rewrite <- app_assoc. unfold trim.
    rewrite Hfirst. rewrite <- app_comm_cons, trimStart_keeps by done.
    rewrite app_comm_cons, <- Hfirst, Hlast.
    by apply trimEnd_app_keeps. }
  split; [done|]. split.
  - rewrite Heq, Hfirst. unfold str_length. simpl. lia.
  - intros ->. rewrite Heq.
    change (rows_text 0 []) with (@nil ascii).
    rewrite (app_nil_r nl), trimEnd_nl. by rewrite app_nil_r.
Qed.

(* ================================================================== *)
(** * The document index and the corpus version *)
(* ================================================================== *)

Import DocumentIndex.

Lemma filter_filter_andb {A} (p q : A → bool) (l : list A) :
  List.filter q (List.filter p l) = List.filter (fun x => p x && q x) l.
Proof.
  induction l as [|x l IH]; simpl; [done|].
  destruct (p x); simpl; [|done]. destruct (q x); by rewrite IH.
Qed.

Lemma hanging_file (extname path_join : jsstring → jsstring) (w : World)
  (l : list jsstring) :
  Forall (fun f => hangs extname path_join w f = false) l →
  Exists (fun f => hangs extname path_join w f = true) l → False.
Proof.
  intros Hall (f & Hf & Hh)%Exists_exists.
  rewrite Forall_forall in Hall. specialize (Hall f Hf). congruence.
Qed.

Lemma index_loop_spec (extname path_join : jsstring → jsstring)
  (w : World) (supportedFiles : list jsstring) :
  ∀ (index : list IndexEntry) (documents : list Document),
    length documents = length index →
    match index_loop extname path_join w supportedFiles index with
    | Returns result =>
        Forall (fun f => hangs extname path_join w f = false) supportedFiles
        ∧ ∃ new,
            result = index ++ new
            ∧ load_loop extname path_join w supportedFiles documents
              = Returns
                  (documents ++ map (fun e => without_preview (entry e)) new)
            ∧ map (fun e => filename (entry e)) new
              = List.filter (extracts extname path_join w) supportedFiles
            ∧ map (fun e => id (entry e)) new
              = map (fun k => Z.of_nat (length index + k))
                  (seq 1 (length new))
            ∧ Forall (recorded extname path_join w) new
    | Dies error =>
        load_loop extname path_join w supportedFiles documents = Dies error
        ∧ ∃ before file after,
            supportedFiles = before ++ file :: after
            ∧ Forall (fun f => hangs extname path_join w f = false) before
            ∧ extractContent extname (files w) (path_join file)
              = Uncaught error
    end.
Proof.
  induction supportedFiles as [|file rest IH]; intros index documents Hlen.
  { simpl. split; [constructor|]. exists []. simpl. rewrite !app_nil_r.
    repeat split; done. }
  simpl. unfold extracts at 1.
  destruct (extractContent extname (files w) (path_join file))
    as [[content type]|error|error] eqn:Hx.
  - set (e := {| entry :=
                   {| id := Z.of_nat (length index) + 1; filename := file;
                      filetype := type; content := content;
                      contentPreview := Some (substring content 0 350) |};
                 contentLength := str_length content |}).
    set (d := {| id := Z.of_nat (length documents) + 1; filename := file;
                 filetype := type; content := content;
                 contentPreview := None |}).
    assert (Hlen' : length (documents ++ [d]) = length (index ++ [e]))
      by (by rewrite !length_app, Hlen).
    specialize (IH (index ++ [e]) (documents ++ [d]) Hlen').
    destruct (index_loop extname path_join w rest (index ++ [e]))
      as [result|err].
    + destruct IH as (Hall & new & Hi & Hl & Hn & Hid & Hrec).
      split; [constructor; [unfold hangs; by rewrite Hx | done]|].
      exists (e :: new). rewrite Hi, Hl, <- !app_assoc.
      split; [reflexivity|]. split.
      { simpl. unfold d, without_preview at 1. simpl. by rewrite Hlen. }
      split; [simpl; by rewrite Hn|]. split.
      * simpl. f_equal; [lia|].
        rewrite Hid, <- (seq_shift (length new) 1), map_map.
        apply map_ext. intros k. rewrite length_app. simpl. f_equal. lia.
      * constructor; [|done]. unfold recorded. simpl. by rewrite Hx.
    + destruct IH as (Hl & before & f & after & Hs & Hall & Hu).
      split; [done|]. exists (file :: before), f, after.
      split; [by rewrite Hs|]. split; [|done].
      constructor; [unfold hangs; by rewrite Hx | done].
  - specialize (IH index documents Hlen).
    destruct (index_loop extname path_join w rest index) as [result|err].
    + destruct IH as (Hall & new & Hi & Hl & Hn & Hid & Hrec).
      split; [constructor; [unfold hangs; by rewrite Hx | done]|].
      by exists new.
    + destruct IH as (Hl & before & f & after & Hs & Hall & Hu).
      split; [done|]. exists (file :: before), f, after.
      split; [by rewrite Hs|]. split; [|done].
      constructor; [unfold hangs; by rewrite Hx | done].
  - split; [done|]. exists [], file, rest. by repeat split.
Qed.

(** X18: when a CSV file of the directory cannot be read, its stream
    emits an error that [extractCsv] does not handle, and neither
    [buildDocumentIndex] nor [loadDocumentsFromFilesystem] returns: the
    loop stops for ever at the first such file among the supported ones.
    Otherwise both return.  The index then holds, in the order of the
    directory listing, exactly the supported files whose extraction
    succeeds; a file whose extraction is rejected is skipped and leaves no
    gap: the ids are 1, 2, ... in that order.  Each entry carries the
    extracted content and type, the first 350 characters as preview and
    the length of the content.  [loadDocumentsFromFilesystem] yields the
    same documents without the previews.  When the directory cannot be
    listed both are empty. *)
Theorem index_lists_extracted_files (extname path_join : jsstring → jsstring)
  (number_toString : float → jsstring) (w : World) (st : IndexState) :
  let supported := List.filter (isSupported extname) (listed w) in
  match buildDocumentIndex extname path_join number_toString w st with
  | Returns (index, _) =>
      Forall (fun f => hangs extname path_join w f = false) supported
      ∧ map (fun e => filename (entry e)) index
        = List.filter
            (fun f => isSupported extname f && extracts extname path_join w f)
            (listed w)
      ∧ map (fun e => id (entry e)) index
        = map Z.of_nat (seq 1 (length index))
      ∧ Forall (recorded extname path_join w) index
      ∧ loadDocumentsFromFilesystem extname path_join w
        = Returns (map (fun e => without_preview (entry e)) index)
  | Dies error =>
      loadDocumentsFromFilesystem extname path_join w = Dies error
      ∧ ∃ before file after,
          supported = before ++ file :: after
          ∧ Forall (fun f => hangs extname path_join w f = false) before
          ∧ extractContent extname (files w) (path_join file)
            = Uncaught error
  end.
Proof.
  unfold buildDocumentIndex, read_index, loadDocumentsFromFilesystem, listed.
  destruct (listing w) as [all|code error]; simpl;
    [|by repeat split].
  pose proof (index_loop_spec extname path_join w
                (List.filter (isSupported extname) all) [] [] eq_refl)
    as Hspec.
  destruct (index_loop extname path_join w
              (List.filter (isSupported extname) all) []) as [index|error].
  - destruct Hspec as (Hall & new & Hi & Hl & Hn & Hid & Hrec).
    simpl in Hi, Hl, Hid. subst new. rewrite Hl.
    split; [done|]. split; [by rewrite Hn, filter_filter_andb|]. done.
  - done.
Qed.

Lemma generateCorpusVersion_set (extname path_join : jsstring → jsstring)
  (number_toString : float → jsstring) (w : World) :
  version_set
    (Some (generateCorpusVersion extname path_join number_toString w))
  = true.
Proof.
  unfold version_set, generateCorpusVersion.
  apply negb_true_iff, Z.eqb_neq. unfold str_length.
  destruct (listing w) as [all|code error].
  - destruct (_ =? 0); [done|].
    destruct (latest_loop _ _ _ _); rewrite !length_app; simpl; lia.
  - rewrite length_app. simpl. lia.
Qed.

(** ** The versions hold no colon *)

Lemma pretty_N_go_no_colon (x : N) :
  ∀ s, ":"%char ∉ lit s → ":"%char ∉ lit (pretty_N_go x s).
Proof.
  induction (N.lt_wf_0 x) as [x _ IH]. intros s Hs.
  assert (x = 0 ∨ 0 < x)%N as [->|Hx] by lia; [by rewrite pretty_N_go_0|].
  rewrite pretty_N_go_step by done. apply IH; [by apply N.div_lt|].
  unfold lit. simpl. apply not_elem_of_cons. split; [|done].
  unfold pretty_N_char. by repeat case_match.
Qed.

Lemma of_Z_no_colon (z : Z) : ":"%char ∉ of_Z z.
Proof.
  assert (HN : ∀ p, ":"%char ∉ lit (pretty (Npos p))).
  { intros p. unfold pretty, pretty_N. case_decide; [done|].
    apply pretty_N_go_no_colon. apply not_elem_of_nil. }
  unfold of_Z. destruct z as [|p|p].
  - apply (bool_decide_unpack _). vm_compute. exact I.
  - apply HN.
  - change (":"%char ∉ "-"%char :: lit (pretty (Npos p))).
    apply not_elem_of_cons. split; [done | apply HN].
Qed.

Lemma lit_no_colon (s : string) :
  bool_decide (":"%char ∉ lit s) = true → ":"%char ∉ lit s.
Proof. apply bool_decide_eq_true_1. Qed.

(** The versions that the routes write -- [empty], the count and the
    latest modification time, [error-] and the time, [db-], the count and
    the time -- hold no colon, the text of a number holding none: the
    pairs of a normalized query and such a version have distinct cache
    keys. *)
Lemma written_versions_hold_no_colon
  (extname path_join : jsstring → jsstring)
  (number_toString : float → jsstring) :
  (∀ x, ":"%char ∉ number_toString x) →
  (∀ w, ":"%char
        ∉ generateCorpusVersion extname path_join number_toString w)
  ∧ (∀ docs now version v,
       (∀ v0, version = Some v0 → ":"%char ∉ v0) →
       snd (database_loader docs now version) = Some v →
       ":"%char ∉ v)
  ∧ (∀ q1 v1 q2 v2 w1 w2,
       v1 = generateCorpusVersion extname path_join number_toString w1 →
       v2 = generateCorpusVersion extname path_join number_toString w2 →
       SearchCache.getKey q1 v1 = SearchCache.getKey q2 v2 →
       SearchCache.normalizeQuery q1 = SearchCache.normalizeQuery q2
       ∧ v1 = v2).
Proof.
  intros Hnum.
  assert (Hgen : ∀ w, ":"%char
                      ∉ generateCorpusVersion extname path_join
                          number_toString w).
  { intros w. unfold generateCorpusVersion.
    assert (Herr : ":"%char ∉ lit "error-" ++ of_Z (date_now w)).
    { apply not_elem_of_app. split; [by apply lit_no_colon|].
      apply of_Z_no_colon. }
    destruct (listing w) as [all|code error]; [|done].
    destruct (_ =? 0); [by apply lit_no_colon|].
    destruct (latest_loop _ _ _ _); [|done].
    apply not_elem_of_app. split; [apply of_Z_no_colon|].
    apply not_elem_of_app. split; [by apply lit_no_colon | apply Hnum]. }
  split; [done|]. split.
  - intros docs now version v Hv. unfold database_loader. cbn [snd].
    destruct (version_set version); [by apply Hv|].
    intros [= <-].
    change (":"%char ∉ lit "db-" ++ of_Z (Z.of_nat (length docs))
                       ++ lit "-" ++ of_Z now).
    apply not_elem_of_app. split; [by apply lit_no_colon|].
    apply not_elem_of_app. split; [apply of_Z_no_colon|].
    apply not_elem_of_app. split; [by apply lit_no_colon|].
    apply of_Z_no_colon.
  - intros q1 v1 q2 v2 w1 w2 -> -> Hk. by apply getKey_inj.
Qed.

Lemma version_set_current (version : option jsstring)
  (generated : jsstring) :
  version_set version = true →
  Some (current_version version generated) = version.
Proof.
  unfold version_set, current_version.
  destruct version as [v|]; [|done].
  by destruct (str_length v =? 0).
Qed.

Lemma version_unset_current (version : option jsstring)
  (generated : jsstring) :
  version_set version = false →
  current_version version generated = generated.
Proof.
  unfold version_set, current_version.
  destruct version as [v|]; [|done].
  by destruct (str_length v =? 0).
Qed.

Lemma database_loader_set (docs : list Document) (now : Z)
  (version : option jsstring) :
  version_set (snd (database_loader docs now version)) = true.
Proof.
  unfold database_loader. cbn [snd].
  destruct (version_set version) eqn:Hv; [done|].
  unfold version_set. apply negb_true_iff, Z.eqb_neq. unfold str_length.
  rewrite !length_app. simpl. lia.
Qed.

Lemma buildDocumentIndex_versioned (extname path_join : jsstring → jsstring)
  (number_toString : float → jsstring) (w : World) (st : IndexState)
  (r : list IndexEntry * IndexState) :
  versioned st →
  buildDocumentIndex extname path_join number_toString w st = Returns r →
  versioned (snd r).
Proof.
  unfold buildDocumentIndex. intros Hst.
  destruct (read_index extname path_join w) as [[index|]|error];
    intros [= <-]; [|done].
  apply generateCorpusVersion_set.
Qed.

Lemma getIndexedDocuments_versioned (extname path_join : jsstring → jsstring)
  (number_toString : float → jsstring) (w : World) (st : IndexState)
  (r : list IndexEntry * IndexState) :
  versioned st →
  getIndexedDocuments extname path_join number_toString w st = Returns r →
  versioned (snd r)
  ∧ (fst r ≠ [] → version_set (corpusVersion (snd r)) = true).
Proof.
  unfold getIndexedDocuments. intros Hst.
  destruct (documentIndex st) as [index|] eqn:Hidx.
  - intros [= <-]. split; [done|]. intros _. unfold versioned in Hst.
    by rewrite Hidx in Hst.
  - destruct (buildDocumentIndex extname path_join number_toString w st)
      as [[i st']|error] eqn:Hb; intros [= <-].
    pose proof (buildDocumentIndex_versioned _ _ _ _ _ _ Hst Hb) as Hv.
    simpl in Hv. split; [done|]. simpl. unfold versioned in Hv.
    by destruct (documentIndex st').
Qed.

Lemma fallback_when_no_rows (extname path_join : jsstring → jsstring)
  (number_toString : float → jsstring) (w : World) (st : IndexState) :
  db_documents w = [] →
  getDocumentsWithFallback extname path_join number_toString w st
  = match getIndexedDocuments extname path_join number_toString w st with
    | Returns (index, st') => Returns (map entry index, st')
    | Dies error => Dies error
    end.
Proof.
  unfold db_documents, getDocumentsWithFallback. intros Hdb.
  destruct (database w) as [docs|error]; [|done]. by subst docs.
Qed.

Lemma getIndexedDocuments_cached (extname path_join : jsstring → jsstring)
  (number_toString : float → jsstring) (w : World) (st : IndexState)
  (index : list IndexEntry) :
  documentIndex st = Some index →
  getIndexedDocuments extname path_join number_toString w st
  = Returns (index, st).
Proof. intros H. unfold getIndexedDocuments. by rewrite H. Qed.

Lemma getIndexedDocuments_fresh (extname path_join : jsstring → jsstring)
  (number_toString : float → jsstring) (w : World) (st : IndexState) :
  documentIndex st = None →
  getIndexedDocuments extname path_join number_toString w st
  = match listing w with
    | Listed _ => buildDocumentIndex extname path_join number_toString w st
    | ListingFails _ _ => Returns ([], st)
    end.
Proof.
  intros H. unfold getIndexedDocuments, buildDocumentIndex, read_index.
  rewrite H. destruct (listing w); simpl; [|by rewrite H].
  by destruct (index_loop _ _ _ _ _).
Qed.

(** X19: the index and the corpus version are set by two assignments with
    a wait between them.  Between requests that run one at a time the
    index is never set without a version: this holds when the module is
    loaded and is kept by every function that writes the two variables
    and returns, and then a search that finds a document finds the version
    set and uses it as it is.  But when [buildDocumentIndex] starts with no
    version set -- at the start of the server and after every
    invalidation -- the state between its two assignments has the index
    without a version: a search that runs then and finds no rows in the
    database is given the documents of the new index, leaves the state as
    it is, and looks up the cache under the version that the route
    generates itself.  The second assignment restores the pairing. *)
Theorem index_has_a_version (extname path_join : jsstring → jsstring)
  (number_toString : float → jsstring) (w : World) (st : IndexState) :
  versioned st →
  (∀ r,
     getDocumentsWithFallback extname path_join number_toString w st
     = Returns r →
     versioned (snd r)
     ∧ (fst r ≠ [] →
        version_set (corpusVersion (snd r)) = true
        ∧ ∀ generated,
            Some (current_version (corpusVersion (snd r)) generated)
            = corpusVersion (snd r)))
  ∧ (∀ r,
       getIndexedDocuments extname path_join number_toString w st
       = Returns r →
       versioned (snd r))
  ∧ (∀ r,
       buildDocumentIndex extname path_join number_toString w st
       = Returns r →
       versioned (snd r))
  ∧ versioned (invalidateDocumentIndex st)
  ∧ (∀ r,
       index_rebuild extname path_join number_toString w st = Returns r →
       versioned (snd r))
  ∧ (∀ index,
       read_index extname path_join w = Returns (Some index) →
       version_set (corpusVersion st) = false →
       let gap := assign_index index (date_now w) st in
       ¬ versioned gap
       ∧ (∀ w', db_documents w' = [] →
            getDocumentsWithFallback extname path_join number_toString w' gap
            = Returns (map entry index, gap))
       ∧ (∀ generated,
            current_version (corpusVersion gap) generated = generated)
       ∧ (∀ key groq JSON_parse clock ip body rst remaining store q
            generated found,
            index ≠ [] →
            SearchRoutes.corpusVersion rst = corpusVersion gap →
            checkRateLimit (rateLimitNow clock) ip (rateLimitStore rst)
            = (Allowed remaining, store) →
            valid_query body = Some q →
            str_length q ≤ MAX_QUERY_LENGTH →
            omap_get (SearchCache.cache (cache rst))
              (SearchCache.getKey (trim q) generated) = Some found →
            fst (post_search key groq JSON_parse
                   (fun version => (map entry index, version)) generated
                   clock ip body rst)
            = {| status := 200;
                 body := search_body (trim q) found
                           (Z.of_nat (length index)) clock true |})
       ∧ (∀ w', versioned
                  (assign_version
                     (generateCorpusVersion extname path_join
                        number_toString w') gap))
       ∧ buildDocumentIndex extname path_join number_toString w st
         = Returns
             (index,
              assign_version
                (generateCorpusVersion extname path_join number_toString w)
                gap)).
Proof.
  intros Hst.
  assert (Hbuild : ∀ st0 r, versioned st0 →
            buildDocumentIndex extname path_join number_toString w st0
            = Returns r → versioned (snd r)).
  { intros st0 r H0. by apply buildDocumentIndex_versioned. }
  split; [|split; [|split; [|split; [|split]]]].
  - intros r. unfold getDocumentsWithFallback.
    assert (Hfb : match getIndexedDocuments extname path_join
                          number_toString w st with
                  | Returns (index, st') => Returns (map entry index, st')
                  | Dies error => Dies error
                  end = Returns r →
                  versioned (snd r)
                  ∧ (fst r ≠ [] →
                     version_set (corpusVersion (snd r)) = true
                     ∧ ∀ generated,
                         Some (current_version (corpusVersion (snd r))
                                 generated)
                         = corpusVersion (snd r))).
    { destruct (getIndexedDocuments extname path_join number_toString w st)
        as [[index st']|error] eqn:Hg; intros [= <-].
      destruct (getIndexedDocuments_versioned _ _ _ _ _ _ Hst Hg)
        as [Hv Hne]. simpl in Hv, Hne. simpl.
      split; [done|]. intros Hmap.
      assert (Hset : version_set (corpusVersion st') = true)
        by (apply Hne; by destruct index).
      split; [done|]. intros generated. by apply version_set_current. }
    destruct (database w) as [docs|error]; [|done].
    destruct (Z.of_nat (length docs) >? 0); [|done].
    intros [= <-]. cbn [fst snd].
    pose proof (database_loader_set docs (date_now w) (corpusVersion st))
      as Hset.
    split.
    + unfold versioned. cbn [documentIndex corpusVersion].
      by destruct (documentIndex st).
    + intros _. cbn [corpusVersion]. split; [done|].
      intros generated. by apply version_set_current.
  - intros r Hr.
    by destruct (getIndexedDocuments_versioned _ _ _ _ _ _ Hst Hr).
  - intros r. by apply Hbuild.
  - done.
  - intros r. unfold index_rebuild.
    destruct (buildDocumentIndex extname path_join number_toString w
                (invalidateDocumentIndex st)) as [[docs st']|error] eqn:Hb;
      intros [= <-].
    apply (Hbuild (invalidateDocumentIndex st) (docs, st')); done.
  - intros index Hread Hunset gap.
    split; [|split; [|split; [|split; [|split]]]].
    + unfold versioned, gap. simpl. by rewrite Hunset.
    + intros w' Hdb. rewrite fallback_when_no_rows by done.
      by rewrite (getIndexedDocuments_cached _ _ _ _ gap index).
    + intros generated. by apply version_unset_current.
    + intros key groq JSON_parse clock ip body rst remaining store q
        generated found Hne Hrst Hadm Hvalid Hshort Hfound.
      rewrite (post_search_hit key groq JSON_parse
                 (fun version => (map entry index, version)) generated
                 clock ip body rst remaining store q (map entry index)
                 (SearchRoutes.corpusVersion rst) Hadm Hvalid Hshort eq_refl
                 (ltac:(by destruct index)) found).
      * simpl. by rewrite length_map.
      * rewrite Hrst. by rewrite version_unset_current.
    + intros w'. apply generateCorpusVersion_set.
    + unfold buildDocumentIndex. by rewrite Hread.
Qed.

(** X20: without rows in the database the documents are read from the
    directory once.  After a request that returned and could list the
    directory, a later request finds the same documents and leaves the
    state as it is, whatever the directory then holds; only after
    [invalidateDocumentIndex] is the directory read again, and the request
    ends as a build of the index from that directory ends.  A request
    that could not list the directory leaves no index behind, so the next
    one reads again. *)
Theorem index_is_kept_until_invalidated
  (extname path_join : jsstring → jsstring)
  (number_toString : float → jsstring) (w1 w2 : World) (st : IndexState)
  (first : list Document * IndexState) :
  documentIndex st = None →
  db_documents w1 = [] →
  db_documents w2 = [] →
  let load := getDocumentsWithFallback extname path_join number_toString in
  load w1 st = Returns first →
  match listing w1 with
  | Listed _ => load w2 (snd first) = Returns first
  | ListingFails _ _ => first = ([], st)
  end
  ∧ match buildDocumentIndex extname path_join number_toString w2 st with
    | Returns (index, _) =>
        ∃ st', load w2 (invalidateDocumentIndex (snd first))
               = Returns (map entry index, st')
    | Dies error =>
        load w2 (invalidateDocumentIndex (snd first)) = Dies error
    end.
Proof.
  intros Hnone Hdb1 Hdb2 load. unfold load.
  rewrite !(fallback_when_no_rows _ _ _ w1) by done.
  rewrite !(fallback_when_no_rows _ _ _ w2) by done.
  rewrite (getIndexedDocuments_fresh _ _ _ w1 st Hnone).
  intros Hfirst. split.
  - destruct (listing w1) as [all|code error] eqn:Hl;
      [|by injection Hfirst as <-].
    unfold buildDocumentIndex, read_index in Hfirst. rewrite Hl in Hfirst.
    destruct (index_loop extname path_join w1 _ []) as [index|error];
      [|done].
    injection Hfirst as <-. cbn [fst snd].
    by erewrite getIndexedDocuments_cached.
  - rewrite (getIndexedDocuments_fresh _ _ _ w2) by done.
    unfold buildDocumentIndex, read_index.
    destruct (listing w2); [|by eexists].
    destruct (index_loop extname path_join w2 _ []) as [index|error];
      [by eexists | done].
Qed.

Lemma database_loader_kept (docs : list Document) (now : Z)
  (version : option jsstring) :
  version_set version = true →
  database_loader docs now version = (docs, version).
Proof. intros Hv. unfold database_loader. by rewrite Hv. Qed.

Lemma fallback_database (extname path_join : jsstring → jsstring)
  (number_toString : float → jsstring) (w : World) (st : IndexState)
  (docs : list Document) :
  database w = Ok docs → docs ≠ [] →
  getDocumentsWithFallback extname path_join number_toString w st
  = Returns
      (fst (database_loader docs (date_now w) (corpusVersion st)),
       {| documentIndex := documentIndex st;
          indexLastUpdated := indexLastUpdated st;
          corpusVersion :=
            snd (database_loader docs (date_now w) (corpusVersion st)) |}).
Proof.
  intros Hdb Hne. unfold getDocumentsWithFallback. rewrite Hdb.
  replace (Z.of_nat (length docs) >? 0) with true
    by (destruct docs; [done | reflexivity]).
  reflexivity.
Qed.

(** X21: while the database holds documents, [getDocumentsWithFallback]
    returns its rows and leaves the index as it is, and the corpus version
    is set at the first search and follows neither the rows nor the
    clock.  So after a search that the pipeline answered, a later search
    whose trimmed query normalizes to the same text is answered from the
    cache with the answer made from the earlier rows, although the
    database now holds other rows; only the count of searched documents is
    the new one.  Nothing is sent to the backend. *)
Theorem database_changes_go_unnoticed (key : option jsstring)
  (groq : list Request → Request → Reply)
  (JSON_parse : jsstring → option JSValue)
  (extname path_join : jsstring → jsstring)
  (number_toString : float → jsstring) (w1 w2 : World)
  (index : option (list IndexEntry)) (updated : option Z)
  (clock1 clock2 : Clock) (ip1 ip2 : jsstring)
  (body1 body2 : option JSValue) (st : State) (remaining1 remaining2 : Z)
  (store1 store2 : gmap jsstring RateEntry) (q1 q2 : jsstring)
  (docs1 docs2 : list Document) (result : CacheEntry)
  (log1 : list Request) :
  let load1 := database_loader docs1 (date_now w1) in
  let load2 := database_loader docs2 (date_now w2) in
  let generated w :=
    generateCorpusVersion extname path_join number_toString w in
  let version := snd (load1 (SearchRoutes.corpusVersion st)) in
  database w1 = Ok docs1 → docs1 ≠ [] →
  database w2 = Ok docs2 → docs2 ≠ [] →
  checkRateLimit (rateLimitNow clock1) ip1 (rateLimitStore st)
  = (Allowed remaining1, store1) →
  valid_query body1 = Some q1 →
  str_length q1 ≤ MAX_QUERY_LENGTH →
  omap_get (SearchCache.cache (cache st))
    (SearchCache.getKey (trim q1) (current_version version (generated w1)))
  = None →
  searchDocuments key groq JSON_parse (trim q1) docs1 (backend_log st)
  = (Ok result, log1) →
  checkRateLimit (rateLimitNow clock2) ip2 store1
  = (Allowed remaining2, store2) →
  valid_query body2 = Some q2 →
  str_length q2 ≤ MAX_QUERY_LENGTH →
  SearchCache.normalizeQuery (trim q2) = SearchCache.normalizeQuery (trim q1) →
  let first := post_search key groq JSON_parse load1 (generated w1)
                 clock1 ip1 body1 st in
  let second := post_search key groq JSON_parse load2 (generated w2)
                  clock2 ip2 body2 (snd first) in
  (∀ v,
     getDocumentsWithFallback extname path_join number_toString w1
       {| documentIndex := index; indexLastUpdated := updated;
          corpusVersion := v |}
     = Returns
         (fst (load1 v),
          {| documentIndex := index; indexLastUpdated := updated;
             corpusVersion := snd (load1 v) |}))
  ∧ (∀ v,
       getDocumentsWithFallback extname path_join number_toString w2
         {| documentIndex := index; indexLastUpdated := updated;
            corpusVersion := v |}
       = Returns
           (fst (load2 v),
            {| documentIndex := index; indexLastUpdated := updated;
               corpusVersion := snd (load2 v) |}))
  ∧ fst second
    = {| status := 200;
         body := search_body (trim q2) result (Z.of_nat (length docs2))
                   clock2 true |}
  ∧ backend_log (snd second) = log1
  ∧ SearchRoutes.corpusVersion (snd second) = version.
Proof.
  intros load1 load2 generated version Hdb1 Hne1 Hdb2 Hne2 Hadm1 Hv1 Hs1
    Hmiss Hrun Hadm2 Hv2 Hs2 Hnorm first second.
  split; [intros v; by apply fallback_database|].
  split; [intros v; by apply fallback_database|].
  assert (Hset : version_set version = true)
    by apply database_loader_set.
  assert (Hl1 : load1 (SearchRoutes.corpusVersion st) = (docs1, version))
    by reflexivity.
  assert (Hload2 : load2 version = (docs2, version))
    by (by apply database_loader_kept).
  set (st1 := {| rateLimitStore := store1;
                 cache := SearchCache.set (trim q1)
                            (current_version version (generated w1))
                            result (cache st);
                 SearchRoutes.corpusVersion := version;
                 backend_log := log1 |}).
  assert (Hfirst : snd first = st1).
  { unfold first.
    rewrite (post_search_miss key groq JSON_parse load1 (generated w1)
               clock1 ip1 body1 st remaining1 store1 q1 docs1 version)
      by done.
    by rewrite Hrun. }
  assert (Hcur : current_version version (generated w2)
                 = current_version version (generated w1)).
  { pose proof (version_set_current version (generated w1) Hset) as H1.
    pose proof (version_set_current version (generated w2) Hset) as H2.
    congruence. }
  pose proof (post_search_hit key groq JSON_parse load2 (generated w2)
                clock2 ip2 body2 st1 remaining2 store2 q2 docs2 version
                Hadm2 Hv2 Hs2 Hload2 Hne2 result) as Hsecond.
  unfold second. rewrite Hfirst, Hsecond.
  - done.
  - rewrite Hcur. unfold SearchCache.getKey. rewrite Hnorm.
    unfold st1, SearchCache.set. simpl. apply omap_get_set_eq.
Qed.

(** ** The ingestion *)

Lemma extractContent_row (extname : jsstring → jsstring) (files : Files)
  (filePath content type : jsstring) :
  extractContent extname files filePath = Fulfilled (content, type) →
  trim content = content
  ∧ type ∈ [lit "txt"; lit "pdf"; lit "csv"; lit "pptx"].
Proof.
  unfold extractContent, getExtractor.
  destruct (EXTRACTORS _) as [x|] eqn:E; [|done].
  destruct (run_extractor files x filePath) as [c| |] eqn:R; [|done..].
  intros [= <- <-]. destruct (EXTRACTORS_keys _ x E) as (_ & _ & Htype).
  split; [by eapply run_extractor_trimmed | done].
Qed.

Lemma ingest_loop_spec (extname path_join basename : jsstring → jsstring)
  (w : World) (pool : Pool) (supported : list jsstring) :
  ∀ acc table,
    match ingest_loop extname basename w pool (map path_join supported)
            acc table with
    | (Returns r, table') =>
        Forall (fun f => hangs extname path_join w f = false) supported
        ∧ ∃ rows,
            table' = table ++ rows
            ∧ processedFiles r = processedFiles acc ++ map row_filename rows
            ∧ success r = success acc + Z.of_nat (length rows)
            ∧ success r + failed r
              = success acc + failed acc + Z.of_nat (length supported)
            ∧ Forall well_formed_row rows
    | (Dies error, table') =>
        ∃ before file after rows,
          supported = before ++ file :: after
          ∧ Forall (fun f => hangs extname path_join w f = false) before
          ∧ extractContent extname (files w) (path_join file)
            = Uncaught error
          ∧ table' = table ++ rows
          ∧ sublist (map row_filename rows)
              (map (fun f => basename (path_join f)) before)
          ∧ Forall well_formed_row rows
    end.
Proof.
  induction supported as [|file rest IH]; intros acc table.
  { simpl. split; [constructor|]. exists []. simpl. rewrite !app_nil_r.
    repeat split; try lia. done. }
  simpl.
  destruct (extractContent extname (files w) (path_join file))
    as [[content type]|error|error] eqn:Hx.
  - destruct (insert pool _ table) as [error|] eqn:Hins.
    + specialize (IH {| success := success acc; failed := failed acc + 1;
                        processedFiles := processedFiles acc |} table).
      destruct (ingest_loop extname basename w pool (map path_join rest) _
                  table) as [[r|err] table'].
      * destruct IH as (Hall & rows & Ht & Hp & Hs & Hsum & Hwf).
        split; [constructor; [unfold hangs; by rewrite Hx | done]|].
        exists rows. simpl in *. repeat split; try done. lia.
      * destruct IH as (before & f & after & rows & Hsp & Hall & Hu & Ht
                        & Hsub & Hwf).
        exists (file :: before), f, after, rows.
        split; [by rewrite Hsp|].
        split; [constructor; [unfold hangs; by rewrite Hx | done]|].
        repeat split; try done. simpl. by apply sublist_cons.
    + set (row := {| row_filename := basename (path_join file);
                     row_filetype := type; row_content := content |}).
      specialize (IH {| success := success acc + 1; failed := failed acc;
                        processedFiles := processedFiles acc
                                          ++ [basename (path_join file)] |}
                    (table ++ [row])).
      destruct (ingest_loop extname basename w pool (map path_join rest) _
                  (table ++ [row])) as [[r|err] table'].
      * destruct IH as (Hall & rows & Ht & Hp & Hs & Hsum & Hwf).
        split; [constructor; [unfold hangs; by rewrite Hx | done]|].
        exists (row :: rows). simpl in *.
        rewrite Ht, Hp, <- !app_assoc. repeat split; try done; try lia.
        constructor; [|done]. by eapply extractContent_row.
      * destruct IH as (before & f & after & rows & Hsp & Hall & Hu & Ht
                        & Hsub & Hwf).
        exists (file :: before), f, after, (row :: rows).
        split; [by rewrite Hsp|].
        split; [constructor; [unfold hangs; by rewrite Hx | done]|].
        split; [done|]. split; [by rewrite Ht, <- app_assoc|].
        split; [simpl; by apply sublist_skip|].
        constructor; [|done]. by eapply extractContent_row.
  - specialize (IH {| success := success acc; failed := failed acc + 1;
                      processedFiles := processedFiles acc |} table).
    destruct (ingest_loop extname basename w pool (map path_join rest) _
                table) as [[r|err] table'].
    + destruct IH as (Hall & rows & Ht & Hp & Hs & Hsum & Hwf).
      split; [constructor; [unfold hangs; by rewrite Hx | done]|].
      exists rows. simpl in *. repeat split; try done. lia.
    + destruct IH as (before & f & after & rows & Hsp & Hall & Hu & Ht
                      & Hsub & Hwf).
      exists (file :: before), f, after, rows.
      split; [by rewrite Hsp|].
      split; [constructor; [unfold hangs; by rewrite Hx | done]|].
      repeat split; try done. simpl. by apply sublist_cons.
  - exists [], file, rest, []. rewrite app_nil_r. by repeat split.
Qed.

Lemma ingestDocuments_throws
  (extname path_join basename : jsstring → jsstring)
  (clearExisting : bool) (w : World) (pool : Pool)
  (table : list TableRow) (error : JSError) (table' : list TableRow) :
  ingestDocuments extname path_join basename clearExisting w pool table
  = (RejectedWith error, table') →
  table' = table.
Proof.
  unfold ingestDocuments.
  destruct (getDocumentFiles extname path_join w) as [paths|e];
    [|by intros [= _ <-]].
  destruct (_ =? 0); [done|].
  destruct clearExisting.
  - destruct (truncate pool); [by intros [= _ <-]|].
    by destruct (ingest_loop _ _ _ _ _ _ _) as [[r|err] t].
  - by destruct (ingest_loop _ _ _ _ _ _ _) as [[r|err] t].
Qed.

Lemma ingestDocuments_uncaught
  (extname path_join basename : jsstring → jsstring)
  (clearExisting : bool) (w : World) (pool : Pool)
  (table : list TableRow) (error : JSError) (table' : list TableRow) :
  ingestDocuments extname path_join basename clearExisting w pool table
  = (Uncaught error, table') →
  (clearExisting = true → truncate pool = None)
  ∧ ∃ before file after rows,
      List.filter (isSupported extname) (listed w) = before ++ file :: after
      ∧ Forall (fun f => hangs extname path_join w f = false) before
      ∧ extractContent extname (files w) (path_join file) = Uncaught error
      ∧ table' = (if clearExisting then [] else table) ++ rows
      ∧ sublist (map row_filename rows)
          (map (fun f => basename (path_join f)) before)
      ∧ Forall well_formed_row rows.
Proof.
  unfold ingestDocuments, getDocumentFiles, listed.
  destruct (listing w) as [all|code e].
  2:{ destruct code as [c|]; [|done].
      by destruct (str_eqb c (lit "ENOENT")). }
  destruct (_ =? 0); [done|].
  set (start := {| success := 0; failed := 0; processedFiles := [] |}).
  assert (Hloop : ∀ t,
            match ingest_loop extname basename w pool
                    (map path_join (List.filter (isSupported extname) all))
                    start t with
            | (Returns r, t') => (Fulfilled r, t')
            | (Dies err, t') => (Uncaught err, t')
            end = (Uncaught error, table') →
            ∃ before file after rows,
              List.filter (isSupported extname) all = before ++ file :: after
              ∧ Forall (fun f => hangs extname path_join w f = false) before
              ∧ extractContent extname (files w) (path_join file)
                = Uncaught error
              ∧ table' = t ++ rows
              ∧ sublist (map row_filename rows)
                  (map (fun f => basename (path_join f)) before)
              ∧ Forall well_formed_row rows).
  { intros t.
    pose proof (ingest_loop_spec extname path_join basename w pool
                  (List.filter (isSupported extname) all) start t) as Hspec.
    destruct (ingest_loop extname basename w pool _ start t)
      as [[r|err] t']; intros [= <- <-]. done. }
  destruct clearExisting.
  - destruct (truncate pool) as [e|]; [done|].
    intros H. split; [done|]. by apply Hloop.
  - intros H. split; [done|]. by apply Hloop.
Qed.

Lemma ingestDocuments_hanging
  (extname path_join basename : jsstring → jsstring)
  (clearExisting : bool) (w : World) (pool : Pool)
  (table : list TableRow) :
  (clearExisting = true → truncate pool = None) →
  Exists (fun f => hangs extname path_join w f = true)
    (List.filter (isSupported extname) (listed w)) →
  ∃ error table',
    ingestDocuments extname path_join basename clearExisting w pool table
    = (Uncaught error, table').
Proof.
  unfold ingestDocuments, getDocumentFiles, listed. intros Htr Hex.
  destruct (listing w) as [all|code e];
    [|by apply Exists_nil in Hex].
  rewrite length_map.
  destruct (List.filter (isSupported extname) all) as [|f fs] eqn:Hf;
    [by apply Exists_nil in Hex|].
  rewrite <- Hf in *.
  replace (Z.of_nat (length (List.filter (isSupported extname) all)) =? 0)
    with false by (rewrite Hf; reflexivity).
  set (start := {| success := 0; failed := 0; processedFiles := [] |}).
  assert (Hloop : ∀ t, ∃ error table',
            match ingest_loop extname basename w pool
                    (map path_join (List.filter (isSupported extname) all))
                    start t with
            | (Returns r, t') => (Fulfilled r, t')
            | (Dies err, t') => (Uncaught err, t')
            end = (Uncaught error, table')).
  { intros t.
    pose proof (ingest_loop_spec extname path_join basename w pool
                  (List.filter (isSupported extname) all) start t) as Hspec.
    destruct (ingest_loop extname basename w pool _ start t)
      as [[r|err] t']; [|by eexists _, _].
    destruct Hspec as [Hall _]. by destruct (hanging_file _ _ _ _ Hall Hex). }
  destruct clearExisting; [|apply Hloop].
  rewrite Htr by done. apply Hloop.
Qed.

(** X22: an ingestion ends in one of three ways.  When it is fulfilled it
    accounts for every supported file of the directory: each is counted as
    success or as failure, the successes are the files named in the
    result, and these are the rows added to the table, each with a trimmed
    content and one of the four types; the table is emptied first only
    when it is asked for and there is a supported file: with none, or with
    a missing directory, the result is all zeros and the table stays as it
    was.  When it is rejected the table is as it was.  When a CSV file
    cannot be read it never settles: it has stopped at the first such
    file, the table has been emptied if that was asked for, and what was
    added are rows of earlier files only. *)
Theorem ingestion_accounts_for_every_file
  (extname path_join basename : jsstring → jsstring)
  (clearExisting : bool) (w : World) (pool : Pool)
  (table : list TableRow) :
  let supported := List.filter (isSupported extname) (listed w) in
  match ingestDocuments extname path_join basename clearExisting w pool
          table with
  | (Fulfilled r, table') =>
      success r + failed r = Z.of_nat (length supported)
      ∧ success r = Z.of_nat (length (processedFiles r))
      ∧ ∃ rows,
          table'
          = (if clearExisting && negb (Nat.eqb (length supported) 0)
             then [] else table) ++ rows
          ∧ map row_filename rows = processedFiles r
          ∧ Forall well_formed_row rows
  | (RejectedWith _, table') => table' = table
  | (Uncaught error, table') =>
      ∃ before file after rows,
        supported = before ++ file :: after
        ∧ Forall (fun f => hangs extname path_join w f = false) before
        ∧ extractContent extname (files w) (path_join file) = Uncaught error
        ∧ table' = (if clearExisting then [] else table) ++ rows
        ∧ sublist (map row_filename rows)
            (map (fun f => basename (path_join f)) before)
        ∧ Forall well_formed_row rows
  end.
Proof.
  intros supported.
  pose proof (ingestDocuments_throws extname path_join basename
                clearExisting w pool table) as Hthrows.
  pose proof (ingestDocuments_uncaught extname path_join basename
                clearExisting w pool table) as Huncaught.
  destruct (ingestDocuments extname path_join basename clearExisting w pool
              table) as [[r|error|error] table'] eqn:Hrun;
    [|by eapply Hthrows | by destruct (Huncaught _ _ eq_refl)].
  clear Hthrows Huncaught. revert Hrun.
  unfold ingestDocuments, getDocumentFiles.
  assert (Hzero : (0 + 0 = Z.of_nat 0) ∧ (0 = Z.of_nat (@length jsstring []))
                  ∧ ∃ rows : list TableRow,
                      table = table ++ rows
                      ∧ map row_filename rows = []
                      ∧ Forall well_formed_row rows).
  { split; [done|]. split; [done|]. exists []. by rewrite app_nil_r. }
  unfold supported, listed.
  destruct (listing w) as [all|code error].
  2:{ destruct code as [c|]; [|done].
      destruct (str_eqb c (lit "ENOENT")); [|done]. simpl.
      intros [= <- <-]. by rewrite andb_false_r. }
  rewrite length_map.
  destruct (List.filter (isSupported extname) all) as [|f fs] eqn:Hf.
  { simpl. intros [= <- <-]. by rewrite andb_false_r. }
  rewrite <- Hf.
  replace (Z.of_nat (length (List.filter (isSupported extname) all)) =? 0)
    with false by (rewrite Hf; reflexivity).
  replace (Nat.eqb (length (List.filter (isSupported extname) all)) 0)
    with false by (rewrite Hf; reflexivity).
  set (start := {| success := 0; failed := 0; processedFiles := [] |}).
  assert (Hloop : ∀ t,
            match ingest_loop extname basename w pool
                    (map path_join (List.filter (isSupported extname) all))
                    start t with
            | (Returns r, t') => (Fulfilled r, t')
            | (Dies err, t') => (Uncaught err, t')
            end = (Fulfilled r, table') →
            success r + failed r
            = Z.of_nat (length (List.filter (isSupported extname) all))
            ∧ success r = Z.of_nat (length (processedFiles r))
            ∧ ∃ rows,
                table' = t ++ rows
                ∧ map row_filename rows = processedFiles r
                ∧ Forall well_formed_row rows).
  { intros t.
    pose proof (ingest_loop_spec extname path_join basename w pool
                  (List.filter (isSupported extname) all) start t) as Hspec.
    destruct (ingest_loop extname basename w pool _ start t)
      as [[r'|err] t']; intros [= <- <-].
    destruct Hspec as (_ & rows & Ht & Hp & Hs & Hsum & Hwf).
    change (success start) with 0 in *. change (failed start) with 0 in *.
    change (processedFiles start) with (@nil jsstring) in *.
    simpl in Hp.
    split; [lia|]. split; [rewrite Hp, length_map; lia|].
    exists rows. by rewrite Hp. }
  destruct clearExisting; simpl.
  - destruct (truncate pool) as [error|]; [done|]. apply Hloop.
  - apply Hloop.
Qed.

(** X23: [POST /ingest] ends in one of three ways.  It answers with
    status 200, and then the index and the corpus version are unset and
    the cache is empty, so that every later lookup misses -- also when no
    file at all was ingested.  Or it answers with status 500, and then the
    table, the index, the corpus version and the cache are as they were.
    Or it never answers: that is the case exactly when the table could be
    emptied and some supported CSV file cannot be read; the table is then
    left emptied, holding rows of the files before that one only. *)
Theorem ingest_resets_or_keeps
  (extname path_join basename : jsstring → jsstring)
  (w : World) (pool : Pool) (table : list TableRow) (st : IndexState)
  (cache : SearchCache.t) :
  let supported := List.filter (isSupported extname) (listed w) in
  match post_ingest extname path_join basename w pool table st cache with
  | (Responded status st' cache', table') =>
      (status = 200
       ∧ documentIndex st' = None
       ∧ corpusVersion st' = None
       ∧ versioned st'
       ∧ SearchCache.getStats cache' = (0, SearchCache.maxSize cache)
       ∧ ∀ q v, SearchCache.get q v cache' = (None, cache'))
      ∨ (status = 500 ∧ table' = table ∧ st' = st ∧ cache' = cache)
  | (NoResponse error, table') =>
      truncate pool = None
      ∧ ∃ before file after,
          supported = before ++ file :: after
          ∧ Forall (fun f => hangs extname path_join w f = false) before
          ∧ extractContent extname (files w) (path_join file)
            = Uncaught error
          ∧ sublist (map row_filename table')
              (map (fun f => basename (path_join f)) before)
          ∧ Forall well_formed_row table'
  end
  ∧ (truncate pool = None →
     Exists (fun f => hangs extname path_join w f = true) supported →
     ∃ error table',
       post_ingest extname path_join basename w pool table st cache
       = (NoResponse error, table')).
Proof.
  intros supported. unfold post_ingest.
  pose proof (ingestDocuments_throws extname path_join basename true w pool
                table) as Hthrows.
  pose proof (ingestDocuments_uncaught extname path_join basename true w
                pool table) as Huncaught.
  pose proof (ingestDocuments_hanging extname path_join basename true w
                pool table) as Hhanging.
  destruct (ingestDocuments extname path_join basename true w pool table)
    as [[r|error|error] table']; split.
  - left. by repeat split.
  - intros Htr Hex. destruct (Hhanging (fun _ => Htr) Hex) as (e & t & [=]).
  - right. rewrite (Hthrows error table' eq_refl). by repeat split.
  - intros Htr Hex. destruct (Hhanging (fun _ => Htr) Hex) as (e & t & [=]).
  - destruct (Huncaught error table' eq_refl)
      as (Htr & before & file & after & rows & Hs & Hall & Hu & Ht & Hsub
          & Hwf).
    split; [by apply Htr|]. exists before, file, after.
    simpl in Ht. subst table'. by repeat split.
  - intros _ _. by eexists _, _.
Qed.

(* ================================================================== *)
(** * Stage A: what the selection call is shown and what it may select *)
(* ================================================================== *)

Lemma substring_nil_iff (s : jsstring) (n : Z) :
  0 < n → str_length (substring s 0 n) = 0 → s = [].
Proof.
  intros Hn. rewrite substring_length. unfold clamp, str_length.
  destruct s; [done|]. simpl length. lia.
Qed.

Lemma preview_block_pipeline (d : Document) :
  preview_block (with_preview d) = pipeline_preview d.
Proof.
  unfold preview_block, pipeline_preview, with_preview. simpl.
  destruct (str_length (substring (content d) 0 350) =? 0) eqn:E; [|done].
  apply Z.eqb_eq in E. apply substring_nil_iff in E; [|lia].
  by rewrite E.
Qed.

Lemma fold_left_blocks {A} (f : A → jsstring) (l : list A) :
  ∀ acc, fold_left (fun acc d => acc ++ f d) l acc = acc ++ concat (map f l).
Proof.
  induction l as [|x l IH]; intros acc; simpl; [by rewrite app_nil_r|].
  by rewrite IH, app_assoc.
Qed.

(** X24: the selection call is shown, for every document of the corpus
    and in the order of the corpus, the file name, the type and the first
    350 characters of the content -- never the 300 of the service's own
    cut, which no document of the pipeline reaches -- followed by an
    ellipsis exactly when the content is longer than 300 characters. *)
Theorem selection_sees_350_characters (documents : list Document) :
  previewContext (map with_preview documents)
  = (lit "=== AVAILABLE DOCUMENTS ===" ++ nl ++ nl)
    ++ concat (map pipeline_preview documents).
Proof.
  unfold previewContext. rewrite fold_left_blocks, map_map.
  f_equal. f_equal. apply map_ext, preview_block_pipeline.
Qed.

(** X25: when the selection call answers with an array that names no
    file of the corpus (the empty array included), the pipeline sends no
    answer call: it returns the fixed text for no relevant documents, with
    no sources and zero selected documents, after that one request. *)
Theorem empty_selection_skips_the_answer_call (key : option jsstring)
  (groq : list Request → Request → Reply)
  (JSON_parse : jsstring → option JSValue)
  (query : jsstring) (documents : list Document) (log : list Request)
  (reply : option jsstring) (items : list JSValue) :
  api_key_missing key = false →
  documents ≠ [] →
  groq log (selector_request query (map with_preview documents) 5)
  = Resolved reply →
  parse_selection JSON_parse (content_or reply (lit "[]")) = JArr items →
  filter_valid items (map filename documents) = [] →
  searchDocuments key groq JSON_parse query documents log
  = (Ok {| answer := NO_RELEVANT_ANSWER; sources := [];
           documentsSelected := 0 |},
     log ++ [selector_request query (map with_preview documents) 5]).
Proof.
  intros Hkey Hne Hreply Hparse Hnone.
  unfold searchDocuments. rewrite Hkey.
  replace (Z.of_nat (length documents) =? 0) with false
    by (destruct documents; [done | reflexivity]).
  unfold bind.
  rewrite (selectRelevantDocuments_cases key groq JSON_parse Hkey)
    by by destruct documents.
  assert (Hvalid : map filename (map with_preview documents)
                   = map filename documents)
    by (rewrite map_map; by apply map_ext).
  rewrite Hreply, Hparse, Hvalid, Hnone. unfold slice0. rewrite firstn_nil. simpl arr_includes.
  replace (List.filter (fun _ : Document => false) documents)
    with (@nil Document)
    by (clear; induction documents; simpl; congruence).
  unfold generateAnswer. rewrite Hkey. reflexivity.
Qed.

(** ** The regular-expression fallback *)

Lemma plus_match_sound (p : ascii → bool) (s : jsstring)
  (k : jsstring → option jsstring) (rest : jsstring) :
  plus_match p s k = Some rest →
  ∃ m s', s = m ++ s' ∧ m ≠ [] ∧ Forall (fun c => p c = true) m
          ∧ k s' = Some rest.
Proof.
  induction s as [|c s IH]; simpl; [done|].
  destruct (p c) eqn:Hc; [|done].
  destruct (plus_match p s k) as [rest'|] eqn:Hp.
  - intros [= <-]. destruct (IH eq_refl) as (m & s' & -> & _ & Hall & Hk).
    exists (c :: m), s'. repeat split; try done. by constructor.
  - intros Hk. exists [c], s. repeat split; try done.
    by constructor.
Qed.

Lemma rmatch_sound (r : regex) :
  ∀ (s : jsstring) (k : jsstring → option jsstring) (rest : jsstring),
    rmatch r s k = Some rest →
    ∃ m s', s = m ++ s' ∧ matches r m ∧ k s' = Some rest.
Proof.
  induction r as [p|p|r1 IH1 r2 IH2|r1 IH1 r2 IH2]; intros s k rest; simpl.
  - destruct s as [|c s]; [done|]. destruct (p c) eqn:Hc; [|done].
    intros Hk. exists [c], s. split; [done|]. split; [|done]. by exists c.
  - intros (m & s' & -> & Hne & Hall & Hk)%plus_match_sound.
    by exists m, s'.
  - intros (m1 & s1 & -> & H1 & (m2 & s2 & -> & H2 & Hk)%IH2)%IH1.
    exists (m1 ++ m2), s2. rewrite <- app_assoc. split; [done|].
    split; [|done]. by exists m1, m2.
  - destruct (rmatch r1 s k) as [rest'|] eqn:H1.
    + intros [= <-]. destruct (IH1 _ _ _ H1) as (m & s' & -> & Hm & Hk).
      exists m, s'. repeat split; try done. by left.
    + intros (m & s' & -> & Hm & Hk)%IH2.
      exists m, s'. repeat split; try done. by right.
Qed.

Lemma match_all_sound (re : regex) (s : jsstring) :
  ∀ skip m, m ∈ match_all re skip s → matches re m.
Proof.
  induction s as [|c s IH]; intros skip m; simpl.
  { intros H. by apply elem_of_nil in H. }
  destruct skip as [|n]; [|by apply IH].
  destruct (rmatch re (c :: s) Some) as [rest|] eqn:Hr; [|by apply IH].
  intros [->|Hin]%elem_of_cons; [|by eapply IH].
  apply rmatch_sound in Hr as (m & s' & Hs & Hm & [= <-]).
  assert (Hlen : length (c :: s) = (length m + length s')%nat)
    by (rewrite Hs; apply length_app).
  simpl length in Hlen |- *. rewrite Hlen, Hs.
  replace (length m + length s' - length s')%nat with (length m) by lia.
  by rewrite firstn_app, Nat.sub_diag, firstn_all, firstn_O, app_nil_r.
Qed.

Lemma ci_letter (c : ascii) (m : jsstring) :
  matches (ci c) m →
  ∃ x, m = [x] ∧ lower_char x = c
       ∧ (is_quote c = false → is_quote x = false).
Proof.
  intros (x & -> & Hx). apply bool_decide_eq_true in Hx.
  exists x. repeat split; [done|]. subst c.
  by destruct x as [[] [] [] [] [] [] [] []].
Qed.

Lemma ci_letters3 (a b c : ascii) (m : jsstring) :
  is_quote a = false → is_quote b = false → is_quote c = false →
  matches (RSeq (ci a) (RSeq (ci b) (ci c))) m →
  toLowerCase m = [a; b; c] ∧ Forall (fun x => is_quote x = false) m.
Proof.
  intros Ha Hb Hc (m1 & r & -> & H1 & (m2 & m3 & -> & H2 & H3)).
  apply ci_letter in H1 as (x1 & -> & <- & Hq1).
  apply ci_letter in H2 as (x2 & -> & <- & Hq2).
  apply ci_letter in H3 as (x3 & -> & <- & Hq3).
  split; [done|]. repeat constructor; auto.
Qed.

Lemma ci_letters4 (a b c d : ascii) (m : jsstring) :
  is_quote a = false → is_quote b = false → is_quote c = false →
  is_quote d = false →
  matches (RSeq (ci a) (RSeq (ci b) (RSeq (ci c) (ci d)))) m →
  toLowerCase m = [a; b; c; d] ∧ Forall (fun x => is_quote x = false) m.
Proof.
  intros Ha Hb Hc Hd
    (m1 & r & -> & H1 & (m2 & r' & -> & H2 & (m3 & m4 & -> & H3 & H4))).
  apply ci_letter in H1 as (x1 & -> & <- & Hq1).
  apply ci_letter in H2 as (x2 & -> & <- & Hq2).
  apply ci_letter in H3 as (x3 & -> & <- & Hq3).
  apply ci_letter in H4 as (x4 & -> & <- & Hq4).
  split; [done|]. repeat constructor; auto.
Qed.

Lemma filter_keeps {A} (p : A → bool) (l : list A) :
  Forall (fun c => p c = true) l → List.filter p l = l.
Proof.
  induction 1 as [|x l Hx _ IH]; simpl; [done|]. by rewrite Hx, IH.
Qed.

(** X26: every name the regular-expression fallback extracts from a text
    ends in a dot and one of the extensions txt, pdf, csv and pptx in any
    letter case, has a text in front of that dot and holds no quote
    character. *)
Theorem fallback_extracts_supported_names (text name : jsstring) :
  name ∈ extract_filenames text → supported_name name.
Proof.
  unfold extract_filenames.
  intros (m & <- & Hm%list_elem_of_In%match_all_sound)%list_elem_of_In%in_map_iff.
  destruct Hm as (q1 & m1 & -> & (c1 & -> & Hq1)
                  & (body & m2 & -> & [Hne Hbody]
                     & (dot & m3 & -> & (d & -> & Hd)
                        & (ext & q2 & -> & Hext & (c2 & -> & Hq2))))).
  apply bool_decide_eq_true in Hd. subst d.
  assert (Hletters : toLowerCase ext
                     ∈ [lit "txt"; lit "pdf"; lit "csv"; lit "pptx"]
                     ∧ Forall (fun c => is_quote c = false) ext).
  { destruct Hext as [Hx|[Hx|[Hx|Hx]]].
    - apply ci_letters3 in Hx as [-> ?]; [|done..]. split; [set_solver|done].
    - apply ci_letters3 in Hx as [-> ?]; [|done..]. split; [set_solver|done].
    - apply ci_letters3 in Hx as [-> ?]; [|done..]. split; [set_solver|done].
    - apply ci_letters4 in Hx as [-> ?]; [|done..]. split; [set_solver|done]. }
  destruct Hletters as [Hlow Hnoq].
  assert (Hbody' : Forall (fun c => is_quote c = false) body).
  { eapply Forall_impl; [exact Hbody|]. intros c Hc. simpl in Hc.
    by apply negb_true_iff. }
  assert (Hname : List.filter (fun c => negb (is_quote c))
                    ([c1] ++ body ++ ["."%char] ++ ext ++ [c2])
                  = body ++ lit "." ++ ext).
  { rewrite !List.filter_app.
    rewrite (filter_keeps _ body), (filter_keeps _ ext).
    - simpl. rewrite Hq1, Hq2. simpl. by rewrite app_nil_r.
    - eapply Forall_impl; [exact Hnoq|]. intros c Hc. simpl in Hc.
      by rewrite Hc.
    - done. }
  rewrite Hname. exists body, ext. repeat split; try done.
  apply Forall_app. split; [done|]. apply Forall_app. split; [|done].
  by repeat constructor.
Qed.

(* ================================================================== *)
(** * Instances *)
(* ================================================================== *)

Lemma cache_stays_bounded_witness :
  NoDup (SearchCache.keys (run_ops Scenarios.cache_run (SearchCache.new 2)))
  ∧ omap_size (SearchCache.cache
                 (run_ops Scenarios.cache_run (SearchCache.new 2)))
    ≤ Z.max 1 (SearchCache.maxSize (SearchCache.new 2))
  ∧ SearchCache.maxSize (run_ops Scenarios.cache_run (SearchCache.new 2))
    = SearchCache.maxSize (SearchCache.new 2).
Proof.
  apply (cache_stays_bounded Scenarios.cache_run (SearchCache.new 2)).
  - constructor.
  - vm_compute. discriminate.
Defined.

Lemma admission_store_isolated_and_bounded_witness :
  store_bounded (check_run Scenarios.two_clients ∅)
  ∧ (∀ now ip ip', ip' ≠ ip →
       snd (checkRateLimit now ip ∅) !! ip' = (∅ : gmap jsstring RateEntry) !! ip').
Proof.
  apply (admission_store_isolated_and_bounded Scenarios.two_clients ∅).
  intros ip e H. rewrite lookup_empty in H. discriminate H.
Defined.

Lemma paced_client_is_admitted_witness :
  Forall (fun d => allowed d = true)
    (fst (check_all Scenarios.paced_requests Samples.client ∅)).
Proof.
  apply (paced_client_is_admitted Samples.client ∅ Scenarios.paced_requests).
  - apply lookup_empty.
  - unfold Scenarios.paced_requests.
    repeat constructor; unfold spaced; lia.
Defined.

Lemma packed_context_shape_witness :
  let top := slice0 (scoreDocumentsByKeywords (lit "invoice")
                       Scenarios.invoices) 5 in
  ∃ n : nat,
    (n ≤ length top)%nat
    ∧ Z.of_nat n ≤ 5
    ∧ formatDocumentsForContext Scenarios.invoices (lit "invoice") 5 8000
      = (context_header ++ concat (map doc_block (firstn n top))
           ++ (if (n <? length top)%nat then omitted_marker else []),
         map doc_meta (firstn n top))
    ∧ str_length (context_header ++ concat (map doc_block (firstn n top)))
      ≤ Z.max (str_length context_header) 8000
    ∧ ((n < length top)%nat →
       8000
       < str_length (context_header
                     ++ concat (map doc_block (firstn (S n) top)))).
Proof.
  apply (packed_context_shape Scenarios.invoices (lit "invoice") 5 8000).
  lia.
Defined.

Lemma short_document_whole_witness :
  extractBestWindow Samples.long_document 3000
  = content (doc Samples.long_document).
Proof.
  apply (short_document_whole Samples.long_document 3000).
  - lia.
  - vm_compute. discriminate.
Defined.

Lemma window_covers_a_match_witness :
  ∃ (lead trail : bool) (start len : nat) (p : Z),
    extractBestWindow Samples.long_document 1000
    = (if lead then ellipsis else [])
      ++ firstn len (skipn start (content (doc Samples.long_document)))
      ++ (if trail then ellipsis else [])
    ∧ p ∈ [50; 60; 1800]
    ∧ Z.of_nat start ≤ p < Z.of_nat start + Z.of_nat len
    ∧ (start + len ≤ length (content (doc Samples.long_document)))%nat.
Proof.
  apply (window_covers_a_match Samples.long_document 1000 [50; 60; 1800]).
  - lia.
  - reflexivity.
  - discriminate.
  - apply Forall_forall. apply (bool_decide_unpack _). vm_compute. exact I.
Defined.

Lemma match_positions_recorded_witness :
  ∃ positions,
    matchPositions Scenarios.top_invoice = Some positions
    ∧ Sorted Z.le positions
    ∧ ∀ p, p ∈ positions
           ↔ ∃ token, token ∈ queryTokens (lit "invoice")
                ∧ 0 ≤ p < str_length
                              (toLowerCase
                                 (content (doc Scenarios.top_invoice)))
                ∧ is_prefix token
                    (skipn (Z.to_nat p)
                       (toLowerCase (content (doc Scenarios.top_invoice))))
                  = true.
Proof.
  apply (match_positions_recorded (lit "invoice") Scenarios.invoices
           Scenarios.top_invoice).
  - vm_compute. discriminate.
  - vm_compute. left.
Defined.

Lemma stage_b_terminal_failures_witness :
  (str_eqb (name Scenarios.abort_error) (lit "AbortError") = true →
   generateAnswer Samples.api_key Samples.failing_backend (lit "invoice")
     Samples.four_selected []
   = (Throw (Error (lit "Request timeout - the LLM took too long to respond")),
      [] ++ [answer_request (lit "invoice") Samples.four_selected]))
  ∧ (str_eqb (name Scenarios.abort_error) (lit "AbortError") = false →
     includes (message Scenarios.abort_error) (lit "rate_limit")
     || includes (message Scenarios.abort_error) (lit "413") = false →
     generateAnswer Samples.api_key Samples.failing_backend (lit "invoice")
       Samples.four_selected []
     = (Throw (Error (lit "Failed to get response from AI: "
                        ++ message Scenarios.abort_error)),
        [] ++ [answer_request (lit "invoice") Samples.four_selected])).
Proof.
  apply (stage_b_terminal_failures Samples.api_key Samples.failing_backend
           (lit "invoice") Samples.four_selected [] Scenarios.abort_error).
  - reflexivity.
  - discriminate.
  - reflexivity.
Defined.

Lemma missing_key_is_service_unavailable_witness :
  post_search None Samples.selecting_backend Samples.parse_reply
    Scenarios.load_invoices (lit "unused") Samples.clock Samples.client
    Scenarios.invoice_body Samples.initial_state
  = ({| status := 503;
        body := ErrorBody (lit "Service unavailable")
                  (lit "GROQ_API_KEY not configured. Get your free key at console.groq.com")
                  None |},
     {| rateLimitStore := Scenarios.store_after_one;
        cache := cache Samples.initial_state;
        SearchRoutes.corpusVersion := Some Samples.version1;
        backend_log := backend_log Samples.initial_state |}).
Proof.
  apply (missing_key_is_service_unavailable None Samples.selecting_backend
           Samples.parse_reply Scenarios.load_invoices (lit "unused")
           Samples.clock Samples.client Scenarios.invoice_body
           Samples.initial_state 9 Scenarios.store_after_one (lit "invoice")
           Scenarios.invoices (Some Samples.version1)).
  - reflexivity.
  - vm_compute. reflexivity.
  - reflexivity.
  - vm_compute. discriminate.
  - reflexivity.
  - discriminate.
  - reflexivity.
Defined.

Lemma pipeline_budget_witness :
  ∃ reqs,
    snd (searchDocuments Samples.api_key Samples.selecting_backend
           Samples.parse_reply (lit "invoice") Scenarios.invoices [])
    = [] ++ reqs
    ∧ (1 ≤ length reqs ≤ 3)%nat
    ∧ ∀ r, fst (searchDocuments Samples.api_key Samples.selecting_backend
                  Samples.parse_reply (lit "invoice") Scenarios.invoices [])
           = Ok r →
        (∀ s, s ∈ sources r → s ∈ map source_of Scenarios.invoices)
        ∧ Z.of_nat (length (sources r)) ≤ documentsSelected r
        ∧ (NoDup (map filename Scenarios.invoices) → documentsSelected r ≤ 5).
Proof.
  apply (pipeline_budget Samples.api_key Samples.selecting_backend
           Samples.parse_reply (lit "invoice") Scenarios.invoices []).
  - reflexivity.
  - discriminate.
Defined.

Lemma backend_outage_is_a_timeout_witness :
  let ranked :=
    List.filter
      (fun d => arr_includes
                  (keyword_fallback (trim (lit "invoice"))
                     (map with_preview Scenarios.invoices) 5)
                  (filename d))
      Scenarios.invoices in
  ranked ≠ []
  ∧ post_search Samples.api_key Samples.failing_backend Samples.parse_reply
      Scenarios.load_invoices (lit "unused") Samples.clock Samples.client
      Scenarios.invoice_body Samples.initial_state
    = ({| status := 504;
          body := ErrorBody (lit "Request timeout")
                    (lit "The search took too long to complete. Please try again.")
                    None |},
       {| rateLimitStore := Scenarios.store_after_one;
          cache := cache Samples.initial_state;
          SearchRoutes.corpusVersion := Some Samples.version1;
          backend_log :=
            backend_log Samples.initial_state
            ++ [selector_request (trim (lit "invoice"))
                  (map with_preview Scenarios.invoices) 5;
                answer_request (trim (lit "invoice")) ranked] |}).
Proof.
  apply (backend_outage_is_a_timeout Samples.api_key Samples.failing_backend
           Samples.parse_reply Scenarios.load_invoices (lit "unused")
           Samples.clock Samples.client Scenarios.invoice_body
           Samples.initial_state 9 Scenarios.store_after_one (lit "invoice")
           Scenarios.invoices (Some Samples.version1)).
  - reflexivity.
  - intros log req. exists Scenarios.abort_error. split; reflexivity.
  - vm_compute. reflexivity.
  - reflexivity.
  - vm_compute. discriminate.
  - reflexivity.
  - discriminate.
  - reflexivity.
Defined.

Lemma repeated_query_is_served_from_cache_witness :
  let first := post_search Samples.api_key Samples.selecting_backend
                 Samples.parse_reply Scenarios.load_invoices (lit "unused")
                 Samples.clock Samples.client Scenarios.invoice_body
                 Samples.initial_state in
  let second := post_search Samples.api_key Samples.selecting_backend
                  Samples.parse_reply Scenarios.load_invoices (lit "unused")
                  Scenarios.later_clock Scenarios.other_client
                  Scenarios.shouted_body (snd first) in
  fst first
  = {| status := 200;
       body := search_body (trim (lit "invoice")) Scenarios.invoice_result
                 (Z.of_nat (length Scenarios.invoices)) Samples.clock
                 false |}
  ∧ fst second
    = {| status := 200;
         body := search_body (trim (lit " INVOICE "))
                   Scenarios.invoice_result
                   (Z.of_nat (length Scenarios.invoices))
                   Scenarios.later_clock true |}
  ∧ backend_log (snd second) = snd Scenarios.invoice_run.
Proof.
  apply (repeated_query_is_served_from_cache Samples.api_key
           Samples.selecting_backend Samples.parse_reply
           Scenarios.load_invoices (lit "unused") Samples.clock
           Scenarios.later_clock Samples.client Scenarios.other_client
           Scenarios.invoice_body Scenarios.shouted_body
           Samples.initial_state 9 9 Scenarios.store_after_one
           Scenarios.store_after_two (lit "invoice") (lit " INVOICE ")
           Scenarios.invoices (Some Samples.version1)
           Scenarios.invoice_result (snd Scenarios.invoice_run)).
  - vm_compute. reflexivity.
  - reflexivity.
  - vm_compute. discriminate.
  - reflexivity.
  - discriminate.
  - reflexivity.
  - vm_compute. reflexivity.
  - vm_compute. reflexivity.
  - reflexivity.
  - vm_compute. discriminate.
  - reflexivity.
  - vm_compute. reflexivity.
Defined.

Lemma turned_down_requests_use_up_the_window_witness :
  ∃ resps st10,
    post_all Samples.api_key Samples.selecting_backend Samples.parse_reply
      Scenarios.load_invoices (lit "unused") Samples.client
      Scenarios.ten_turned_down Samples.initial_state
    = (resps, st10)
    ∧ length resps = 10%nat
    ∧ Forall (fun resp => status resp = 400) resps
    ∧ cache st10 = cache Samples.initial_state
    ∧ backend_log st10 = backend_log Samples.initial_state
    ∧ ∀ clock body_query,
        rateLimitNow clock < 0 + RATE_LIMIT_WINDOW_MS →
        let last := post_search Samples.api_key Samples.selecting_backend
                      Samples.parse_reply Scenarios.load_invoices
                      (lit "unused") clock Samples.client body_query st10 in
        status (fst last) = 429
        ∧ cache (snd last) = cache Samples.initial_state
        ∧ backend_log (snd last) = backend_log Samples.initial_state.
Proof.
  apply (turned_down_requests_use_up_the_window Samples.api_key
           Samples.selecting_backend Samples.parse_reply
           Scenarios.load_invoices (lit "unused") Samples.client
           Scenarios.ten_turned_down Samples.initial_state 0 9000).
  - apply lookup_empty.
  - reflexivity.
  - apply Forall_forall. apply (bool_decide_unpack _). vm_compute. exact I.
  - reflexivity.
Defined.

Lemma empty_selection_skips_the_answer_call_witness :
  searchDocuments Samples.api_key Scenarios.selecting_nothing
    Scenarios.parse_empty (lit "invoice") Scenarios.invoices []
  = (Ok {| answer := NO_RELEVANT_ANSWER; sources := [];
           documentsSelected := 0 |},
     [] ++ [selector_request (lit "invoice")
              (map with_preview Scenarios.invoices) 5]).
Proof.
  apply (empty_selection_skips_the_answer_call Samples.api_key
           Scenarios.selecting_nothing Scenarios.parse_empty (lit "invoice")
           Scenarios.invoices [] (Some (lit "[]")) []).
  - reflexivity.
  - discriminate.
  - reflexivity.
  - reflexivity.
  - reflexivity.
Defined.

Lemma fallback_extracts_supported_names_witness :
  supported_name (lit "invoice.txt").
Proof.
  apply (fallback_extracts_supported_names Samples.selection_reply
           (lit "invoice.txt")).
  vm_compute. left.
Defined.

Lemma index_has_a_version_witness :
  let build :=
    buildDocumentIndex Scenarios.sample_extname Scenarios.sample_join
      Scenarios.sample_number Scenarios.directory Scenarios.unloaded in
  versioned Scenarios.unloaded
  ∧ (∀ r, build = Returns r → versioned (snd r))
  ∧ ∀ index,
      read_index Scenarios.sample_extname Scenarios.sample_join
        Scenarios.directory = Returns (Some index) →
      let gap :=
        assign_index index (date_now Scenarios.directory)
          Scenarios.unloaded in
      ¬ versioned gap
      ∧ getDocumentsWithFallback Scenarios.sample_extname
          Scenarios.sample_join Scenarios.sample_number Scenarios.directory
          gap
        = Returns (map entry index, gap)
      ∧ (∀ generated,
           current_version (corpusVersion gap) generated = generated)
      ∧ build
        = Returns
            (index,
             assign_version
               (generateCorpusVersion Scenarios.sample_extname
                  Scenarios.sample_join Scenarios.sample_number
                  Scenarios.directory) gap).
Proof.
  destruct (index_has_a_version Scenarios.sample_extname
              Scenarios.sample_join Scenarios.sample_number
              Scenarios.directory Scenarios.unloaded I)
    as (H1 & H2 & H3 & H4 & H5 & H6).
  split; [exact I|]. split; [exact H3|]. intros index Hread gap.
  destruct (H6 index Hread eq_refl) as (G1 & G2 & G3 & G4 & G5 & G6).
  split; [exact G1|]. split; [apply G2; reflexivity|].
  split; [exact G3 | exact G6].
Defined.

Lemma index_is_kept_until_invalidated_witness :
  let load := getDocumentsWithFallback Scenarios.sample_extname
                Scenarios.sample_join Scenarios.sample_number in
  ∃ first,
    load Scenarios.directory Scenarios.unloaded = Returns first
    ∧ length (fst first) = 2%nat
    ∧ load Scenarios.no_directory (snd first) = Returns first
    ∧ ∃ st', load Scenarios.no_directory
               (invalidateDocumentIndex (snd first))
             = Returns ([], st').
Proof.
  intros load.
  pose (first := match load Scenarios.directory Scenarios.unloaded with
                 | Returns r => r
                 | Dies _ => ([], Scenarios.unloaded)
                 end).
  assert (Hfirst : load Scenarios.directory Scenarios.unloaded
                   = Returns first) by (vm_compute; reflexivity).
  exists first. split; [exact Hfirst|].
  split; [vm_compute; reflexivity|].
  exact (index_is_kept_until_invalidated Scenarios.sample_extname
           Scenarios.sample_join Scenarios.sample_number Scenarios.directory
           Scenarios.no_directory Scenarios.unloaded first eq_refl eq_refl
           eq_refl Hfirst).
Defined.

Lemma database_changes_go_unnoticed_witness :
  let load1 :=
    database_loader Scenarios.invoices (date_now Scenarios.with_invoices) in
  let load2 :=
    database_loader [Samples.plain_doc 7 "memo.txt" "no bills at all"]
      (date_now Scenarios.with_other_rows) in
  let generated w :=
    generateCorpusVersion Scenarios.sample_extname Scenarios.sample_join
      Scenarios.sample_number w in
  let version :=
    snd (load1 (SearchRoutes.corpusVersion Samples.initial_state)) in
  let first := post_search Samples.api_key Samples.selecting_backend
                 Samples.parse_reply load1
                 (generated Scenarios.with_invoices) Samples.clock
                 Samples.client Scenarios.invoice_body
                 Samples.initial_state in
  let second := post_search Samples.api_key Samples.selecting_backend
                  Samples.parse_reply load2
                  (generated Scenarios.with_other_rows)
                  Scenarios.later_clock Scenarios.other_client
                  Scenarios.shouted_body (snd first) in
  (∀ v,
     getDocumentsWithFallback Scenarios.sample_extname Scenarios.sample_join
       Scenarios.sample_number Scenarios.with_invoices
       {| documentIndex := None; indexLastUpdated := None;
          corpusVersion := v |}
     = Returns
         (fst (load1 v),
          {| documentIndex := None; indexLastUpdated := None;
             corpusVersion := snd (load1 v) |}))
  ∧ (∀ v,
       getDocumentsWithFallback Scenarios.sample_extname
         Scenarios.sample_join Scenarios.sample_number
         Scenarios.with_other_rows
         {| documentIndex := None; indexLastUpdated := None;
            corpusVersion := v |}
       = Returns
           (fst (load2 v),
            {| documentIndex := None; indexLastUpdated := None;
               corpusVersion := snd (load2 v) |}))
  ∧ fst second
    = {| status := 200;
         body := search_body (trim (lit " INVOICE "))
                   Scenarios.invoice_result
                   (Z.of_nat
                      (length [Samples.plain_doc 7 "memo.txt"
                                 "no bills at all"]))
                   Scenarios.later_clock true |}
  ∧ backend_log (snd second) = snd Scenarios.invoice_run
  ∧ SearchRoutes.corpusVersion (snd second) = version.
Proof.
  apply (database_changes_go_unnoticed Samples.api_key
           Samples.selecting_backend Samples.parse_reply
           Scenarios.sample_extname Scenarios.sample_join
           Scenarios.sample_number Scenarios.with_invoices
           Scenarios.with_other_rows None None Samples.clock
           Scenarios.later_clock Samples.client Scenarios.other_client
           Scenarios.invoice_body Scenarios.shouted_body
           Samples.initial_state 9 9 Scenarios.store_after_one
           Scenarios.store_after_two (lit "invoice") (lit " INVOICE ")
           Scenarios.invoices
           [Samples.plain_doc 7 "memo.txt" "no bills at all"]
           Scenarios.invoice_result (snd Scenarios.invoice_run)).
  - reflexivity.
  - discriminate.
  - reflexivity.
  - discriminate.
  - vm_compute. reflexivity.
  - reflexivity.
  - vm_compute. discriminate.
  - reflexivity.
  - vm_compute. reflexivity.
  - vm_compute. reflexivity.
  - reflexivity.
  - vm_compute. discriminate.
  - vm_compute. reflexivity.
Defined.

(** ** A table that cannot be read *)

(** The directory of four files, the table being locked: the text is
    indexed, the PDF is skipped, and at the table neither the build of the
    index nor the loading of the documents returns.  An ingestion into a
    table of one row empties the table, writes the row of the text, and
    never answers. *)
Example locked_table_is_not_skipped :
  match buildDocumentIndex Scenarios.sample_extname Scenarios.sample_join
          Scenarios.sample_number Scenarios.directory Scenarios.unloaded with
  | Returns (index, st') =>
      map (fun e => filename (entry e)) index
      = [lit "notes.TXT"; lit "prices.csv"]
      ∧ corpusVersion st' = Some (lit "3-1700000000000")
  | Dies _ => False
  end
  ∧ buildDocumentIndex Scenarios.sample_extname Scenarios.sample_join
      Scenarios.sample_number Scenarios.locked_directory Scenarios.unloaded
    = Dies Scenarios.locked_table
  ∧ loadDocumentsFromFilesystem Scenarios.sample_extname
      Scenarios.sample_join Scenarios.locked_directory
    = Dies Scenarios.locked_table
  ∧ post_ingest Scenarios.sample_extname Scenarios.sample_join
      Scenarios.sample_basename Scenarios.locked_directory
      Scenarios.willing_pool Scenarios.old_rows Scenarios.unloaded
      (SearchCache.new 100)
    = (NoResponse Scenarios.locked_table,
       [{| row_filename := lit "notes.TXT"; row_filetype := lit "txt";
           row_content := lit "meeting notes" |}])
  ∧ fst (post_ingest Scenarios.sample_extname Scenarios.sample_join
           Scenarios.sample_basename Scenarios.directory
           Scenarios.willing_pool Scenarios.old_rows Scenarios.unloaded
           (SearchCache.new 100))
    = Responded 200 (invalidateDocumentIndex Scenarios.unloaded)
        (SearchCache.clear (SearchCache.new 100)).
Proof. vm_compute. repeat split. Qed.
